(** * chroot/run_linux.go: a shallow embedding and its verified properties

    The development follows the Go source function by function.  Kernel
    calls are threaded through an explicit world; third-party library
    functions (golang.org/x/sys/unix, gocapability, the Go string
    library) enter either as the constants they define on linux/amd64 or
    as section variables. *)

From stdpp Require Import gmap strings list.
From Stdlib Require Import ZArith String Ascii Lia.

Open Scope Z_scope.
Open Scope string_scope.

(** ** Go basics *)

(** [strings.HasPrefix(s, prefix)]. *)
Definition HasPrefix (s prefix : string) : bool := String.prefix prefix s.

(** Wrap-around of the unsigned integer types used by the source. *)
Definition u32 (x : Z) : Z := x mod 2 ^ 32.

(** [^x] on a [uintptr] (64 bits on linux/amd64). *)
Definition uintptr_not (x : Z) : Z := Z.lxor x (Z.ones 64).

(** [x &= ^uintptr(b)]. *)
Definition and_not (x b : Z) : Z := Z.land x (uintptr_not b).

(** ** Constants of golang.org/x/sys/unix on linux/amd64 *)

Definition MS_RDONLY  : Z := 1.
Definition MS_NOSUID  : Z := 2.
Definition MS_NODEV   : Z := 4.
Definition MS_NOEXEC  : Z := 8.
Definition MS_REMOUNT : Z := 32.
Definition MS_BIND    : Z := 4096.
Definition MS_REC     : Z := 16384.
Definition MS_PRIVATE : Z := 262144.
Definition MNT_DETACH : Z := 2.

Definition ST_RDONLY : Z := 1.
Definition ST_NOSUID : Z := 2.
Definition ST_NODEV  : Z := 4.
Definition ST_NOEXEC : Z := 8.

Definition S_IXOTH : Z := 1.
Definition S_IROTH : Z := 4.
Definition S_IXGRP : Z := 8.
Definition S_IRGRP : Z := 32.
Definition S_IXUSR : Z := 64.
Definition S_IRUSR : Z := 256.

(** The flag words computed at the top of [setupChrootBindMounts]. *)
Definition commonFlags : Z := Z.lor (Z.lor MS_BIND MS_REC) MS_PRIVATE.
Definition bindFlags   : Z := Z.lor commonFlags MS_NODEV.
Definition devFlags    : Z :=
  Z.lor (Z.lor (Z.lor commonFlags MS_NOEXEC) MS_NOSUID) MS_RDONLY.
Definition procFlags   : Z := Z.lor devFlags MS_NODEV.
Definition sysFlags    : Z := Z.lor devFlags MS_NODEV.

(** ** Mount option tokens (run_linux.go, lines 677-706) *)

Module MountFlags.

(** One iteration of [for _, option := range m.Options { switch option ... }]
    on the pair [(requestFlags, expectedFlags)]. *)
Definition optionStep (fl : Z * Z) (option : string) : Z * Z :=
  let '(requestFlags, expectedFlags) := fl in
  if String.eqb option "nodev" then
    (Z.lor requestFlags MS_NODEV, Z.lor expectedFlags ST_NODEV)
  else if String.eqb option "dev" then
    (and_not requestFlags MS_NODEV, and_not expectedFlags ST_NODEV)
  else if String.eqb option "noexec" then
    (Z.lor requestFlags MS_NOEXEC, Z.lor expectedFlags ST_NOEXEC)
  else if String.eqb option "exec" then
    (and_not requestFlags MS_NOEXEC, and_not expectedFlags ST_NOEXEC)
  else if String.eqb option "nosuid" then
    (Z.lor requestFlags MS_NOSUID, Z.lor expectedFlags ST_NOSUID)
  else if String.eqb option "suid" then
    (and_not requestFlags MS_NOSUID, and_not expectedFlags ST_NOSUID)
  else if String.eqb option "ro" then
    (Z.lor requestFlags MS_RDONLY, Z.lor expectedFlags ST_RDONLY)
  else if String.eqb option "rw" then
    (and_not requestFlags MS_RDONLY, and_not expectedFlags ST_RDONLY)
  else (requestFlags, expectedFlags).

(** [requestFlags := bindFlags; expectedFlags := uintptr(0)] followed by the
    loop over the options. *)
Definition mountFlags (options : list string) : Z * Z :=
  fold_left optionStep options (bindFlags, 0).

(** The four axes of the token table. *)
Inductive Axis := AxDev | AxExec | AxSuid | AxRo.

Definition setToken (a : Axis) : string :=
  match a with
  | AxDev => "nodev" | AxExec => "noexec" | AxSuid => "nosuid" | AxRo => "ro"
  end.

Definition clearToken (a : Axis) : string :=
  match a with
  | AxDev => "dev" | AxExec => "exec" | AxSuid => "suid" | AxRo => "rw"
  end.

Definition msBit (a : Axis) : Z :=
  match a with
  | AxDev => MS_NODEV | AxExec => MS_NOEXEC | AxSuid => MS_NOSUID
  | AxRo => MS_RDONLY
  end.

Definition stBit (a : Axis) : Z :=
  match a with
  | AxDev => ST_NODEV | AxExec => ST_NOEXEC | AxSuid => ST_NOSUID
  | AxRo => ST_RDONLY
  end.

(** The last token of axis [a] in the list: [Some true] for its setting
    token, [Some false] for its clearing token, [None] when the axis has no
    token in the list. *)
Fixpoint lastToken (a : Axis) (options : list string) : option bool :=
  match options with
  | [] => None
  | o :: rest =>
      match lastToken a rest with
      | Some b => Some b
      | None =>
          if String.eqb o (setToken a) then Some true
          else if String.eqb o (clearToken a) then Some false
          else None
      end
  end.

(** [x & b != 0]. *)
Definition hasFlag (x b : Z) : bool := negb (Z.eqb (Z.land x b) 0).

End MountFlags.

(** ** Errors

    Kernel calls fail with an errno; the functions of this file wrap it in
    an [error] that records the failing site, as [fmt.Errorf("...: %w")]
    does. *)

Inductive Errno := ENOENT | EPERM | EACCES | EBUSY | EAGAIN | EINVAL | EOTHER (n : Z).

Definition Errno_eqb (a b : Errno) : bool :=
  match a, b with
  | ENOENT, ENOENT | EPERM, EPERM | EACCES, EACCES | EBUSY, EBUSY
  | EAGAIN, EAGAIN | EINVAL, EINVAL => true
  | EOTHER n, EOTHER m => Z.eqb n m
  | _, _ => false
  end.

(** [errors.Is(err, os.ErrNotExist)] on an errno. *)
Definition isNotExist (e : Errno) : bool := Errno_eqb e ENOENT.

(** [os.IsPermission(err)]. *)
Definition isPermission (e : Errno) : bool :=
  Errno_eqb e EPERM || Errno_eqb e EACCES.

(** A Go [error]: a bare errno, a message, or a message that wraps
    another error ([%w]). *)
Inductive error :=
| FromErrno (e : Errno)
| Errorf (msg : string)
| Wrapf (msg : string) (wrapped : error).

Definition wrapErrno (msg : string) (cause : Errno) : error :=
  Wrapf msg (FromErrno cause).

Inductive Result (A : Type) :=
| Ok (a : A)
| Err (e : error).
Arguments Ok {A} a.
Arguments Err {A} e.

(** ** Resource limits (lines 31-51 and 424-439) *)

Definition RLIMIT_CPU        : Z := 0.
Definition RLIMIT_FSIZE      : Z := 1.
Definition RLIMIT_DATA       : Z := 2.
Definition RLIMIT_STACK      : Z := 3.
Definition RLIMIT_CORE       : Z := 4.
Definition RLIMIT_RSS        : Z := 5.
Definition RLIMIT_NPROC      : Z := 6.
Definition RLIMIT_NOFILE     : Z := 7.
Definition RLIMIT_MEMLOCK    : Z := 8.
Definition RLIMIT_AS         : Z := 9.
Definition RLIMIT_LOCKS      : Z := 10.
Definition RLIMIT_SIGPENDING : Z := 11.
Definition RLIMIT_MSGQUEUE   : Z := 12.
Definition RLIMIT_NICE       : Z := 13.
Definition RLIMIT_RTPRIO     : Z := 14.
Definition RLIMIT_RTTIME     : Z := 15.

Definition rlimitsMap : gmap string Z :=
  list_to_map
    [ ("RLIMIT_AS", RLIMIT_AS);
      ("RLIMIT_CORE", RLIMIT_CORE);
      ("RLIMIT_CPU", RLIMIT_CPU);
      ("RLIMIT_DATA", RLIMIT_DATA);
      ("RLIMIT_FSIZE", RLIMIT_FSIZE);
      ("RLIMIT_LOCKS", RLIMIT_LOCKS);
      ("RLIMIT_MEMLOCK", RLIMIT_MEMLOCK);
      ("RLIMIT_MSGQUEUE", RLIMIT_MSGQUEUE);
      ("RLIMIT_NICE", RLIMIT_NICE);
      ("RLIMIT_NOFILE", RLIMIT_NOFILE);
      ("RLIMIT_NPROC", RLIMIT_NPROC);
      ("RLIMIT_RSS", RLIMIT_RSS);
      ("RLIMIT_RTPRIO", RLIMIT_RTPRIO);
      ("RLIMIT_RTTIME", RLIMIT_RTTIME);
      ("RLIMIT_SIGPENDING", RLIMIT_SIGPENDING);
      ("RLIMIT_STACK", RLIMIT_STACK) ].

(** [specs.POSIXRlimit]. *)
Record POSIXRlimit := { rl_Type : string; rl_Hard : Z; rl_Soft : Z }.

(** [unix.Rlimit]. *)
Record Rlimit := { Cur : Z; Max : Z }.

(** ASCII upper-casing, the behaviour of [strings.ToUpper] on ASCII text;
    used to instantiate the section variable below. *)
Definition upperAscii (c : ascii) : ascii :=
  let n := N_of_ascii c in
  if (97 <=? n)%N && (n <=? 122)%N then ascii_of_N (n - 32) else c.

Fixpoint asciiToUpper (s : string) : string :=
  match s with
  | EmptyString => EmptyString
  | String c r => String (upperAscii c) (asciiToUpper r)
  end.

Section Rlimits.

(** [strings.ToUpper] of the Go library. *)
Variable ToUpper : string -> string.

(** The body of the loop of [parseRlimits]: look the upper-cased name up
    and store the pair, or fail on an unknown name. *)
Definition parseStep (parsed : gmap Z Rlimit) (limit : POSIXRlimit)
  : Result (gmap Z Rlimit) :=
  match rlimitsMap !! ToUpper (rl_Type limit) with
  | None => Err (Errorf ("error parsing limit type " ++ rl_Type limit))
  | Some resource =>
      Ok (<[resource := {| Cur := rl_Soft limit; Max := rl_Hard limit |}]> parsed)
  end.

Fixpoint parseLoop (parsed : gmap Z Rlimit) (limits : list POSIXRlimit)
  : Result (gmap Z Rlimit) :=
  match limits with
  | [] => Ok parsed
  | limit :: rest =>
      match parseStep parsed limit with
      | Err e => Err e
      | Ok parsed' => parseLoop parsed' rest
      end
  end.

(** [parseRlimits(spec)]; the argument is [spec.Process], [None] when it
    is nil, otherwise its [Rlimits].  A nil map reads like the empty
    map. *)
Definition parseRlimits (process : option (list POSIXRlimit))
  : Result (gmap Z Rlimit) :=
  match process with
  | None => Ok ∅
  | Some limits => parseLoop ∅ limits
  end.

(** The resource a limit entry names, if the table knows it. *)
Definition resourceOf (limit : POSIXRlimit) : option Z :=
  rlimitsMap !! ToUpper (rl_Type limit).

(** The pair of the last entry of the list naming resource [r]. *)
Fixpoint lastFor (r : Z) (limits : list POSIXRlimit) : option Rlimit :=
  match limits with
  | [] => None
  | limit :: rest =>
      match lastFor r rest with
      | Some v => Some v
      | None =>
          if bool_decide (resourceOf limit = Some r)
          then Some {| Cur := rl_Soft limit; Max := rl_Hard limit |}
          else None
      end
  end.

End Rlimits.

(** ** Capabilities (lines 366-422)

    [capability.CapType] has five values; a [Capabilities] object of the
    gocapability library holds one set of capability numbers per type. *)

Inductive CapType := EFFECTIVE | PERMITTED | INHERITABLE | BOUNDING | AMBIENT.

Record Capabilities := mkCaps {
  effective : gset Z;
  permitted : gset Z;
  inheritable : gset Z;
  bounding : gset Z;
  ambient : gset Z
}.

(** The object [capability.NewPid2(0)] returns: nothing is loaded into it. *)
Definition emptyCaps : Capabilities := mkCaps ∅ ∅ ∅ ∅ ∅.

Definition capsOf (c : Capabilities) (which : CapType) : gset Z :=
  match which with
  | EFFECTIVE => effective c
  | PERMITTED => permitted c
  | INHERITABLE => inheritable c
  | BOUNDING => bounding c
  | AMBIENT => ambient c
  end.

(** [c.Get(which, what)]. *)
Definition capGet (c : Capabilities) (which : CapType) (what : Z) : bool :=
  bool_decide (what ∈ capsOf c which).

(** [c.Set(which, what)]. *)
Definition capSet (c : Capabilities) (which : CapType) (what : Z) : Capabilities :=
  match which with
  | EFFECTIVE => mkCaps ({[what]} ∪ effective c) (permitted c) (inheritable c) (bounding c) (ambient c)
  | PERMITTED => mkCaps (effective c) ({[what]} ∪ permitted c) (inheritable c) (bounding c) (ambient c)
  | INHERITABLE => mkCaps (effective c) (permitted c) ({[what]} ∪ inheritable c) (bounding c) (ambient c)
  | BOUNDING => mkCaps (effective c) (permitted c) (inheritable c) ({[what]} ∪ bounding c) (ambient c)
  | AMBIENT => mkCaps (effective c) (permitted c) (inheritable c) (bounding c) ({[what]} ∪ ambient c)
  end.

(** [specs.LinuxCapabilities]. *)
Record LinuxCapabilities := {
  Bounding : list string;
  Effective : list string;
  Inheritable : list string;
  Permitted : list string;
  Ambient : list string
}.

(** The literal [capMap] of [setCapabilities]: the name list the
    specification contributes to each type.  The inheritable entry is the
    empty list, whatever the specification says. *)
Definition capMap (spec : LinuxCapabilities) (capType : CapType) : list string :=
  match capType with
  | BOUNDING => Bounding spec
  | EFFECTIVE => Effective spec
  | INHERITABLE => []
  | PERMITTED => Permitted spec
  | AMBIENT => Ambient spec
  end.

(** The keep list [runUsingChrootExecMain] passes (lines 244-247). *)
Definition keepCapsFor (uid : Z) : list string :=
  if negb (Z.eqb uid 0) then ["CAP_SETUID"] else [].

(** [capability.Cap(-1)]. *)
Definition noCap : Z := -1.

Section CapabilityLoops.

(** [capability.List()], [Cap.String()] and [strings.EqualFold]. *)
Variable knownCaps : list Z.
Variable capString : Z -> string.
Variable EqualFold : string -> string -> bool.

(** [cap := noCap; for _, c := range knownCaps { if EqualFold(...) { cap = c;
    break } }] followed by the test [cap == noCap]: [None] when the test
    holds, otherwise the capability found. *)
Definition lookupCap (capToSet : string) : option Z :=
  let cap :=
    default noCap
      (find (fun c => EqualFold ("CAP_" ++ capString c) capToSet) knownCaps) in
  if Z.eqb cap noCap then None else Some cap.

Definition mapError (capToSet : string) : error :=
  Errorf ("error mapping capability " ++ capToSet ++ " to a number").

(** The first inner loop: every name of the specification's list is set. *)
Fixpoint setListed (caps : Capabilities) (capType : CapType)
    (capList : list string) : Result Capabilities :=
  match capList with
  | [] => Ok caps
  | capToSet :: rest =>
      match lookupCap capToSet with
      | None => Err (mapError capToSet)
      | Some cap => setListed (capSet caps capType cap) capType rest
      end
  end.

(** The second inner loop: a keep capability is set when the loaded
    capabilities of the current process have it in this type. *)
Fixpoint setKept (currentCaps caps : Capabilities) (capType : CapType)
    (keepCaps : list string) : Result Capabilities :=
  match keepCaps with
  | [] => Ok caps
  | capToSet :: rest =>
      match lookupCap capToSet with
      | None => Err (mapError capToSet)
      | Some cap =>
          setKept currentCaps
            (if capGet currentCaps capType cap then capSet caps capType cap
             else caps)
            capType rest
      end
  end.

(** [for capType, capList := range capMap { ... }]; [order] is the order
    in which the range statement visits the five keys, which Go leaves
    unspecified. *)
Fixpoint capLoop (order : list CapType) (currentCaps caps : Capabilities)
    (spec : LinuxCapabilities) (keepCaps : list string)
  : Result Capabilities :=
  match order with
  | [] => Ok caps
  | capType :: rest =>
      match setListed caps capType (capMap spec capType) with
      | Err e => Err e
      | Ok caps1 =>
          match setKept currentCaps caps1 capType keepCaps with
          | Err e => Err e
          | Ok caps2 => capLoop rest currentCaps caps2 spec keepCaps
          end
      end
  end.

(** The names of a list resolved to numbers, for statements. *)
Definition resolved (names : list string) (c : Z) : Prop :=
  ∃ name, name ∈ names ∧ lookupCap name = Some c.

End CapabilityLoops.

(** The table of the gocapability library on Linux, used to instantiate
    the section variables: numbers 0 to 40 and their names. *)
Definition capNames : list string :=
  [ "chown"; "dac_override"; "dac_read_search"; "fowner"; "fsetid"; "kill";
    "setgid"; "setuid"; "setpcap"; "linux_immutable"; "net_bind_service";
    "net_broadcast"; "net_admin"; "net_raw"; "ipc_lock"; "ipc_owner";
    "sys_module"; "sys_rawio"; "sys_chroot"; "sys_ptrace"; "sys_pacct";
    "sys_admin"; "sys_boot"; "sys_nice"; "sys_resource"; "sys_time";
    "sys_tty_config"; "mknod"; "lease"; "audit_write"; "audit_control";
    "setfcap"; "mac_override"; "mac_admin"; "syslog"; "wake_alarm";
    "block_suspend"; "audit_read"; "perfmon"; "bpf"; "checkpoint_restore" ].

Definition linuxKnownCaps : list Z := seqZ 0 41.

Definition linuxCapString (c : Z) : string :=
  default "unknown" (capNames !! Z.to_nat c).

(** Case-insensitive comparison of ASCII strings, the behaviour of
    [strings.EqualFold] on ASCII text. *)
Definition asciiEqualFold (s t : string) : bool :=
  String.eqb (asciiToUpper s) (asciiToUpper t).

Definition CAP_SETUID : Z := 7.

(** ** Accessibility of a masked directory (lines 828-851) *)

(** [specs.LinuxIDMapping]; the three fields are [uint32]. *)
Record LinuxIDMapping := { ContainerID : Z; HostID : Z; Size : Z }.

(** [id >= mapping.ContainerID && id < mapping.ContainerID+mapping.Size],
    the sum taken in [uint32]. *)
Definition inMapping (id : Z) (mapping : LinuxIDMapping) : bool :=
  (ContainerID mapping <=? id)%Z &&
  (id <? u32 (ContainerID mapping + Size mapping))%Z.

(** [for _, mapping := range mappings { if ... { isAccessible = true; break } }]
    started with [isAccessible] false. *)
Definition anyMapping (id : Z) (mappings : list LinuxIDMapping) : bool :=
  existsb (inMapping id) mappings.

(** The three tests of the source, in its own grouping: Go reads
    [stat.Mode&unix.S_IROTH|unix.S_IXOTH != 0] as
    [((stat.Mode & S_IROTH) | S_IXOTH) != 0], since [&] binds tighter
    than [|] and both bind tighter than [!=]. *)
Definition isAccessible (Mode Uid Gid : Z)
    (UIDMappings GIDMappings : list LinuxIDMapping) : bool :=
  let isAccessible := false in
  let isAccessible :=
    if negb (Z.eqb (Z.lor (Z.land Mode S_IROTH) S_IXOTH) 0) then true
    else isAccessible in
  let isAccessible :=
    if negb isAccessible && negb (Z.eqb (Z.lor (Z.land Mode S_IROTH) S_IXOTH) 0)
    then
      if (0 <? Z.of_nat (List.length GIDMappings))%Z
      then (if anyMapping Gid GIDMappings then true else isAccessible)
      else isAccessible
    else isAccessible in
  let isAccessible :=
    if negb isAccessible && negb (Z.eqb (Z.lor (Z.land Mode S_IRUSR) S_IXUSR) 0)
    then
      if (0 <? Z.of_nat (List.length UIDMappings))%Z
      then (if anyMapping Uid UIDMappings then true else isAccessible)
      else isAccessible
    else isAccessible in
  isAccessible.

(** The accessibility bit as the specification words it: other bits
    unconditionally, group bits against the GID ranges, owner bits against
    the UID ranges. *)
Definition accessibleBySpec (Mode Uid Gid : Z)
    (UIDMappings GIDMappings : list LinuxIDMapping) : bool :=
  negb (Z.eqb (Z.land Mode (Z.lor S_IROTH S_IXOTH)) 0)
  || (negb (Z.eqb (Z.land Mode (Z.lor S_IRGRP S_IXGRP)) 0)
      && anyMapping Gid GIDMappings)
  || (negb (Z.eqb (Z.land Mode (Z.lor S_IRUSR S_IXUSR)) 0)
      && anyMapping Uid UIDMappings).

(** ** The kernel interface

    Every call the source makes to the kernel or to a library that talks
    to it is a constructor of [Call], indexed by the type of its answer. *)

(** [unix.Stat_t], the fields the source reads. *)
Record Stat_t := { Dev : Z; Ino : Z; Mode : Z; Uid : Z; Gid : Z; Rdev : Z }.

(** [unix.Statfs_t], the field the source reads. *)
Record Statfs_t := { Flags : Z }.

(** [os.FileInfo]: [Mode()] in Go's own bit layout and [Sys()]. *)
Record FileInfo := { fi_Mode : Z; fi_Sys : Stat_t }.

Definition ModeDir        : Z := 2147483648.
Definition ModeSymlink    : Z := 134217728.
Definition ModeCharDevice : Z := 2097152.

Definition IsDir (fi : FileInfo) : bool :=
  negb (Z.eqb (Z.land (fi_Mode fi) ModeDir) 0).

(** What [cmd.Wait()] reports about the child. *)
Inductive WaitResult :=
| WaitNil
| WaitExited (status : Z)
| WaitSignaled (signal : Z)
| WaitOtherStatus
| WaitError (e : Errno).

Inductive Call : Type -> Type :=
| Sethostname (name : string) : Call (option Errno)
| UnixStat (path : string) : Call (Errno + Stat_t)
| Chdir (path : string) : Call (option Errno)
| Chroot (path : string) : Call (option Errno)
| Mount (source target fstype : string) (flags : Z) (data : string)
    : Call (option Errno)
| MountHelper (source target fstype options : string) : Call (option Errno)
| Unmount (target : string) (flags : Z) : Call (option Errno)
| Statfs (path : string) : Call (Errno + Statfs_t)
| OsStat (path : string) : Call (Errno + FileInfo)
| OsLstat (path : string) : Call (Errno + FileInfo)
| EvalSymlinks (path : string) : Call (Errno + string)
| CopierEval (root path : string) : Call (Errno + string)
| Mkdir (path : string) (perm : Z) : Call (option Errno)
| MkdirAll (path : string) (perm : Z) : Call (option Errno)
| CreateFile (path : string) (perm : Z) : Call (option Errno)
| OpenDir (path : string) : Call (option Errno)
| Readdirnames (path : string) : Call (Errno + list string)
| GetMounts : Call (list string)
| Sleep (milliseconds : Z) : Call unit
| ApparmorIsEnabled : Call bool
| ApparmorApplyProfile (name : string) : Call (option Errno)
| SetSelinuxLabel : Call (option Errno)
| SetSeccomp : Call (option Errno)
| Getrlimit (resource : Z) : Call (Errno + Rlimit)
| Setrlimit (resource : Z) (desired : Rlimit) : Call (option Errno)
| ReadFile (path : string) : Call string
| Setgroups (gids : list Z) : Call (option Errno)
| Setresgid (rgid egid sgid : Z) : Call (option Errno)
| Setresuid (ruid euid suid : Z) : Call (option Errno)
| CapNewPid2 : Call (option Errno)
| CapLoad : Call (Errno + Capabilities)
| CapApply (caps : Capabilities) : Call (option Errno)
| RunChild (name : string) (arg : list string) (env : list string)
    (dir : string) : Call WaitResult.

(** A call as it appears in the trace. *)
Inductive Event : Type :=
| Ev : forall R : Type, Call R -> Event.
Arguments Ev {R} c.

Definition isMountEvent (e : Event) : bool :=
  match e with
  | Ev (Mount _ _ _ _ _) | Ev (MountHelper _ _ _ _) => true
  | _ => false
  end.

Definition isUnmountEvent (e : Event) : bool :=
  match e with
  | Ev (Unmount _ _) => true
  | _ => false
  end.

Definition isSleepEvent (e : Event) : bool :=
  match e with
  | Ev (Sleep _) => true
  | _ => false
  end.

(** ** The world and the monad that threads it *)

Inductive Outcome (E A : Type) :=
| Done (a : A)
| Fail (e : E).
Arguments Done {E A} a.
Arguments Fail {E A} e.

Section World.

Variable OS : Type.

Record World := mkWorld { os : OS; trace : list Event }.

Definition M (E A : Type) : Type := World -> Outcome E A * World.

Definition ret {E A} (a : A) : M E A := fun w => (Done a, w).

Definition fail {E A} (e : E) : M E A := fun w => (Fail e, w).

Definition bind {E A B} (c : M E A) (k : A -> M E B) : M E B :=
  fun w =>
    match c w with
    | (Done a, w') => k a w'
    | (Fail e, w') => (Fail e, w')
    end.

(** Run [c] and hand its failure, if any, to the caller as a value. *)
Definition attempt {E E' A} (c : M E A) : M E' (Outcome E A) :=
  fun w => let '(o, w') := c w in (Done o, w').

End World.

Arguments mkWorld {OS} os trace.
Arguments os {OS} w.
Arguments trace {OS} w.
Arguments ret {OS E A} a.
Arguments fail {OS E A} e.
Arguments bind {OS E A B} c k.
Arguments attempt {OS E E' A} c.

Notation "'let*' x ':=' c 'in' k" := (bind c (fun x => k))
  (at level 10, x name, c at level 100, k at level 200).
Notation "'let*' ' p ':=' c 'in' k" :=
  (bind c (fun x => match x with p => k end))
  (at level 10, p pattern, c at level 100, k at level 200).
Notation "c ;;; k" := (bind c (fun _ => k))
  (at level 100, k at level 200, right associativity).

(** ** The specification object, as far as the source reads it *)

(** [specs.Mount]. *)
Record MountEntry := {
  Destination : string;
  Type_ : string;
  Source : string;
  Options : list string
}.

(** [specs.User]. *)
Record User := { UID : Z; GID : Z; AdditionalGids : list Z }.

(** [specs.Process]. *)
Record Process := {
  ProcessUser : User;
  Cwd : string;
  Env : list string;
  ProcessCapabilities : LinuxCapabilities;
  Rlimits : list POSIXRlimit;
  ApparmorProfile : string
}.

(** [specs.Spec] with [Root.Path] and the fields of [Linux] inlined. *)
Record Spec := {
  RootPath : string;
  Hostname : string;
  SpecProcess : option Process;
  Mounts : list MountEntry;
  UIDMappings : list LinuxIDMapping;
  GIDMappings : list LinuxIDMapping;
  ReadonlyPaths : list string;
  MaskedPaths : list string
}.

(** What [setupChrootBindMounts] returns on failure: the error, and
    whether the cleanup closure comes with it (one return statement hands
    back [nil] instead). *)
Record SetupFailure := { withUndoBinds : bool; setupError : error }.

(** [os.Exit(code)] after a line on standard error. *)
Record Exit := { exitCode : Z; exitMessage : string }.

Definition os_DevNull : string := "/dev/null".

Section Program.

Context {OS : Type}.

(** The kernel: the answer to a call and the state it leaves. *)
Variable kernel : forall R, Call R -> OS -> R * OS.

(** [filepath.Join] of two elements, [filepath.Dir], [filepath.Clean],
    [filepath.IsAbs], [strings.Trim(s, "\n")] and [strings.ToUpper]. *)
Variable Join : string -> string -> string.
Variable Dir : string -> string.
Variable Clean : string -> string.
Variable IsAbs : string -> bool.
Variable TrimNewlines : string -> string.
Variable ToUpper : string -> string.

(** The capability table and [strings.EqualFold]. *)
Variable knownCaps : list Z.
Variable capString : Z -> string.
Variable EqualFold : string -> string -> bool.

(** The orders in which [range] visits the two maps of the source. *)
Variable capOrder : list CapType.
Variable rangeRlimits : gmap Z Rlimit -> list (Z * Rlimit).

Local Abbreviation M := (@M OS).

(** Perform a call: ask the kernel and append the call to the trace. *)
Definition call {E R} (c : Call R) : M E R :=
  fun w =>
    let '(r, os') := kernel R c (os w) in
    (Done r, mkWorld os' (trace w ++ [Ev c])).

(** [for _, x := range l { body }] where the body either falls through
    (or continues) or returns from the function with an error. *)
Fixpoint forEach {E A} (body : A -> M E unit) (l : list A) : M E unit :=
  match l with
  | [] => ret tt
  | x :: rest => body x ;;; forEach body rest
  end.

(** *** undoBinds (lines 501-517) *)

(** [err2 == unix.EBUSY || err2 == unix.EAGAIN]. *)
Definition busyOrAgain (err2 : option Errno) : bool :=
  match err2 with
  | Some EBUSY | Some EAGAIN => true
  | _ => false
  end.

(** The retry loop; [fuel] bounds the recursion and is never exhausted
    before the loop condition fails when it starts at 50 with
    [retries = 0]. *)
Fixpoint retryUnmount {E} (fuel : nat) (root : string)
    (err2 : option Errno) (retries : Z) : M E (option Errno * Z) :=
  match fuel with
  | O => ret (err2, retries)
  | S fuel' =>
      if busyOrAgain err2 && (retries <? 50)%Z then
        call (Sleep 50) ;;;
        let* err2' := call (Unmount root MNT_DETACH) in
        retryUnmount fuel' root err2' (retries + 1)
      else ret (err2, retries)
  end.

(** The closure.  [err] is the captured result variable of
    [setupChrootBindMounts]; the closure returns it, after storing the
    unmount error in it when it was nil.  The value returned is the new
    content of the variable. *)
Definition undoBinds {E} (root : string) (err : option error)
  : M E (option error) :=
  let* err2 := call (Unmount root MNT_DETACH) in
  match err2 with
  | None => ret err
  | Some _ =>
      let* '(err2, retries) := retryUnmount 50 root err2 0 in
      match err2 with
      | None => ret err
      | Some e2 =>
          match err with
          | None => ret (Some (FromErrno e2))
          | Some _ => ret err
          end
      end
  end.

(** *** makeReadOnly (lines 468-480) *)

Definition makeReadOnly (mntpoint : string) (flags : Z) : M error unit :=
  let* r := call (Statfs mntpoint) in
  match r with
  | inl e =>
      fail (wrapErrno ("error checking if directory " ++ mntpoint
                       ++ " was bound read-only") e)
  | inr fs =>
      if Z.eqb (Z.land (Flags fs) ST_RDONLY) 0 then
        let* r := call (Mount mntpoint mntpoint "bind"
                          (Z.lor flags MS_REMOUNT) EmptyString) in
        match r with
        | Some e =>
            fail (wrapErrno ("error remounting " ++ mntpoint
                             ++ " in mount namespace read-only") e)
        | None => ret tt
        end
      else ret tt
  end.

(** *** isDevNull (lines 482-495) *)

Definition isDevNull {E} (dev : FileInfo) : M E bool :=
  if negb (Z.eqb (Z.land (fi_Mode dev) ModeCharDevice) 0) then
    let* r := call (UnixStat os_DevNull) in
    match r with
    | inl _ => ret false
    | inr nullStat =>
        if Z.eqb (Rdev (fi_Sys dev)) (Rdev nullStat) then ret true
        else ret false
    end
  else ret false.

(** *** setupChrootBindMounts (lines 499-903) *)

Definition failSetup {A} (e : error) : M SetupFailure A :=
  fail {| withUndoBinds := true; setupError := e |}.

(** [if err := f(); err != nil { return undoBinds, err }]. *)
Definition withHandle {A} (c : M error A) : M SetupFailure A :=
  fun w =>
    match c w with
    | (Done a, w') => (Done a, w')
    | (Fail e, w') => (Fail {| withUndoBinds := true; setupError := e |}, w')
    end.

(** The bind of a host directory under the root, retried once after
    creating the mount point; the source has it three times (lines
    529-539, 553-563 and 568-578). *)
Definition bindHostDir (host sub : string) (flags : Z) : M SetupFailure unit :=
  let* r := call (Mount host sub "bind" flags EmptyString) in
  match r with
  | None => ret tt
  | Some err =>
      let* err' :=
        (if isNotExist err then
           let* r := call (Mkdir sub 493) in
           match r with
           | None => call (Mount host sub "bind" flags EmptyString)
           | Some e => ret (Some e)
           end
         else ret (Some err)) in
      match err' with
      | Some e =>
          failSetup (wrapErrno ("error bind mounting " ++ host
                                ++ " from host into mount namespace") e)
      | None => ret tt
      end
  end.

(** Lines 527-549. *)
Definition bindDev (root : string) : M SetupFailure unit :=
  let subDev := Join root "/dev" in
  bindHostDir "/dev" subDev devFlags ;;;
  let* r := call (Statfs subDev) in
  match r with
  | inl e =>
      failSetup (wrapErrno ("error checking if directory " ++ subDev
                            ++ " was bound read-only") e)
  | inr fs =>
      if Z.eqb (Z.land (Flags fs) ST_RDONLY) 0 then
        let* r := call (Mount subDev subDev "bind"
                          (Z.lor devFlags MS_REMOUNT) EmptyString) in
        match r with
        | Some e =>
            failSetup (wrapErrno
              "error remounting /dev in mount namespace read-only" e)
        | None => ret tt
        end
      else ret tt
  end.

(** Lines 551-564. *)
Definition bindProc (root : string) : M SetupFailure unit :=
  bindHostDir "/proc" (Join root "/proc") procFlags.

(** Lines 566-581. *)
Definition bindSys (root : string) : M SetupFailure unit :=
  let subSys := Join root "/sys" in
  bindHostDir "/sys" subSys sysFlags ;;;
  withHandle (makeReadOnly subSys sysFlags).

(** The body of the loop over the host's mounts (lines 584-602). *)
Definition bindSysMount (root Mountpoint : string) : M SetupFailure unit :=
  if negb (HasPrefix Mountpoint "/sys/") && negb (String.eqb Mountpoint "/sys")
  then ret tt
  else
    let subSys := Join root Mountpoint in
    let* r := call (Mount Mountpoint subSys "bind" sysFlags EmptyString) in
    match r with
    | Some _ => ret tt
    | None => withHandle (makeReadOnly subSys sysFlags)
    end.

Definition bindSysMounts (root : string) : M SetupFailure unit :=
  let* mnts := call GetMounts in
  forEach (bindSysMount root) mnts.

(** The [switch m.Destination] of lines 608-622: true when the entry is
    skipped. *)
Definition alreadyMounted (Destination : string) : bool :=
  if String.eqb Destination "/dev" || String.eqb Destination "/proc"
     || String.eqb Destination "/sys"
  then true
  else if HasPrefix Destination "/dev/" then true
  else if HasPrefix Destination "/proc/" then true
  else if HasPrefix Destination "/sys/" then true
  else false.

(** The condition of line 624: true when the entry is skipped. *)
Definition otherType (type : string) : bool :=
  negb (String.eqb type "bind") && negb (String.eqb type "tmpfs")
  && negb (String.eqb type "overlay").

(** Lines 629-643: the source of a bind mount, or the root directory as
    the template of a tmpfs or overlay. *)
Definition examineSource (m : MountEntry) : M SetupFailure FileInfo :=
  if String.eqb (Type_ m) "bind" then
    let* r := call (OsStat (Source m)) in
    match r with
    | inl e =>
        failSetup (wrapErrno ("error examining " ++ Source m
                              ++ " for mounting in mount namespace") e)
    | inr srcinfo => ret srcinfo
    end
  else
    let* r := call (OsStat "/") in
    match r with
    | inl e =>
        failSetup (wrapErrno ("error examining / to use as a template for a "
                              ++ Type_ m) e)
    | inr srcinfo => ret srcinfo
    end.

(** Lines 644-655: the target, with a symlink followed once; the second
    component is the [err] the next block tests. *)
Definition resolveTarget (root : string) (m : MountEntry)
  : M SetupFailure (string * option Errno) :=
  let target := Join root (Destination m) in
  let* r := call (OsLstat target) in
  match r with
  | inl e => ret (target, Some e)
  | inr stat =>
      if negb (Z.eqb (Z.land (fi_Mode stat) ModeSymlink) 0) then
        let* r := call (CopierEval root (Destination m)) in
        match r with
        | inl e =>
            fail {| withUndoBinds := false;
                    setupError := wrapErrno "evaluating symlink" e |}
        | inr target' =>
            let* r := call (OsStat target') in
            match r with
            | inl e => ret (target', Some e)
            | inr _ => ret (target', None)
            end
        end
      else ret (target, None)
  end.

(** Lines 656-676: create the mount point when it is missing. *)
Definition ensureTarget (srcinfo : FileInfo) (target : string)
    (err : option Errno) : M SetupFailure unit :=
  match err with
  | None => ret tt
  | Some e =>
      if negb (isNotExist e) then
        failSetup (wrapErrno ("error examining " ++ target
                              ++ " for mounting in mount namespace") e)
      else if IsDir srcinfo then
        let* r := call (MkdirAll target 493) in
        match r with
        | Some e =>
            failSetup (wrapErrno ("error creating mountpoint " ++ target
                                  ++ " in mount namespace") e)
        | None => ret tt
        end
      else
        let* r := call (MkdirAll (Dir target) 493) in
        match r with
        | Some e =>
            failSetup (wrapErrno ("error ensuring parent of mountpoint "
                                  ++ target ++ " is present in mount namespace") e)
        | None =>
            let* r := call (CreateFile target 493) in
            match r with
            | Some e =>
                failSetup (wrapErrno ("error creating mountpoint " ++ target
                                      ++ " in mount namespace") e)
            | None => ret tt
            end
        end
  end.

(** Lines 707-727: the mount itself, by type. *)
Definition doMount (m : MountEntry) (target : string) (requestFlags : Z)
  : M SetupFailure unit :=
  if String.eqb (Type_ m) "bind" then
    let* r := call (Mount (Source m) target EmptyString requestFlags EmptyString) in
    match r with
    | Some e =>
        failSetup (wrapErrno ("error bind mounting " ++ Source m
                              ++ " from host to " ++ Destination m
                              ++ " in mount namespace") e)
    | None => ret tt
    end
  else if String.eqb (Type_ m) "tmpfs" then
    let* r := call (MountHelper (Source m) target (Type_ m)
                      (String.concat "," (Options m ++ ["private"]))) in
    match r with
    | Some e =>
        failSetup (wrapErrno ("error mounting tmpfs to " ++ Destination m
                              ++ " in mount namespace") e)
    | None => ret tt
    end
  else if String.eqb (Type_ m) "overlay" then
    let* r := call (MountHelper (Source m) target (Type_ m)
                      (String.concat "," (Options m ++ ["private"]))) in
    match r with
    | Some e =>
        failSetup (wrapErrno ("error mounting overlay to " ++ Destination m
                              ++ " in mount namespace") e)
    | None => ret tt
    end
  else ret tt.

(** Lines 728-735: remount when the flags the kernel reports lack an
    expected one. *)
Definition checkFlags (target : string) (requestFlags expectedFlags : Z)
  : M SetupFailure unit :=
  let* r := call (Statfs target) in
  match r with
  | inl e =>
      failSetup (wrapErrno ("error checking if directory " ++ target
                            ++ " was bound read-only") e)
  | inr fs =>
      if negb (Z.eqb (Z.land (Flags fs) expectedFlags) expectedFlags) then
        let* r := call (Mount target target "bind"
                          (Z.lor requestFlags MS_REMOUNT) EmptyString) in
        match r with
        | Some e =>
            failSetup (wrapErrno ("error remounting " ++ target
              ++ " in mount namespace with expected flags") e)
        | None => ret tt
        end
      else ret tt
  end.

(** The body of the loop over [spec.Mounts] (lines 606-736). *)
Definition mountOne (root : string) (m : MountEntry) : M SetupFailure unit :=
  if alreadyMounted (Destination m) then ret tt
  else if otherType (Type_ m) then ret tt
  else
    let* srcinfo := examineSource m in
    let* '(target, err) := resolveTarget root m in
    ensureTarget srcinfo target err ;;;
    let '(requestFlags, expectedFlags) := MountFlags.mountFlags (Options m) in
    doMount m target requestFlags ;;;
    checkFlags target requestFlags expectedFlags.

Definition mountAll (root : string) (mounts : list MountEntry)
  : M SetupFailure unit :=
  forEach (mountOne root) mounts.
(** [roFlags] of line 763. *)
Definition roPathFlags : Z :=
  Z.lor (Z.lor (Z.lor MS_NODEV MS_NOEXEC) MS_NOSUID) MS_RDONLY.

(** Lines 762-786: bind the location over itself, remount it read-only
    and check twice. *)
Definition remountReadOnly (target : string) : M SetupFailure unit :=
  let* r := call (Mount target target EmptyString
                    (Z.lor (Z.lor roPathFlags MS_BIND) MS_REC) EmptyString) in
  match r with
  | Some e =>
      if isNotExist e then ret tt
      else failSetup (wrapErrno ("error bind mounting " ++ target
             ++ " onto itself in preparation for making it read-only") e)
  | None =>
      let* r := call (Statfs target) in
      match r with
      | inl e =>
          failSetup (wrapErrno ("error checking if directory " ++ target
                                ++ " was bound read-only") e)
      | inr fs =>
          (if Z.eqb (Z.land (Flags fs) ST_RDONLY) 0 then
             let* r := call (Mount target target EmptyString
                               (Z.lor (Z.lor roPathFlags MS_BIND) MS_REMOUNT) EmptyString) in
             match r with
             | Some e =>
                 failSetup (wrapErrno ("error remounting " ++ target
                                       ++ " in mount namespace read-only") e)
             | None => ret tt
             end
           else ret tt) ;;;
          let* r := call (Statfs target) in
          match r with
          | inl e =>
              failSetup (wrapErrno ("error checking if directory " ++ target
                                    ++ " was remounted read-only") e)
          | inr fs =>
              if Z.eqb (Z.land (Flags fs) ST_RDONLY) 0 then
                failSetup (Errorf ("error verifying that " ++ target
                  ++ " in mount namespace was remounted read-only"))
              else ret tt
          end
      end
  end.

(** The body of the loop over [spec.Linux.ReadonlyPaths] (lines
    740-787). *)
Definition readOnlyOne (root roPath : string) : M SetupFailure unit :=
  let r := Join root roPath in
  let* res := call (EvalSymlinks r) in
  match res with
  | inl e =>
      if isNotExist e then ret tt
      else failSetup (wrapErrno ("error checking " ++ r
             ++ " for symlinks before marking it read-only") e)
  | inr target =>
      let* res := call (Statfs target) in
      match res with
      | inl e =>
          if isNotExist e then ret tt
          else failSetup (wrapErrno ("error checking if directory " ++ target
                                     ++ " is already read-only") e)
      | inr fs =>
          if negb (Z.eqb (Z.land (Flags fs) ST_RDONLY) 0) then ret tt
          else remountReadOnly target
      end
  end.

Definition readOnlyAll (root : string) (paths : list string)
  : M SetupFailure unit :=
  forEach (readOnlyOne root) paths.

(** [roFlags] of line 879. *)
Definition maskDirFlags : Z :=
  Z.lor (Z.lor (Z.lor (Z.lor MS_BIND MS_NOSUID) MS_NODEV) MS_NOEXEC) MS_RDONLY.

(** The flags of the null-device bind of line 896. *)
Definition maskFileFlags : Z := Z.lor (Z.lor MS_BIND MS_RDONLY) MS_PRIVATE.

(** Lines 853-877: whether the directory has an entry other than [.]
    and [..]; a directory that may not be opened counts as empty. *)
Definition examineContent (target : string) : M SetupFailure bool :=
  let* r := call (OpenDir target) in
  match r with
  | Some e =>
      if negb (isPermission e) then
        failSetup (wrapErrno ("error opening directory " ++ target) e)
      else ret false
  | None =>
      let* r := call (Readdirnames target) in
      match r with
      | inl e =>
          failSetup (wrapErrno ("error reading contents of directory "
                                ++ target) e)
      | inr names =>
          ret (existsb (fun name =>
                 negb (String.eqb name "." || String.eqb name "..")) names)
      end
  end.

(** Lines 817-877: the three facts about a masked directory, in the
    order [(isReadOnly, hasContent, isAccessible)]. *)
Definition examineDir (spec : Spec) (target : string)
  : M SetupFailure (bool * bool * bool) :=
  let* r := call (Statfs target) in
  match r with
  | inl e =>
      failSetup (wrapErrno ("error checking if directory " ++ target
                            ++ " is a mountpoint") e)
  | inr statfs =>
      let isReadOnly := negb (Z.eqb (Z.land (Flags statfs) MS_RDONLY) 0) in
      let* r := call (UnixStat target) in
      match r with
      | inl e =>
          failSetup (wrapErrno ("error checking permissions on directory "
                                ++ target) e)
      | inr stat =>
          let accessible :=
            isAccessible (Mode stat) (Uid stat) (Gid stat)
              (UIDMappings spec) (GIDMappings spec) in
          let* hasContent := examineContent target in
          ret (isReadOnly, hasContent, accessible)
      end
  end.

(** Lines 879-892: the overmount of a masked directory. *)
Definition maskDir (roEmptyDir target : string)
    (isReadOnly hasContent accessible : bool) : M SetupFailure unit :=
  if negb isReadOnly || (hasContent && accessible) then
    let* r := call (Mount roEmptyDir target "bind" maskDirFlags EmptyString) in
    match r with
    | Some e =>
        failSetup (wrapErrno ("error masking directory " ++ target
                              ++ " in mount namespace") e)
    | None =>
        let* r := call (Statfs target) in
        match r with
        | inl e =>
            failSetup (wrapErrno ("error checking if directory " ++ target
              ++ " was mounted read-only in mount namespace") e)
        | inr fs =>
            if Z.eqb (Z.land (Flags fs) ST_RDONLY) 0 then
              let* r := call (Mount target target EmptyString
                                (Z.lor maskDirFlags MS_REMOUNT) EmptyString) in
              match r with
              | Some e =>
                  failSetup (wrapErrno ("error making sure directory "
                    ++ target ++ " in mount namespace is read only") e)
              | None => ret tt
              end
            else ret tt
        end
    end
  else ret tt.

(** Lines 893-900: the null device over anything that is not a directory
    and not the null device already. *)
Definition maskFile (targetinfo : FileInfo) (target : string)
  : M SetupFailure unit :=
  let* null := isDevNull targetinfo in
  if negb null then
    let* r := call (Mount os_DevNull target EmptyString maskFileFlags EmptyString) in
    match r with
    | Some e =>
        failSetup (wrapErrno ("error masking non-directory " ++ target
                              ++ " in mount namespace") e)
    | None => ret tt
    end
  else ret tt.

(** The body of the loop over [spec.Linux.MaskedPaths] (lines 801-901). *)
Definition maskOne (spec : Spec) (roEmptyDir masked : string)
  : M SetupFailure unit :=
  let t := Join (RootPath spec) masked in
  let* r := call (EvalSymlinks t) in
  let target := match r with inl _ => t | inr target => target end in
  let* r := call (OsStat target) in
  match r with
  | inl e =>
      if isNotExist e then ret tt
      else failSetup (wrapErrno ("error examining " ++ target
                                 ++ " for masking in mount namespace") e)
  | inr targetinfo =>
      if IsDir targetinfo then
        let* '(isReadOnly, hasContent, accessible) := examineDir spec target in
        maskDir roEmptyDir target isReadOnly hasContent accessible
      else maskFile targetinfo target
  end.

(** Lines 789-901. *)
Definition maskAll (spec : Spec) (bundlePath : string) : M SetupFailure unit :=
  let roEmptyDir := Join bundlePath "empty" in
  (if (0 <? Z.of_nat (List.length (MaskedPaths spec)))%Z then
     let* r := call (Mkdir roEmptyDir 448) in
     match r with
     | Some e =>
         failSetup (wrapErrno ("error creating empty directory "
                               ++ roEmptyDir) e)
     | None => ret tt
     end
   else ret tt) ;;;
  forEach (maskOne spec roEmptyDir) (MaskedPaths spec).

Definition setupChrootBindMounts (spec : Spec) (bundlePath : string)
  : M SetupFailure unit :=
  bindDev (RootPath spec) ;;;
  bindProc (RootPath spec) ;;;
  bindSys (RootPath spec) ;;;
  bindSysMounts (RootPath spec) ;;;
  mountAll (RootPath spec) (Mounts spec) ;;;
  readOnlyAll (RootPath spec) (ReadonlyPaths spec) ;;;
  maskAll spec bundlePath.

(** *** setApparmorProfile, setCapabilities, setRlimits *)

Definition setApparmorProfile (process : Process) : M error unit :=
  let* enabled := call ApparmorIsEnabled in
  if negb enabled || String.eqb (ApparmorProfile process) EmptyString then ret tt
  else
    let* r := call (ApparmorApplyProfile (ApparmorProfile process)) in
    match r with
    | Some e =>
        fail (wrapErrno ("error setting apparmor profile to "
                         ++ ApparmorProfile process) e)
    | None => ret tt
    end.

Definition setCapabilities (process : Process) (keepCaps : list string)
  : M error unit :=
  let* r := call CapNewPid2 in
  match r with
  | Some e =>
      fail (wrapErrno "error reading capabilities of current process" e)
  | None =>
      let* r := call CapLoad in
      match r with
      | inl e => fail (wrapErrno "error loading capabilities" e)
      | inr currentCaps =>
          let* r := call CapNewPid2 in
          match r with
          | Some e =>
              fail (wrapErrno
                      "error reading capabilities of current process" e)
          | None =>
              match capLoop knownCaps capString EqualFold capOrder
                      currentCaps emptyCaps (ProcessCapabilities process)
                      keepCaps with
              | Err e => fail e
              | Ok caps =>
                  let* r := call (CapApply caps) in
                  match r with
                  | Some e => fail (wrapErrno "error setting capabilities" e)
                  | None => ret tt
                  end
              end
          end
      end
  end.

(** The body of the loop of [setRlimits] (lines 448-464). *)
Definition setRlimit (onlyLower onlyRaise : bool) (entry : Z * Rlimit)
  : M error unit :=
  let '(resource, desired) := entry in
  let* r := call (Getrlimit resource) in
  match r with
  | inl e => fail (wrapErrno "error reading limit" e)
  | inr current =>
      if (Max current <? Max desired)%Z && onlyLower then ret tt
      else if (Max desired <? Max current)%Z && onlyRaise then ret tt
      else
        let* r := call (Setrlimit resource desired) in
        match r with
        | Some e => fail (wrapErrno "error setting limit" e)
        | None => ret tt
        end
  end.

Definition setRlimits (spec : Spec) (onlyLower onlyRaise : bool)
  : M error unit :=
  match parseRlimits ToUpper (Rlimits <$> SpecProcess spec) with
  | Err e => fail e
  | Ok limits => forEach (setRlimit onlyLower onlyRaise) (rangeRlimits limits)
  end.
(** *** runUsingChrootExecMain (lines 102-298), from the decoded options on *)

(** [fmt.Fprintf(os.Stderr, ...); os.Exit(1)]. *)
Definition die {A} (message : string) : M Exit A :=
  fail {| exitCode := 1; exitMessage := message |}.

(** A call whose error is fatal. *)
Definition must (c : Call (option Errno)) (message : string) : M Exit unit :=
  let* r := call c in
  match r with
  | Some _ => die message
  | None => ret tt
  end.

(** A function of this file whose error is fatal. *)
Definition mustRun (c : M error unit) (message : string) : M Exit unit :=
  let* r := attempt c in
  match r with
  | Fail _ => die message
  | Done _ => ret tt
  end.

(** Lines 137-141: a failure to set the host name is only logged. *)
Definition setHostname (spec : Spec) : M Exit unit :=
  if negb (String.eqb (Hostname spec) EmptyString) then
    call (Sethostname (Hostname spec)) ;;; ret tt
  else ret tt.

(** Lines 143-166: enter the root and check that it is the directory
    that was examined. *)
Definition enterChroot (root : string) : M Exit unit :=
  let* r := call (UnixStat root) in
  match r with
  | inl _ => die "error stat()ing intended root directory"
  | inr oldst =>
      must (Chdir root) "error chdir()ing to intended root directory" ;;;
      must (Chroot root) "error chroot()ing into directory" ;;;
      let* r := call (UnixStat "/") in
      match r with
      | inl _ => die "error stat()ing current root directory"
      | inr newst =>
          if negb (Z.eqb (Dev oldst) (Dev newst))
             || negb (Z.eqb (Ino oldst) (Ino newst))
          then die "unknown error chroot()ing into directory"
          else ret tt
      end
  end.

(** Lines 209-230. *)
Definition dropGroups (user : User) : M Exit unit :=
  if (0 <? Z.of_nat (List.length (AdditionalGids user)))%Z then
    must (Setgroups (AdditionalGids user))
      "error setting supplemental groups list"
  else
    let* setgroups := call (ReadFile "/proc/self/setgroups") in
    if negb (String.eqb (TrimNewlines setgroups) "deny") then
      must (Setgroups []) "error clearing supplemental groups list"
    else ret tt.

(** A run-time panic that nothing recovers: the Go runtime prints the
    message and the process exits with status 2. *)
Definition panic {A} (message : string) : M Exit A :=
  fail {| exitCode := 2; exitMessage := message |}.

(** Lines 259-297: start the command, relay signals, wait, and turn the
    wait status into the exit status.  [args] is [os.Args[1:]] (line
    103); the command is [args[0]] with the arguments [args[1:]], and
    indexing an empty [args] panics. *)
Definition runCommand (args : list string) (process : Process) (cwd : string)
  : M Exit unit :=
  match args with
  | [] => panic "index out of range [0] with length 0"
  | name :: arg =>
      let* status := call (RunChild name arg (Env process) cwd) in
      match status with
      | WaitNil => ret tt
      | WaitExited code =>
          fail {| exitCode := code;
                  exitMessage := "subprocess exited with status" |}
      | WaitSignaled _ => die "subprocess exited on signal"
      | WaitOtherStatus => die "process exited with error"
      | WaitError _ => die "process exited with error"
      end
  end.

(** Lines 168-257: everything between the chroot check and the launch. *)
Definition afterChroot (spec : Spec) (process : Process) : M Exit string :=
  mustRun (setApparmorProfile process)
    "error setting apparmor profile for process" ;;;
  must SetSelinuxLabel "error setting SELinux label for process" ;;;
  mustRun (setRlimits spec false false)
    "error setting process resource limits for process" ;;;
  let cwd := Cwd process in
  let cwd := if negb (IsAbs cwd) then "/" ++ cwd else cwd in
  let cwd := Clean cwd in
  must (Chdir "/") "error chdir()ing into new root directory" ;;;
  must (Chdir cwd) "error chdir()ing into directory under root" ;;;
  let user := ProcessUser process in
  dropGroups user ;;;
  must (Setresgid (GID user) (GID user) (GID user)) "error setting GID" ;;;
  must SetSeccomp "error setting seccomp filter for process" ;;;
  mustRun (setCapabilities process (keepCapsFor (UID user)))
    "error setting capabilities for process" ;;;
  must (Setresuid (UID user) (UID user) (UID user)) "error setting UID" ;;;
  ret cwd.

(** [args] is [os.Args[1:]] and [options] is [options.Spec], [None] when
    it is nil. *)
Definition runUsingChrootExecMain (args : list string) (options : option Spec)
  : M Exit unit :=
  match options with
  | None => die "invalid options spec passed in"
  | Some spec =>
      match SpecProcess spec with
      | None => die "invalid options spec passed in"
      | Some process =>
          setHostname spec ;;;
          enterChroot (RootPath spec) ;;;
          let* cwd := afterChroot spec process in
          runCommand args process cwd
      end
  end.

End Program.

(** ** Vocabulary of the statements *)

(** The answer of the kernel to a call in a state, and the state after. *)
Definition answer {OS} (kernel : forall R, Call R -> OS -> R * OS)
    {R} (c : Call R) (s : OS) : R := fst (kernel R c s).

Definition after {OS} (kernel : forall R, Call R -> OS -> R * OS)
    {R} (c : Call R) (s : OS) : OS := snd (kernel R c s).

(** The world after a call: the state the kernel leaves and the trace
    with the call appended. *)
Definition afterCall {OS} (kernel : forall R, Call R -> OS -> R * OS)
    {R} (c : Call R) (w : World OS) : World OS :=
  mkWorld (after kernel c (os w)) (trace w ++ [Ev c]).

(** The answers the kernel gives to [n] retries of the unmount of [root],
    each after a sleep of 50ms, from state [s]. *)
Fixpoint retryAnswers {OS} (kernel : forall R, Call R -> OS -> R * OS)
    (root : string) (n : nat) (s : OS) : list (option Errno) :=
  match n with
  | O => []
  | S n' =>
      let s1 := after kernel (Sleep 50) s in
      answer kernel (Unmount root MNT_DETACH) s1
      :: retryAnswers kernel root n' (after kernel (Unmount root MNT_DETACH) s1)
  end.

(** The answers to the first attempt and to [n] retries. *)
Definition unmountAnswers {OS} (kernel : forall R, Call R -> OS -> R * OS)
    (root : string) (n : nat) (s : OS) : list (option Errno) :=
  answer kernel (Unmount root MNT_DETACH) s
  :: retryAnswers kernel root n (after kernel (Unmount root MNT_DETACH) s).

(** The events of [n] retries. *)
Fixpoint retryEvents (root : string) (n : nat) : list Event :=
  match n with
  | O => []
  | S n' => Ev (Sleep 50) :: Ev (Unmount root MNT_DETACH) :: retryEvents root n'
  end.

(** What the closure returns when the last attempt answered [a] and the
    captured variable held [err]. *)
Definition undoResult (err : option error) (a : option Errno) : option error :=
  match a with
  | None => err
  | Some e2 => match err with None => Some (FromErrno e2) | Some _ => err end
  end.

(** The option tokens seen as a state of the four axes: a flag word is a
    base (the bits outside the axes) plus one bit per axis. *)
Definition encodeAxes (base : Z) (f : MountFlags.Axis -> bool) : Z :=
  base + (if f MountFlags.AxRo then 1 else 0)
       + (if f MountFlags.AxSuid then 2 else 0)
       + (if f MountFlags.AxDev then 4 else 0)
       + (if f MountFlags.AxExec then 8 else 0).

(** The effect of one token on the axes. *)
Definition applyToken (o : string) (f : MountFlags.Axis -> bool)
    (a : MountFlags.Axis) : bool :=
  if String.eqb o (MountFlags.setToken a) then true
  else if String.eqb o (MountFlags.clearToken a) then false
  else f a.

(** The axes after a whole list: the last token of the axis, or the
    initial value when the list has none. *)
Definition finalAxes (f : MountFlags.Axis -> bool) (options : list string)
    (a : MountFlags.Axis) : bool :=
  match MountFlags.lastToken a options with
  | Some b => b
  | None => f a
  end.

(** The axes of [bindFlags] and of zero. *)
Definition bindAxes (a : MountFlags.Axis) : bool :=
  match a with MountFlags.AxDev => true | _ => false end.

Definition noAxes (a : MountFlags.Axis) : bool := false.

(** The destinations the dedicated steps cover: the three directories and
    everything below them. *)
Definition underFixedMount (Destination : string) : Prop :=
  Destination = "/dev" \/ Destination = "/proc" \/ Destination = "/sys"
  \/ (exists rest, Destination = "/dev/" ++ rest)
  \/ (exists rest, Destination = "/proc/" ++ rest)
  \/ (exists rest, Destination = "/sys/" ++ rest).

(** The types the generic loop mounts. *)
Definition mountableType (type : string) : Prop :=
  type = "bind" \/ type = "tmpfs" \/ type = "overlay".

(** An entry that passes both filters of the loop. *)
Definition passesFilters (m : MountEntry) : bool :=
  negb (alreadyMounted (Destination m)) && negb (otherType (Type_ m)).

(** A read-only path needs nothing in state [s]: it does not resolve, or
    its file system is gone, or the file system is read-only. *)
Definition settled {OS} (kernel : forall R, Call R -> OS -> R * OS)
    (Join : string -> string -> string) (root : string) (s : OS)
    (roPath : string) : Prop :=
  match answer kernel (EvalSymlinks (Join root roPath)) s with
  | inl e => isNotExist e = true
  | inr target =>
      match answer kernel (Statfs target)
              (after kernel (EvalSymlinks (Join root roPath)) s) with
      | inl e => isNotExist e = true
      | inr fs => Z.land (Flags fs) ST_RDONLY <> 0
      end
  end.

(** Looking does not change the state of the kernel. *)
Definition quietQueries {OS} (kernel : forall R, Call R -> OS -> R * OS) : Prop :=
  forall (path : string) (s : OS),
    after kernel (EvalSymlinks path) s = s /\ after kernel (Statfs path) s = s.

(** Nothing but the calls of the program changes the mount table: a mount
    call leaves path resolution as it was, keeps read-only what was
    read-only and missing what was missing, and does not miss a target
    the file-system query has just seen. *)
Record steadyMounts {OS} (kernel : forall R, Call R -> OS -> R * OS) : Prop := {
  steady_resolve :
    forall source target fstype flags data path (s : OS),
      answer kernel (EvalSymlinks path)
        (after kernel (Mount source target fstype flags data) s)
      = answer kernel (EvalSymlinks path) s;
  steady_statfs :
    forall source target fstype flags data path (s : OS),
      match answer kernel (Statfs path) s with
      | inl e =>
          isNotExist e = true ->
          answer kernel (Statfs path)
            (after kernel (Mount source target fstype flags data) s) = inl e
      | inr fs =>
          Z.land (Flags fs) ST_RDONLY <> 0 ->
          exists fs',
            answer kernel (Statfs path)
              (after kernel (Mount source target fstype flags data) s) = inr fs'
            /\ Z.land (Flags fs') ST_RDONLY <> 0
      end;
  steady_target :
    forall target flags fs (s : OS),
      answer kernel (Statfs target) s = inr fs ->
      answer kernel (Mount target target EmptyString flags EmptyString) s <> Some ENOENT
}.

(** State [s'] comes from state [s] by mount calls alone. *)
Inductive mountedFrom {OS} (kernel : forall R, Call R -> OS -> R * OS)
    (s : OS) : OS -> Prop :=
| mounted_refl : mountedFrom kernel s s
| mounted_step s' source target fstype flags data :
    mountedFrom kernel s s' ->
    mountedFrom kernel s
      (after kernel (Mount source target fstype flags data) s').

(** The capability objects applied in a trace, and the limits set. *)
Fixpoint appliedCaps (events : list Event) : list Capabilities :=
  match events with
  | [] => []
  | Ev (CapApply caps) :: rest => caps :: appliedCaps rest
  | _ :: rest => appliedCaps rest
  end.

Fixpoint appliedLimits (events : list Event) : list (Z * Rlimit) :=
  match events with
  | [] => []
  | Ev (Setrlimit resource desired) :: rest =>
      (resource, desired) :: appliedLimits rest
  | _ :: rest => appliedLimits rest
  end.

(** The target is the null device as [isDevNull] sees it in state [s]: a
    character device whose device number is that of /dev/null. *)
Definition isNullDevice {OS} (kernel : forall R, Call R -> OS -> R * OS)
    (targetinfo : FileInfo) (s : OS) : bool :=
  negb (Z.eqb (Z.land (fi_Mode targetinfo) ModeCharDevice) 0)
  && match answer kernel (UnixStat os_DevNull) s with
     | inl _ => false
     | inr nullStat => Z.eqb (Rdev (fi_Sys targetinfo)) (Rdev nullStat)
     end.

(** What the parser reads of a limit entry: the upper-cased name and the
    two numbers. *)
Definition upperKey (ToUpper : string -> string) (limit : POSIXRlimit)
  : string * Z * Z :=
  (ToUpper (rl_Type limit), rl_Soft limit, rl_Hard limit).

(** ** A small kernel to run the programs on

    Its state scripts the answers to the unmount calls and records which
    paths are on a read-only file system, which are regular files, which
    directories have entries, what the current process holds as
    capabilities, and whether the root is swapped under the chroot call.
    Every other call succeeds. *)

Record Toy := {
  toy_unmounts : list (option Errno);
  toy_readonly : list string;
  toy_files : list string;
  toy_nonempty : list string;
  toy_caps : Capabilities;
  toy_chroot : option string;
  toy_swapped : bool
}.

Definition inList (p : string) (l : list string) : bool :=
  existsb (String.eqb p) l.

(** The identity the toy kernel reports for a path. *)
Definition toyStat (s : Toy) (path : string) : Stat_t :=
  let seen :=
    if String.eqb path "/" then
      match toy_chroot s with
      | Some r => if toy_swapped s then r ++ "'" else r
      | None => "/"
      end
    else path in
  {| Dev := 1; Ino := Z.of_nat (String.length seen); Mode := 16877;
     Uid := 0; Gid := 0;
     Rdev := if String.eqb path os_DevNull then 259 else 0 |}.

Definition toyFileInfo (s : Toy) (path : string) : FileInfo :=
  {| fi_Mode :=
       if String.eqb path os_DevNull then ModeCharDevice
       else if inList path (toy_files s) then 420
       else Z.lor ModeDir 493;
     fi_Sys := toyStat s path |}.

Definition toyKernel : forall R, Call R -> Toy -> R * Toy :=
  fun R c s =>
    match c in Call R return R * Toy with
    | Sethostname _ => (None, s)
    | UnixStat path => (inr (toyStat s path), s)
    | Chdir _ => (None, s)
    | Chroot path =>
        (None,
         {| toy_unmounts := toy_unmounts s; toy_readonly := toy_readonly s;
            toy_files := toy_files s; toy_nonempty := toy_nonempty s;
            toy_caps := toy_caps s; toy_chroot := Some path;
            toy_swapped := toy_swapped s |})
    | Mount _ target _ flags _ =>
        (None,
         if negb (Z.eqb (Z.land flags MS_RDONLY) 0) then
           {| toy_unmounts := toy_unmounts s;
              toy_readonly := target :: toy_readonly s;
              toy_files := toy_files s; toy_nonempty := toy_nonempty s;
              toy_caps := toy_caps s; toy_chroot := toy_chroot s;
              toy_swapped := toy_swapped s |}
         else s)
    | MountHelper _ _ _ _ => (None, s)
    | Unmount _ _ =>
        (match toy_unmounts s with a :: _ => a | [] => None end,
         {| toy_unmounts := tail (toy_unmounts s);
            toy_readonly := toy_readonly s;
            toy_files := toy_files s; toy_nonempty := toy_nonempty s;
            toy_caps := toy_caps s; toy_chroot := toy_chroot s;
            toy_swapped := toy_swapped s |})
    | Statfs path =>
        (inr {| Flags := if inList path (toy_readonly s) then ST_RDONLY else 0 |},
         s)
    | OsStat path => (inr (toyFileInfo s path), s)
    | OsLstat path => (inr (toyFileInfo s path), s)
    | EvalSymlinks path => (inr path, s)
    | CopierEval root path => (inr (root ++ path), s)
    | Mkdir _ _ => (None, s)
    | MkdirAll _ _ => (None, s)
    | CreateFile _ _ => (None, s)
    | OpenDir _ => (None, s)
    | Readdirnames path =>
        (inr (if inList path (toy_nonempty s) then ["."; ".."; "kcore"]
              else ["."; ".."]), s)
    | GetMounts => (["/"; "/sys"; "/sys/fs/cgroup"], s)
    | Sleep _ => (tt, s)
    | ApparmorIsEnabled => (false, s)
    | ApparmorApplyProfile _ => (None, s)
    | SetSelinuxLabel => (None, s)
    | SetSeccomp => (None, s)
    | Getrlimit _ => (inr {| Cur := 1024; Max := 4096 |}, s)
    | Setrlimit _ _ => (None, s)
    | ReadFile _ => ("allow", s)
    | Setgroups _ => (None, s)
    | Setresgid _ _ _ => (None, s)
    | Setresuid _ _ _ => (None, s)
    | CapNewPid2 => (None, s)
    | CapLoad => (inr (toy_caps s), s)
    | CapApply _ => (None, s)
    | RunChild _ _ _ _ => (WaitNil, s)
    end.

Definition toyState : Toy :=
  {| toy_unmounts := []; toy_readonly := []; toy_files := [];
     toy_nonempty := []; toy_caps := emptyCaps; toy_chroot := None;
     toy_swapped := false |}.

(** Path joining by concatenation, enough for the toy runs. *)
Definition toyJoin (a b : string) : string := a ++ b.

(** The visiting order of the capability types used in the toy runs. *)
Definition toyCapOrder : list CapType :=
  [BOUNDING; EFFECTIVE; INHERITABLE; PERMITTED; AMBIENT].

(** The kernel answers the first three unmount attempts with [EBUSY]. *)
Definition busyThrice : Toy :=
  {| toy_unmounts := [Some EBUSY; Some EBUSY; Some EBUSY; None];
     toy_readonly := []; toy_files := []; toy_nonempty := [];
     toy_caps := emptyCaps; toy_chroot := None; toy_swapped := false |}.

(** The root is swapped between the examination and the chroot call. *)
Definition swappedRoot : Toy :=
  {| toy_unmounts := []; toy_readonly := []; toy_files := [];
     toy_nonempty := []; toy_caps := emptyCaps; toy_chroot := None;
     toy_swapped := true |}.

(** A specification for the toy runs. *)
Definition toyProcess : Process :=
  {| ProcessUser := {| UID := 1000; GID := 1000; AdditionalGids := [] |};
     Cwd := "/"; Env := [];
     ProcessCapabilities :=
       {| Bounding := ["CAP_NET_BIND_SERVICE"]; Effective := [];
          Inheritable := []; Permitted := []; Ambient := [] |};
     Rlimits := [ {| rl_Type := "rlimit_nofile"; rl_Hard := 2048; rl_Soft := 1024 |} ];
     ApparmorProfile := EmptyString |}.

Definition toySpec : Spec :=
  {| RootPath := "/rootfs"; Hostname := "box"; SpecProcess := Some toyProcess;
     Mounts :=
       [ {| Destination := "/dev/shm"; Type_ := "tmpfs"; Source := "shm";
            Options := ["nosuid"; "noexec"] |};
         {| Destination := "/sys/fs/cgroup"; Type_ := "cgroup"; Source := "cgroup";
            Options := [] |};
         {| Destination := "/data"; Type_ := "bind"; Source := "/srv/data";
            Options := ["ro"] |} ];
     UIDMappings := []; GIDMappings := [];
     ReadonlyPaths := ["/proc/sys"; "/proc/bus"];
     MaskedPaths := ["/proc/kcore"] |}.

(** The main function on the toy kernel. *)
Definition toyMain (options : option Spec) : M Toy Exit unit :=
  runUsingChrootExecMain toyKernel id (fun _ => true) id asciiToUpper
    linuxKnownCaps linuxCapString asciiEqualFold toyCapOrder map_to_list
    ["/bin/sh"; "-c"; "true"] options.

(** The masked path of the toy specification is a regular file. *)
Definition withKcoreFile : Toy :=
  {| toy_unmounts := []; toy_readonly := [];
     toy_files := ["/rootfs/proc/kcore"]; toy_nonempty := [];
     toy_caps := emptyCaps; toy_chroot := None; toy_swapped := false |}.

(** The current process holds CAP_SETUID in every set, the inheritable
    one included. *)
Definition withSetuid : Toy :=
  {| toy_unmounts := []; toy_readonly := []; toy_files := [];
     toy_nonempty := [];
     toy_caps := mkCaps {[CAP_SETUID]} {[CAP_SETUID]} {[CAP_SETUID]}
                        {[CAP_SETUID]} {[CAP_SETUID]};
     toy_chroot := None; toy_swapped := false |}.

(** Two entries for the same resource, spelled in different case. *)
Definition twoNofile : list POSIXRlimit :=
  [ {| rl_Type := "rlimit_nofile"; rl_Hard := 2048; rl_Soft := 1024 |};
    {| rl_Type := "RLIMIT_NOFILE"; rl_Hard := 8192; rl_Soft := 4096 |} ].

(** ** setPlatformUnshareOptions (lines 60-97) *)

Definition CLONE_NEWNS   : Z := 131072.
Definition CLONE_NEWUTS  : Z := 67108864.
Definition CLONE_NEWUSER : Z := 268435456.

(** [specs.LinuxNamespace]; the type is one of the strings below. *)
Record LinuxNamespace := { ns_Type : string; ns_Path : string }.

Definition PIDNamespace     : string := "pid".
Definition NetworkNamespace : string := "network".
Definition MountNamespace   : string := "mount".
Definition IPCNamespace     : string := "ipc".
Definition UTSNamespace     : string := "uts".
Definition UserNamespace    : string := "user".
Definition CgroupNamespace  : string := "cgroup".

(** The fields of [unshare.Cmd] the function writes. *)
Record UnshareCmd := {
  UnshareFlags : Z;
  UidMappings : list LinuxIDMapping;
  GidMappings : list LinuxIDMapping;
  GidMappingsEnableSetgroups : bool;
  OOMScoreAdj : option Z
}.

(** How the function ends: with the error of [unshare.GetHostIDMappings]
    and the command untouched, with nil and the command updated, or in
    the nil dereference of [spec.Process.OOMScoreAdj]. *)
Inductive UnshareOutcome :=
| UnshareError (e : Errno)
| UnshareDone (cmd : UnshareCmd)
| UnsharePanic.

(** [uidmap = append([]specs.LinuxIDMapping{}, hostUidmap...)] followed by
    [uidmap[i].HostID = uidmap[i].ContainerID] for every index. *)
Definition borrowMappings (host : list LinuxIDMapping) : list LinuxIDMapping :=
  map (fun m => {| ContainerID := ContainerID m; HostID := ContainerID m;
                   Size := Size m |}) host.

(** [requestedUserNS := false; for _, ns := range ... { if ns.Type ==
    specs.UserNamespace { requestedUserNS = true } }]. *)
Definition requestedUserNS (namespaces : list LinuxNamespace) : bool :=
  fold_left (fun requested ns =>
               if String.eqb (ns_Type ns) UserNamespace then true else requested)
            namespaces false.

(** [hostMappings] is the answer of [unshare.GetHostIDMappings]; the
    mappings are read from [spec]; [namespaces] is
    [spec.Linux.Namespaces] and [processOOMScoreAdj] is [spec.Process]
    ([None] when nil) with its [OOMScoreAdj], two parts of the
    specification the record [Spec] does not carry. *)
Definition setPlatformUnshareOptions
    (hostMappings : Errno + list LinuxIDMapping * list LinuxIDMapping)
    (spec : Spec) (namespaces : list LinuxNamespace)
    (processOOMScoreAdj : option (option Z)) (cmd : UnshareCmd)
  : UnshareOutcome :=
  match hostMappings with
  | inl err => UnshareError err
  | inr (hostUidmap, hostGidmap) =>
      let uidmap := UIDMappings spec in
      let gidmap := GIDMappings spec in
      let uidmap :=
        if Z.eqb (Z.of_nat (List.length uidmap)) 0
        then borrowMappings hostUidmap else uidmap in
      let gidmap :=
        if Z.eqb (Z.of_nat (List.length gidmap)) 0
        then borrowMappings hostGidmap else gidmap in
      let cmd :=
        {| UnshareFlags := Z.lor CLONE_NEWUTS CLONE_NEWNS;
           UidMappings := UidMappings cmd; GidMappings := GidMappings cmd;
           GidMappingsEnableSetgroups := GidMappingsEnableSetgroups cmd;
           OOMScoreAdj := OOMScoreAdj cmd |} in
      let cmd :=
        if (0 <? Z.of_nat (List.length (UIDMappings spec)))%Z
           || (0 <? Z.of_nat (List.length (GIDMappings spec)))%Z
           || requestedUserNS namespaces
        then
          {| UnshareFlags := Z.lor (UnshareFlags cmd) CLONE_NEWUSER;
             UidMappings := uidmap; GidMappings := gidmap;
             GidMappingsEnableSetgroups := true;
             OOMScoreAdj := OOMScoreAdj cmd |}
        else cmd in
      match processOOMScoreAdj with
      | None => UnsharePanic
      | Some adj =>
          UnshareDone
            {| UnshareFlags := UnshareFlags cmd;
               UidMappings := UidMappings cmd; GidMappings := GidMappings cmd;
               GidMappingsEnableSetgroups := GidMappingsEnableSetgroups cmd;
               OOMScoreAdj := adj |}
      end
  end.

(** ** logNamespaceDiagnostics (lines 300-353)

    The function only logs; the model returns the debug messages in the
    order they are logged. *)

Section NamespaceDiagnostics.

(** The [%q] verb of the Go format library. *)
Variable Quote : string -> string.

(** The state of the loop: the messages so far and the two flags. *)
Record Diagnostics := {
  messages : list string;
  sawMountNS : bool;
  sawUTSNS : bool
}.

Definition logged (d : Diagnostics) (message : string) : Diagnostics :=
  {| messages := messages d ++ [message];
     sawMountNS := sawMountNS d; sawUTSNS := sawUTSNS d |}.

(** The [join] or [create] message of a namespace the launch cannot
    provide. *)
Definition sorry (kind : string) (ns : LinuxNamespace) : string :=
  if negb (String.eqb (ns_Path ns) EmptyString)
  then "unable to join " ++ kind ++ " namespace, sorry about that"
  else "unable to create " ++ kind ++ " namespace, sorry about that".

(** One iteration of the loop: the [switch ns.Type]. *)
Definition diagnose (d : Diagnostics) (ns : LinuxNamespace) : Diagnostics :=
  if String.eqb (ns_Type ns) CgroupNamespace then logged d (sorry "cgroup" ns)
  else if String.eqb (ns_Type ns) IPCNamespace then logged d (sorry "IPC" ns)
  else if String.eqb (ns_Type ns) MountNamespace then
    let d :=
      if negb (String.eqb (ns_Path ns) EmptyString)
      then logged d ("unable to join mount namespace " ++ Quote (ns_Path ns)
                     ++ ", creating a new one")
      else d in
    {| messages := messages d; sawMountNS := true; sawUTSNS := sawUTSNS d |}
  else if String.eqb (ns_Type ns) NetworkNamespace then
    logged d (sorry "network" ns)
  else if String.eqb (ns_Type ns) PIDNamespace then logged d (sorry "PID" ns)
  else if String.eqb (ns_Type ns) UserNamespace then
    if negb (String.eqb (ns_Path ns) EmptyString)
    then logged d "unable to join user namespace, sorry about that"
    else d
  else if String.eqb (ns_Type ns) UTSNamespace then
    let d :=
      if negb (String.eqb (ns_Path ns) EmptyString)
      then logged d ("unable to join UTS namespace " ++ Quote (ns_Path ns)
                     ++ ", creating a new one")
      else d in
    {| messages := messages d; sawMountNS := sawMountNS d; sawUTSNS := true |}
  else d.

Definition mountNotRequested : string :=
  "mount namespace not requested, but creating a new one anyway".

Definition utsNotRequested : string :=
  "UTS namespace not requested, but creating a new one anyway".

Definition logNamespaceDiagnostics (namespaces : list LinuxNamespace)
  : list string :=
  let d := fold_left diagnose namespaces
             {| messages := []; sawMountNS := false; sawUTSNS := false |} in
  let d := if negb (sawMountNS d) then logged d mountNotRequested else d in
  let d := if negb (sawUTSNS d) then logged d utsNotRequested else d in
  messages d.

End NamespaceDiagnostics.

(** ** Vocabulary of the further statements *)

(** Every call a program makes, from any world, is an allowed one. *)
Definition emitsOnly {OS E A} (allowed : Event -> bool) (c : M OS E A) : Prop :=
  forall w : World OS,
    exists events,
      trace (snd (c w)) = (trace w ++ events)%list
      /\ Forall (fun e => allowed e = true) events.

(** Every failure of a program satisfies [Q], a property of the error
    and of the world the failure leaves. *)
Definition failsOnly {OS E A} (Q : E -> World OS -> Prop) (c : M OS E A) : Prop :=
  forall (w : World OS) (e : E) (w' : World OS), c w = (Fail e, w') -> Q e w'.

(** The calls [setupChrootBindMounts] is made of: mounts, queries and the
    creation of mount points. *)
Definition isSetupCall (e : Event) : bool :=
  match e with
  | Ev (Mount _ _ _ _ _) | Ev (MountHelper _ _ _ _) | Ev (Statfs _)
  | Ev (UnixStat _) | Ev (OsStat _) | Ev (OsLstat _) | Ev (EvalSymlinks _)
  | Ev (CopierEval _ _) | Ev (Mkdir _ _) | Ev (MkdirAll _ _)
  | Ev (CreateFile _ _) | Ev (OpenDir _) | Ev (Readdirnames _)
  | Ev GetMounts => true
  | _ => false
  end.

(** A call that is not a mount, or a bind mount that asks for read-only. *)
Definition isReadOnlyBind (e : Event) : bool :=
  match e with
  | Ev (Mount _ _ _ flags _) =>
      MountFlags.hasFlag flags MS_BIND && MountFlags.hasFlag flags MS_RDONLY
  | Ev (MountHelper _ _ _ _) => false
  | _ => true
  end.

(** A call that is not a direct mount, or a direct mount whose flags
    carry bind, recursive and private. *)
Definition keepsCommonFlags (e : Event) : bool :=
  match e with
  | Ev (Mount _ _ _ flags _) => Z.eqb (Z.land flags commonFlags) commonFlags
  | _ => true
  end.

(** The calls of the launch that change what the process may do. *)
Definition isKeyCall (e : Event) : bool :=
  match e with
  | Ev (Chroot _) | Ev SetSelinuxLabel | Ev (Setgroups _)
  | Ev (Setresgid _ _ _) | Ev SetSeccomp | Ev (CapApply _)
  | Ev (Setresuid _ _ _) | Ev (RunChild _ _ _ _) => true
  | _ => false
  end.

(** The calls of [setRlimits]. *)
Definition isRlimitCall (e : Event) : bool :=
  match e with
  | Ev (Getrlimit _) | Ev (Setrlimit _ _) => true
  | _ => false
  end.

(** What a failure of [setupChrootBindMounts] looks like: it comes with
    the cleanup closure, or the last call was the evaluation of the
    symlink at the destination of a mount entry that passes the
    filters. *)
Definition handleOrSymlink {OS} (root : string) (mounts : list MountEntry)
    (f : SetupFailure) (w' : World OS) : Prop :=
  withUndoBinds f = true
  \/ exists (m : MountEntry) (events : list Event),
       In m mounts /\ passesFilters m = true
       /\ trace w' = (events ++ [Ev (CopierEval root (Destination m))])%list.

(** What the kernel lets the program see of the content of a directory
    in state [s]: an entry other than [.] and [..], none, or nothing when
    the directory can be neither opened nor passed as unreadable. *)
Definition contentSeen {OS} (kernel : forall R, Call R -> OS -> R * OS)
    (target : string) (s : OS) : option bool :=
  match answer kernel (OpenDir target) s with
  | Some e => if isPermission e then Some false else None
  | None =>
      match answer kernel (Readdirnames target)
              (after kernel (OpenDir target) s) with
      | inl _ => None
      | inr names =>
          Some (existsb (fun name =>
                  negb (String.eqb name "." || String.eqb name "..")) names)
      end
  end.

(** The state the kernel is in after answering a sequence of calls. *)
Fixpoint replay {OS} (kernel : forall R, Call R -> OS -> R * OS)
    (events : list Event) (s : OS) : OS :=
  match events with
  | [] => s
  | Ev c :: rest => replay kernel rest (after kernel c s)
  end.

(** World [w'] is reached from [w] by exactly these calls. *)
Definition segment {OS} (kernel : forall R, Call R -> OS -> R * OS)
    (w w' : World OS) (events : list Event) : Prop :=
  trace w' = (trace w ++ events)%list
  /\ os w' = replay kernel events (os w).

(** A program changes the world through calls only, all of them allowed
    ones. *)
Definition follows {OS E A} (kernel : forall R, Call R -> OS -> R * OS)
    (allowed : Event -> bool) (c : M OS E A) : Prop :=
  forall w : World OS,
    exists events,
      segment kernel w (snd (c w)) events
      /\ Forall (fun e => allowed e = true) events.

Definition isStatfs (e : Event) : bool :=
  match e with
  | Ev (Statfs _) => true
  | _ => false
  end.

(** The toy kernel with some answers replaced. *)
Definition override (special : forall R, Call R -> option R)
  : forall R, Call R -> Toy -> R * Toy :=
  fun R c s =>
    match special R c with
    | Some r => (r, s)
    | None => toyKernel R c s
    end.

(** Every mount point is a symlink that cannot be evaluated. *)
Definition brokenLinks : forall R, Call R -> Toy -> R * Toy :=
  override (fun R c =>
    match c in Call R return option R with
    | OsLstat path =>
        Some (inr {| fi_Mode := ModeSymlink; fi_Sys := toyStat toyState path |})
    | CopierEval _ _ => Some (inl EINVAL)
    | _ => None
    end).

(** The child exits with status 3. *)
Definition childExitsThree : forall R, Call R -> Toy -> R * Toy :=
  override (fun R c =>
    match c in Call R return option R with
    | RunChild _ _ _ _ => Some (WaitExited 3)
    | _ => None
    end).

(** The start of the command. *)
Definition isRunChild (e : Event) : bool :=
  match e with
  | Ev (RunChild _ _ _ _) => true
  | _ => false
  end.

(** A host mount the loop after the bind of /sys carries over: /sys
    itself or a mount point below it. *)
Definition underSys (Mountpoint : string) : bool :=
  HasPrefix Mountpoint "/sys/" || String.eqb Mountpoint "/sys".

(** A specification whose second limit names no resource of the table. *)
Definition unknownLimit : Spec :=
  {| RootPath := "/rootfs"; Hostname := "box";
     SpecProcess :=
       Some {| ProcessUser := {| UID := 0; GID := 0; AdditionalGids := [] |};
               Cwd := "/"; Env := [];
               ProcessCapabilities :=
                 {| Bounding := []; Effective := []; Inheritable := [];
                    Permitted := []; Ambient := [] |};
               Rlimits :=
                 [ {| rl_Type := "RLIMIT_NOFILE"; rl_Hard := 2048;
                      rl_Soft := 1024 |};
                   {| rl_Type := "RLIMIT_BOGUS"; rl_Hard := 1; rl_Soft := 1 |} ];
               ApparmorProfile := EmptyString |};
     Mounts := []; UIDMappings := []; GIDMappings := [];
     ReadonlyPaths := []; MaskedPaths := [] |}.

(** A process whose bounding list holds a name no capability has. *)
Definition bogusCapability : Process :=
  {| ProcessUser := {| UID := 0; GID := 0; AdditionalGids := [] |};
     Cwd := "/"; Env := [];
     ProcessCapabilities :=
       {| Bounding := ["CAP_CHOWN"; "CAP_BOGUS"]; Effective := ["CAP_CHOWN"];
          Inheritable := []; Permitted := []; Ambient := [] |};
     Rlimits := []; ApparmorProfile := EmptyString |}.

(** The namespace list has an entry of the given type. *)
Definition listsNamespace (kind : string) (namespaces : list LinuxNamespace)
  : bool :=
  existsb (fun ns => String.eqb (ns_Type ns) kind) namespaces.

(** The condition under which the child gets a user namespace, as a
    statement about the specification. *)
Definition wantsUserNS (spec : Spec) (namespaces : list LinuxNamespace) : Prop :=
  UIDMappings spec <> [] \/ GIDMappings spec <> []
  \/ exists ns, In ns namespaces /\ ns_Type ns = UserNamespace.

(** The mappings handed to the child: those of the specification, or the
    borrowed ones when it has none. *)
Definition orBorrowed (configured host : list LinuxIDMapping)
  : list LinuxIDMapping :=
  match configured with
  | [] => borrowMappings host
  | _ :: _ => configured
  end.

(** A message of the loop of [logNamespaceDiagnostics]. *)
Definition isUnable (message : string) : bool := HasPrefix message "unable to ".

(** A command as the caller might hand it over, and a namespace list. *)
Definition staleCmd : UnshareCmd :=
  {| UnshareFlags := CLONE_NEWUSER; UidMappings := []; GidMappings := [];
     GidMappingsEnableSetgroups := false; OOMScoreAdj := None |}.

Definition pidAndUser : list LinuxNamespace :=
  [ {| ns_Type := PIDNamespace; ns_Path := EmptyString |};
    {| ns_Type := UserNamespace; ns_Path := EmptyString |} ].

(** Every directory has mode 0700 and belongs to root. *)
Definition privateDirs : forall R, Call R -> Toy -> R * Toy :=
  override (fun R c =>
    match c in Call R return option R with
    | UnixStat _ =>
        Some (inr {| Dev := 1; Ino := 1; Mode := 16832; Uid := 0; Gid := 0;
                     Rdev := 0 |})
    | _ => None
    end).

(** The masked path of the toy specification is a directory on a
    read-only file system, and it has an entry. *)
Definition readOnlyFull : Toy :=
  {| toy_unmounts := []; toy_readonly := ["/rootfs/proc/kcore"];
     toy_files := []; toy_nonempty := ["/rootfs/proc/kcore"];
     toy_caps := emptyCaps; toy_chroot := None; toy_swapped := false |}.

(** A kernel on which a new mount hides what was mounted at and below
    its target: the read-only marks of those paths are lost; a remount
    with the read-only flag marks its target as the toy kernel does. *)
Definition hidingKernel : forall R, Call R -> Toy -> R * Toy :=
  fun R c s =>
    match c in Call R return R * Toy with
    | Mount _ target _ flags _ =>
        (None,
         if Z.eqb (Z.land flags MS_REMOUNT) 0 then
           {| toy_unmounts := toy_unmounts s;
              toy_readonly :=
                List.filter (fun path => negb (String.prefix target path))
                  (toy_readonly s);
              toy_files := toy_files s; toy_nonempty := toy_nonempty s;
              toy_caps := toy_caps s; toy_chroot := toy_chroot s;
              toy_swapped := toy_swapped s |}
         else if negb (Z.eqb (Z.land flags MS_RDONLY) 0) then
           {| toy_unmounts := toy_unmounts s;
              toy_readonly := target :: toy_readonly s;
              toy_files := toy_files s; toy_nonempty := toy_nonempty s;
              toy_caps := toy_caps s; toy_chroot := toy_chroot s;
              toy_swapped := toy_swapped s |}
         else s)
    | c' => toyKernel _ c' s
    end.

(** Two read-only paths, the first below the second. *)
Definition nestedPaths : list string := ["/a/b"; "/a"].

(** A specification whose process names the open-file limit twice. *)
Definition twoNofileSpec : Spec :=
  {| RootPath := "/rootfs"; Hostname := "box";
     SpecProcess :=
       Some {| ProcessUser := {| UID := 0; GID := 0; AdditionalGids := [] |};
               Cwd := "/"; Env := [];
               ProcessCapabilities :=
                 {| Bounding := []; Effective := []; Inheritable := [];
                    Permitted := []; Ambient := [] |};
               Rlimits := twoNofile;
               ApparmorProfile := EmptyString |};
     Mounts := []; UIDMappings := []; GIDMappings := [];
     ReadonlyPaths := []; MaskedPaths := [] |}.

(** A bind mount that asks for nosuid. *)
Definition nosuidData : MountEntry :=
  {| Destination := "/data"; Type_ := "bind"; Source := "/srv/data";
     Options := ["nosuid"] |}.

(** * Properties *)

Open Scope list_scope.

(** ** Mount option tokens *)

Section MountFlagsFacts.

Import MountFlags.

Lemma encodeAxes_ext base f g :
  (forall a, f a = g a) -> encodeAxes base f = encodeAxes base g.
Proof.
  intros H. unfold encodeAxes. now rewrite !H.
Qed.

Lemma bindFlags_encoded : bindFlags = encodeAxes commonFlags bindAxes.
Proof. reflexivity. Qed.

Ltac axes_cases f :=
  unfold encodeAxes, applyToken; cbn [setToken clearToken String.eqb Ascii.eqb Bool.eqb];
  destruct (f AxRo), (f AxSuid), (f AxDev), (f AxExec); vm_compute; reflexivity.

(** One token acts on an encoded flag word as [applyToken] acts on the
    axes, for the two bases of the source. *)
Lemma optionStep_encoded f g o :
  optionStep (encodeAxes commonFlags f, encodeAxes 0 g) o
  = (encodeAxes commonFlags (applyToken o f), encodeAxes 0 (applyToken o g)).
Proof.
  unfold optionStep.
  destruct (String.eqb o "nodev") eqn:E1;
    [apply String.eqb_eq in E1; subst o; f_equal; [axes_cases f | axes_cases g] |].
  destruct (String.eqb o "dev") eqn:E2;
    [apply String.eqb_eq in E2; subst o; f_equal; [axes_cases f | axes_cases g] |].
  destruct (String.eqb o "noexec") eqn:E3;
    [apply String.eqb_eq in E3; subst o; f_equal; [axes_cases f | axes_cases g] |].
  destruct (String.eqb o "exec") eqn:E4;
    [apply String.eqb_eq in E4; subst o; f_equal; [axes_cases f | axes_cases g] |].
  destruct (String.eqb o "nosuid") eqn:E5;
    [apply String.eqb_eq in E5; subst o; f_equal; [axes_cases f | axes_cases g] |].
  destruct (String.eqb o "suid") eqn:E6;
    [apply String.eqb_eq in E6; subst o; f_equal; [axes_cases f | axes_cases g] |].
  destruct (String.eqb o "ro") eqn:E7;
    [apply String.eqb_eq in E7; subst o; f_equal; [axes_cases f | axes_cases g] |].
  destruct (String.eqb o "rw") eqn:E8;
    [apply String.eqb_eq in E8; subst o; f_equal; [axes_cases f | axes_cases g] |].
  f_equal; apply encodeAxes_ext; intros a; unfold applyToken;
    destruct a; cbn [setToken clearToken];
    rewrite ?E1, ?E2, ?E3, ?E4, ?E5, ?E6, ?E7, ?E8; reflexivity.
Qed.

Lemma finalAxes_cons f o options a :
  finalAxes (applyToken o f) options a = finalAxes f (o :: options) a.
Proof.
  unfold finalAxes, applyToken. cbn [lastToken].
  destruct (lastToken a options); [reflexivity |].
  destruct (String.eqb o (setToken a)); [reflexivity |].
  destruct (String.eqb o (clearToken a)); reflexivity.
Qed.

(** The loop over the options, started from any encoded pair. *)
Lemma fold_optionStep_encoded options : forall f g,
  fold_left optionStep options (encodeAxes commonFlags f, encodeAxes 0 g)
  = (encodeAxes commonFlags (finalAxes f options),
     encodeAxes 0 (finalAxes g options)).
Proof.
  induction options as [| o options IH]; intros f g.
  - reflexivity.
  - cbn [fold_left]. rewrite optionStep_encoded, IH.
    f_equal; apply encodeAxes_ext; intros a; apply finalAxes_cons.
Qed.

Lemma mountFlags_encoded options :
  mountFlags options
  = (encodeAxes commonFlags (finalAxes bindAxes options),
     encodeAxes 0 (finalAxes noAxes options)).
Proof.
  unfold mountFlags. rewrite bindFlags_encoded.
  change 0 with (encodeAxes 0 noAxes) at 1.
  apply fold_optionStep_encoded.
Qed.

(** Reading an axis bit back from an encoded word. *)
Lemma hasFlag_encoded_ms f a : hasFlag (encodeAxes commonFlags f) (msBit a) = f a.
Proof.
  unfold encodeAxes.
  destruct a, (f AxRo), (f AxSuid), (f AxDev), (f AxExec); reflexivity.
Qed.

Lemma hasFlag_encoded_st f a : hasFlag (encodeAxes 0 f) (stBit a) = f a.
Proof.
  unfold encodeAxes.
  destruct a, (f AxRo), (f AxSuid), (f AxDev), (f AxExec); reflexivity.
Qed.

(** C7: the pair (requestFlags, expectedFlags) is determined by the last
    token of each of the four axes.  When an axis has a token in the list,
    its bit in both words is set if the last one is the setting token
    (nodev, noexec, nosuid, ro) and cleared if it is the clearing token
    (dev, exec, suid, rw), whatever came before; an axis without a token
    keeps the bit of the initial words (bindFlags and zero).  Hence two
    option lists with the same last token on every axis give the same
    pair. *)
Theorem mountFlags_last_token_wins (options : list string) :
  (forall a : Axis,
     match lastToken a options with
     | Some b =>
         hasFlag (fst (mountFlags options)) (msBit a) = b
         /\ hasFlag (snd (mountFlags options)) (stBit a) = b
     | None =>
         hasFlag (fst (mountFlags options)) (msBit a) = hasFlag bindFlags (msBit a)
         /\ hasFlag (snd (mountFlags options)) (stBit a) = false
     end)
  /\ (forall options' : list string,
        (forall a : Axis, lastToken a options = lastToken a options') ->
        mountFlags options = mountFlags options').
Proof.
  split.
  - intros a. rewrite mountFlags_encoded. cbn [fst snd].
    rewrite hasFlag_encoded_ms, hasFlag_encoded_st.
    unfold finalAxes. destruct (lastToken a options) as [b |].
    + split; reflexivity.
    + split; [destruct a; reflexivity | reflexivity].
  - intros options' H. rewrite !mountFlags_encoded.
    f_equal; apply encodeAxes_ext; intros a; unfold finalAxes; now rewrite H.
Qed.

(** The theorem at work: an early [ro] is overridden by a later [rw]. *)
Lemma mountFlags_last_token_wins_witness :
  mountFlags ["ro"; "nodev"; "noexec"; "rw"] = mountFlags ["noexec"; "rw"; "nodev"].
Proof.
  apply (proj2 (mountFlags_last_token_wins ["ro"; "nodev"; "noexec"; "rw"])).
  intros []; reflexivity.
Defined.

End MountFlagsFacts.

(** ** Accessibility of a masked directory *)

Lemma lor_S_IXOTH_nonzero x : Z.eqb (Z.lor x S_IXOTH) 0 = false.
Proof.
  apply Z.eqb_neq. intros H. apply Z.lor_eq_0_iff in H.
  destruct H as [_ H]. discriminate H.
Qed.

(** C3: the first test of the source reads
    [(stat.Mode & S_IROTH) | S_IXOTH != 0], which holds for every mode, so
    the accessibility bit the code computes is true for every directory,
    whatever its permission bits, owner, group and the configured
    mappings.  The formula of the claim gives false for a directory of
    mode 0700 when no mapping is configured. *)
Theorem isAccessible_always_true :
  (forall (Mode Uid Gid : Z) (uidmap gidmap : list LinuxIDMapping),
     isAccessible Mode Uid Gid uidmap gidmap = true)
  /\ accessibleBySpec 16832 0 0 [] [] = false
  /\ isAccessible 16832 0 0 [] [] = true.
Proof.
  split; [| split; reflexivity].
  intros Mode0 Uid0 Gid0 uidmap gidmap. unfold isAccessible.
  rewrite lor_S_IXOTH_nonzero. reflexivity.
Qed.

(** ** Resource limits *)

Section RlimitFacts.

Variable ToUpper : string -> string.

Lemma lastFor_cons r limit rest :
  lastFor ToUpper r (limit :: rest)
  = match lastFor ToUpper r rest with
    | Some v => Some v
    | None =>
        if bool_decide (resourceOf ToUpper limit = Some r)
        then Some {| Cur := rl_Soft limit; Max := rl_Hard limit |}
        else None
    end.
Proof. reflexivity. Qed.

(** The loop started from any map: it fails exactly when some name is
    unknown, and otherwise every resource holds the pair of its last
    entry, or what the initial map held. *)
Lemma parseLoop_ok limits : forall parsed0 parsed,
  parseLoop ToUpper parsed0 limits = Ok parsed ->
  forall r, parsed !! r = match lastFor ToUpper r limits with
                          | Some v => Some v
                          | None => parsed0 !! r
                          end.
Proof.
  induction limits as [| limit rest IH]; intros parsed0 parsed H r.
  - cbn in H. injection H as <-. reflexivity.
  - cbn [parseLoop] in H. unfold parseStep in H.
    rewrite lastFor_cons. unfold resourceOf.
    destruct (rlimitsMap !! ToUpper (rl_Type limit)) as [resource |] eqn:E;
      [| discriminate H].
    rewrite (IH _ _ H r).
    destruct (lastFor ToUpper r rest); [reflexivity |].
    case_bool_decide as Hr.
    + injection Hr as ->. apply lookup_insert_eq.
    + apply lookup_insert_ne. congruence.
Qed.

Lemma parseLoop_unknown limits : forall parsed0,
  (exists limit, limit ∈ limits /\ resourceOf ToUpper limit = None)
  <-> (exists e, parseLoop ToUpper parsed0 limits = Err e).
Proof.
  induction limits as [| limit rest IH]; intros parsed0.
  - split.
    + intros (l & Hl & _). inversion Hl.
    + intros (e & He). discriminate He.
  - cbn [parseLoop]. unfold parseStep, resourceOf in *.
    destruct (rlimitsMap !! ToUpper (rl_Type limit)) as [resource |] eqn:E.
    + rewrite <- IH. split.
      * intros (l & Hl & Hn). apply elem_of_cons in Hl as [-> | Hl].
        -- congruence.
        -- exists l. split; assumption.
      * intros (l & Hl & Hn). exists l. split; [apply elem_of_cons; now right | assumption].
    + split.
      * intros _. eexists. reflexivity.
      * intros _. exists limit. split; [apply elem_of_cons; now left | assumption].
Qed.

End RlimitFacts.

(** ** Capabilities *)

Lemma capSet_elem c which what which' x :
  x ∈ capsOf (capSet c which what) which'
  <-> x ∈ capsOf c which' \/ (which' = which /\ x = what).
Proof.
  destruct which, which'; cbn [capsOf capSet effective permitted inheritable
    bounding ambient]; rewrite ?elem_of_union, ?elem_of_singleton;
    intuition congruence.
Qed.

Section CapabilityFacts.

Variable knownCaps : list Z.
Variable capString : Z -> string.
Variable EqualFold : string -> string -> bool.

Local Abbreviation resolvedTo := (resolved knownCaps capString EqualFold).
Local Abbreviation findCap := (lookupCap knownCaps capString EqualFold).

Lemma resolved_nil c : ~ resolvedTo [] c.
Proof. intros (name & H & _). inversion H. Qed.

Lemma resolved_cons name names c :
  resolvedTo (name :: names) c <-> findCap name = Some c \/ resolvedTo names c.
Proof.
  unfold resolved. split.
  - intros (n & Hn & Hl). apply elem_of_cons in Hn as [-> | Hn].
    + now left.
    + right. exists n. now split.
  - intros [Hl | (n & Hn & Hl)].
    + exists name. split; [apply elem_of_cons; now left | assumption].
    + exists n. split; [apply elem_of_cons; now right | assumption].
Qed.

(** The first inner loop adds to the set of its type exactly the
    capabilities its names resolve to. *)
Lemma setListed_elem capType capList : forall caps caps',
  setListed knownCaps capString EqualFold caps capType capList = Ok caps' ->
  forall which x,
    x ∈ capsOf caps' which
    <-> x ∈ capsOf caps which \/ (which = capType /\ resolvedTo capList x).
Proof.
  induction capList as [| name rest IH]; intros caps caps' H which x.
  - cbn in H. injection H as <-. pose proof (resolved_nil x). tauto.
  - cbn [setListed] in H.
    destruct (lookupCap knownCaps capString EqualFold name)
      as [cap |] eqn:E; [| discriminate H].
    rewrite (IH _ _ H which x), capSet_elem, resolved_cons.
    split; [| intuition congruence].
    intros [[? | [? ->]] | [? ?]]; auto.
Qed.

(** The second inner loop adds those capabilities its names resolve to
    that the current process has in the set of the same type. *)
Lemma setKept_elem currentCaps capType keepCaps : forall caps caps',
  setKept knownCaps capString EqualFold currentCaps caps capType keepCaps
    = Ok caps' ->
  forall which x,
    x ∈ capsOf caps' which
    <-> x ∈ capsOf caps which
        \/ (which = capType /\ resolvedTo keepCaps x
            /\ x ∈ capsOf currentCaps capType).
Proof.
  induction keepCaps as [| name rest IH]; intros caps caps' H which x.
  - cbn in H. injection H as <-. pose proof (resolved_nil x). tauto.
  - cbn [setKept] in H.
    destruct (lookupCap knownCaps capString EqualFold name)
      as [cap |] eqn:E; [| discriminate H].
    rewrite (IH _ _ H which x), resolved_cons. unfold capGet.
    case_bool_decide as Hcur.
    + rewrite capSet_elem. split; [| intuition congruence].
      intros [[? | [-> ->]] | (? & ? & ?)]; auto.
    + split; [tauto |].
      intros [? | (-> & [Hl | ?] & Hin)]; auto.
      exfalso. apply Hcur. congruence.
Qed.

(** The outer loop, over any visiting order. *)
Lemma capLoop_elem order currentCaps spec keepCaps : forall caps caps',
  capLoop knownCaps capString EqualFold order currentCaps caps spec keepCaps
    = Ok caps' ->
  forall which x,
    x ∈ capsOf caps' which
    <-> x ∈ capsOf caps which
        \/ (which ∈ order
            /\ (resolvedTo (capMap spec which) x
                \/ (resolvedTo keepCaps x /\ x ∈ capsOf currentCaps which))).
Proof.
  induction order as [| capType rest IH]; intros caps caps' H which x.
  - cbn in H. injection H as <-. split; [auto |].
    intros [? | [Hin _]]; [assumption | inversion Hin].
  - cbn [capLoop] in H.
    destruct (setListed _ _ _ caps capType (capMap spec capType))
      as [caps1 |] eqn:E1; [| discriminate H].
    destruct (setKept _ _ _ currentCaps caps1 capType keepCaps)
      as [caps2 |] eqn:E2; [| discriminate H].
    rewrite (IH _ _ H which x), (setKept_elem _ _ _ _ _ E2 which x),
      (setListed_elem _ _ _ _ E1 which x), elem_of_cons.
    split.
    + intros [[[? | [-> ?]] | (-> & ? & ?)] | [? ?]]; auto 6.
    + intros [? | [[-> | ?] [? | [? ?]]]]; auto 6.
Qed.

End CapabilityFacts.

(** ** Running programs in a world *)

Section WorldFacts.

Context {OS : Type}.
Variable kernel : forall R, Call R -> OS -> R * OS.

Lemma call_run E R (c : Call R) (w : World OS) :
  call kernel (E := E) c w = (Done (answer kernel c (os w)), afterCall kernel c w).
Proof.
  unfold afterCall, call, answer, after.
  destruct (kernel R c (os w)); reflexivity.
Qed.

Lemma bind_call E R B (c : Call R) (k : R -> M OS E B) (w : World OS) :
  bind (call kernel c) k w = k (answer kernel c (os w)) (afterCall kernel c w).
Proof. unfold bind. rewrite call_run. reflexivity. Qed.

Lemma bind_ret E A B (a : A) (k : A -> M OS E B) (w : World OS) :
  bind (ret a) k w = k a w.
Proof. reflexivity. Qed.

Lemma bind_fail E A B (e : E) (k : A -> M OS E B) (w : World OS) :
  bind (fail e) k w = (Fail e, w).
Proof. reflexivity. Qed.

Lemma bind_bind E A B C (c : M OS E A) (k : A -> M OS E B)
    (k' : B -> M OS E C) (w : World OS) :
  bind (bind c k) k' w = bind c (fun a => bind (k a) k') w.
Proof. unfold bind. destruct (c w) as [[a | e] w1]; reflexivity. Qed.

Lemma bind_run E A B (c : M OS E A) (k : A -> M OS E B) (w w1 : World OS) a :
  c w = (Done a, w1) -> bind c k w = k a w1.
Proof. intros H. unfold bind. rewrite H. reflexivity. Qed.

Lemma bind_run_fail E A B (c : M OS E A) (k : A -> M OS E B)
    (w w1 : World OS) e :
  c w = (Fail e, w1) -> bind c k w = (Fail e, w1).
Proof. intros H. unfold bind. rewrite H. reflexivity. Qed.

End WorldFacts.

(** ** The cleanup closure *)

Section UndoBindsFacts.

Context {OS : Type}.
Variable kernel : forall R, Call R -> OS -> R * OS.

Local Abbreviation isBusy := (fun a : option Errno => busyOrAgain a = true).

Lemma singleton_snoc {A} (x a : A) (l : list A) :
  [x] = l ++ [a] -> l = [] /\ a = x.
Proof.
  destruct l as [| y l]; cbn; intros H.
  - injection H as ->. auto.
  - injection H as _ H. destruct l; discriminate H.
Qed.

Lemma cons_cons_snoc {A} (x y a : A) (l rest : list A) :
  x :: y :: rest = l ++ [a] ->
  exists l', l = x :: l' /\ y :: rest = l' ++ [a].
Proof.
  destruct l as [| z l]; cbn; intros H.
  - discriminate H.
  - injection H as -> H. eauto.
Qed.

(** The retry loop against the answers of the kernel: it performs [n]
    retries when the answer before each of them was EBUSY or EAGAIN and
    the last answer is something else or the 50 retries are used up. *)
Lemma retryUnmount_run E root : forall (fuel n : nat) err2 (w : World OS) busy a,
  (n <= fuel)%nat ->
  err2 :: retryAnswers kernel root n (os w) = busy ++ [a] ->
  Forall isBusy busy ->
  n = fuel \/ busyOrAgain a = false ->
  exists w',
    retryUnmount kernel (E := E) fuel root err2 (50 - Z.of_nat fuel) w
    = (Done (a, 50 - Z.of_nat fuel + Z.of_nat n), w')
    /\ trace w' = trace w ++ retryEvents root n.
Proof.
  induction fuel as [| fuel IH]; intros n err2 w busy a Hn Hans Hbusy Hlast.
  - assert (n = 0%nat) as -> by lia. cbn in Hans.
    apply singleton_snoc in Hans as [-> ->].
    exists w. change (Z.of_nat 0) with 0%Z. rewrite Z.add_0_r.
    cbn [retryUnmount retryEvents]. rewrite app_nil_r. split; reflexivity.
  - destruct n as [| n].
    + cbn in Hans. apply singleton_snoc in Hans as [-> ->].
      destruct Hlast as [Hlast | Hlast]; [discriminate Hlast |].
      exists w. change (Z.of_nat 0) with 0%Z. rewrite Z.add_0_r.
      cbn [retryUnmount retryEvents]. rewrite Hlast, app_nil_r.
      split; reflexivity.
    + cbn [retryAnswers] in Hans.
      apply cons_cons_snoc in Hans as (busy' & -> & Hans).
      apply Forall_cons in Hbusy as [Hb Hbusy].
      cbn [retryUnmount]. rewrite Hb.
      assert ((50 - Z.of_nat (S fuel) <? 50)%Z = true) as -> by (apply Z.ltb_lt; lia).
      cbn [andb]. rewrite bind_call, bind_call.
      replace (50 - Z.of_nat (S fuel) + 1)%Z with (50 - Z.of_nat fuel)%Z by lia.
      destruct (IH n (answer kernel (Unmount root MNT_DETACH)
                        (after kernel (Sleep 50) (os w)))
                  (afterCall kernel (Unmount root MNT_DETACH)
                     (afterCall kernel (Sleep 50) w)) busy' a)
        as (w' & Hrun & Htrace); [lia | exact Hans | exact Hbusy | |].
      { destruct Hlast as [Hlast | Hlast]; [left; lia | now right]. }
      unfold afterCall in *. cbn [os trace] in *.
      exists w'. rewrite Hrun, Htrace. cbn [retryEvents].
      split; [f_equal; f_equal; f_equal; lia |].
      rewrite <- !app_assoc. reflexivity.
Qed.

(** Some number of retries up to the fuel always fits the answers. *)
Lemma retryAnswers_stop root : forall (fuel : nat) err2 (s : OS),
  exists (n : nat) busy a,
    (n <= fuel)%nat
    /\ err2 :: retryAnswers kernel root n s = busy ++ [a]
    /\ Forall isBusy busy
    /\ (n = fuel \/ busyOrAgain a = false).
Proof.
  induction fuel as [| fuel IH]; intros err2 s.
  - exists 0%nat, [], err2. cbn. auto.
  - destruct (busyOrAgain err2) eqn:Hb.
    + destruct (IH (answer kernel (Unmount root MNT_DETACH)
                      (after kernel (Sleep 50) s))
                   (after kernel (Unmount root MNT_DETACH)
                      (after kernel (Sleep 50) s)))
        as (n & busy & a & Hn & Hans & Hbusy & Hlast).
      exists (S n), (err2 :: busy), a. cbn [retryAnswers].
      rewrite Hans. repeat split.
      * lia.
      * constructor; assumption.
      * destruct Hlast; [left; lia | now right].
    + exists 0%nat, [], err2. cbn. repeat split; auto with arith.
Qed.

(** The closure against the answers of the kernel. *)
Lemma undoBinds_run E root err (w : World OS) (n : nat) busy a :
  (n <= 50)%nat ->
  unmountAnswers kernel root n (os w) = busy ++ [a] ->
  Forall isBusy busy ->
  n = 50%nat \/ busyOrAgain a = false ->
  exists w',
    undoBinds kernel (E := E) root err w = (Done (undoResult err a), w')
    /\ trace w' = trace w ++ Ev (Unmount root MNT_DETACH) :: retryEvents root n.
Proof.
  intros Hn Hans Hbusy Hlast. unfold undoBinds, unmountAnswers in *.
  rewrite bind_call.
  destruct (answer kernel (Unmount root MNT_DETACH) (os w)) as [e |] eqn:Ha.
  - destruct (retryUnmount_run E root 50 n (Some e)
                (afterCall kernel (Unmount root MNT_DETACH) w) busy a)
      as (w' & Hrun & Htrace); auto.
    change (50 - Z.of_nat 50)%Z with 0%Z in Hrun.
    unfold afterCall in *. cbn [os trace] in *.
    exists w'. erewrite bind_run by exact Hrun.
    rewrite Htrace. rewrite <- app_assoc.
    split; [| reflexivity].
    destruct a as [e2 |]; [destruct err |]; reflexivity.
  - destruct busy as [| b busy].
    + cbn in Hans. injection Hans as <- Hr.
      destruct n; [| discriminate Hr].
      eexists. split; reflexivity.
    + cbn in Hans. injection Hans as <- _.
      apply Forall_cons in Hbusy as [Hb _]. discriminate Hb.
Qed.

(** C9, amended: the closure always returns, after the first unmount
    attempt and at most 50 retries, each preceded by a sleep of 50ms; it
    retries only while the last answer is EBUSY or EAGAIN and stops at the
    first success or other error.  What it returns is the captured error
    variable: the error recorded earlier if there is one, else the error
    of the last attempt, else nil.  When the first three attempts answer
    EBUSY and the fourth succeeds it performs exactly four unmount calls
    and three sleeps and returns the captured variable unchanged, which is
    success exactly when no earlier error was recorded. *)
Theorem undoBinds_retry_policy (E : Type) (root : string)
    (err : option error) (w : World OS) :
  (exists (n : nat) (a : option Errno) (w' : World OS),
     (n <= 50)%nat
     /\ undoBinds kernel (E := E) root err w = (Done (undoResult err a), w')
     /\ trace w' = trace w ++ Ev (Unmount root MNT_DETACH) :: retryEvents root n)
  /\ (forall (n : nat) (busy : list (option Errno)) (a : option Errno),
        (n <= 50)%nat ->
        unmountAnswers kernel root n (os w) = busy ++ [a] ->
        Forall (fun x => busyOrAgain x = true) busy ->
        n = 50%nat \/ busyOrAgain a = false ->
        exists w' : World OS,
          undoBinds kernel (E := E) root err w = (Done (undoResult err a), w')
          /\ trace w' = trace w ++ Ev (Unmount root MNT_DETACH) :: retryEvents root n)
  /\ (unmountAnswers kernel root 3 (os w)
        = [Some EBUSY; Some EBUSY; Some EBUSY; None] ->
      exists (w' : World OS) (events : list Event),
        undoBinds kernel (E := E) root err w = (Done err, w')
        /\ trace w' = trace w ++ events
        /\ List.length (List.filter isUnmountEvent events) = 4%nat
        /\ List.length (List.filter isSleepEvent events) = 3%nat).
Proof.
  split; [| split].
  - destruct (retryAnswers_stop root 50
                (answer kernel (Unmount root MNT_DETACH) (os w))
                (after kernel (Unmount root MNT_DETACH) (os w)))
      as (n & busy & a & Hn & Hans & Hbusy & Hlast).
    destruct (undoBinds_run E root err w n busy a Hn Hans Hbusy Hlast)
      as (w' & Hrun & Htrace).
    exists n, a, w'. auto.
  - intros n busy a. apply undoBinds_run.
  - intros Hans.
    destruct (undoBinds_run E root err w 3
                [Some EBUSY; Some EBUSY; Some EBUSY] None)
      as (w' & Hrun & Htrace).
    + lia.
    + exact Hans.
    + repeat constructor.
    + now right.
    + exists w', (Ev (Unmount root MNT_DETACH) :: retryEvents root 3).
      repeat split; assumption.
Qed.

End UndoBindsFacts.

(** The scenario on the toy kernel, with no earlier error recorded. *)
Lemma undoBinds_retry_policy_witness :
  exists (w' : World Toy) (events : list Event),
    undoBinds toyKernel (E := error) "/rootfs" None (mkWorld busyThrice [])
    = (Done None, w')
    /\ trace w' = [] ++ events
    /\ List.length (List.filter isUnmountEvent events) = 4%nat
    /\ List.length (List.filter isSleepEvent events) = 3%nat.
Proof.
  apply (proj2 (proj2 (undoBinds_retry_policy toyKernel error "/rootfs" None
                         (mkWorld busyThrice [])))).
  reflexivity.
Defined.

(** C9 as stated fails: the same scenario with an error recorded earlier
    in the captured variable performs the four unmount calls, the fourth
    of which succeeds, and the closure returns that earlier error, not
    success. *)
Lemma undoBinds_returns_earlier_error :
  let run := undoBinds toyKernel (E := error) "/rootfs"
               (Some (Errorf "error creating empty directory"))
               (mkWorld busyThrice []) in
  fst run = Done (Some (Errorf "error creating empty directory"))
  /\ fst run <> Done None
  /\ List.length (List.filter isUnmountEvent (trace (snd run))) = 4%nat.
Proof.
  split; [reflexivity | split; [discriminate | reflexivity]].
Qed.

(** ** The chroot check *)

Section ChrootFacts.

Context {OS : Type}.
Variable kernel : forall R, Call R -> OS -> R * OS.
Variable Clean : string -> string.
Variable IsAbs : string -> bool.
Variable TrimNewlines : string -> string.
Variable ToUpper : string -> string.
Variable knownCaps : list Z.
Variable capString : Z -> string.
Variable EqualFold : string -> string -> bool.
Variable capOrder : list CapType.
Variable rangeRlimits : gmap Z Rlimit -> list (Z * Rlimit).

Local Abbreviation main :=
  (runUsingChrootExecMain kernel Clean IsAbs TrimNewlines ToUpper knownCaps
     capString EqualFold capOrder rangeRlimits).
Local Abbreviation rest :=
  (afterChroot kernel Clean IsAbs TrimNewlines ToUpper knownCaps
     capString EqualFold capOrder rangeRlimits).

Lemma setHostname_run spec (w : World OS) :
  setHostname kernel spec w = (Done tt, snd (setHostname kernel spec w)).
Proof.
  unfold setHostname. destruct (negb (String.eqb (Hostname spec) EmptyString)).
  - rewrite bind_call. reflexivity.
  - reflexivity.
Qed.

Lemma must_run (c : Call (option Errno)) message (w : World OS) :
  must kernel c message w
  = match answer kernel c (os w) with
    | Some _ => (Fail {| exitCode := 1; exitMessage := message |},
                 afterCall kernel c w)
    | None => (Done tt, afterCall kernel c w)
    end.
Proof.
  unfold must. rewrite bind_call.
  destruct (answer kernel c (os w)); reflexivity.
Qed.

(** The chroot entry when its four calls succeed. *)
Lemma enterChroot_run root (w : World OS) oldst newst :
  let w1 := afterCall kernel (UnixStat root) w in
  let w2 := afterCall kernel (Chdir root) w1 in
  let w3 := afterCall kernel (Chroot root) w2 in
  let w4 := afterCall kernel (UnixStat "/") w3 in
  answer kernel (UnixStat root) (os w) = inr oldst ->
  answer kernel (Chdir root) (os w1) = None ->
  answer kernel (Chroot root) (os w2) = None ->
  answer kernel (UnixStat "/") (os w3) = inr newst ->
  enterChroot kernel root w
  = if Z.eqb (Dev oldst) (Dev newst) && Z.eqb (Ino oldst) (Ino newst)
    then (Done tt, w4)
    else (Fail {| exitCode := 1;
                  exitMessage := "unknown error chroot()ing into directory" |},
          w4).
Proof.
  intros w1 w2 w3 w4 H1 H2 H3 H4. unfold enterChroot.
  rewrite bind_call, H1.
  erewrite bind_run by (rewrite must_run; fold w1; rewrite H2; reflexivity).
  erewrite bind_run by (rewrite must_run; fold w2; rewrite H3; reflexivity).
  fold w3. rewrite bind_call, H4. fold w4.
  destruct (Z.eqb (Dev oldst) (Dev newst)), (Z.eqb (Ino oldst) (Ino newst));
    reflexivity.
Qed.

(** C4: when the two stat calls, the chdir and the chroot succeed, the
    main function goes on to the steps after the chroot entry exactly
    when the device and inode numbers of the intended root, taken before
    the chdir, equal those of "/" taken after the chroot call.  When
    either number differs it exits with status 1 and the stat of "/" is
    the last call it has made. *)
Theorem chroot_identity_check (args : list string) spec process
    (w : World OS) oldst newst :
  let root := RootPath spec in
  let w0 := snd (setHostname kernel spec w) in
  let w1 := afterCall kernel (UnixStat root) w0 in
  let w2 := afterCall kernel (Chdir root) w1 in
  let w3 := afterCall kernel (Chroot root) w2 in
  let w4 := afterCall kernel (UnixStat "/") w3 in
  SpecProcess spec = Some process ->
  answer kernel (UnixStat root) (os w0) = inr oldst ->
  answer kernel (Chdir root) (os w1) = None ->
  answer kernel (Chroot root) (os w2) = None ->
  answer kernel (UnixStat "/") (os w3) = inr newst ->
  trace w4 = trace w0 ++ [Ev (UnixStat root); Ev (Chdir root);
                          Ev (Chroot root); Ev (UnixStat "/")]
  /\ ((Dev oldst, Ino oldst) = (Dev newst, Ino newst) ->
      enterChroot kernel root w0 = (Done tt, w4)
      /\ main args (Some spec) w
         = bind (rest spec process) (runCommand kernel args process) w4)
  /\ ((Dev oldst, Ino oldst) <> (Dev newst, Ino newst) ->
      exists message,
        enterChroot kernel root w0
        = (Fail {| exitCode := 1; exitMessage := message |}, w4)
        /\ main args (Some spec) w
           = (Fail {| exitCode := 1; exitMessage := message |}, w4)).
Proof.
  intros root w0 w1 w2 w3 w4 Hp H1 H2 H3 H4.
  pose proof (enterChroot_run root w0 oldst newst H1 H2 H3 H4) as Hrun.
  fold w1 w2 w3 w4 in Hrun.
  split; [| split].
  - unfold w4, w3, w2, w1, afterCall. cbn [trace].
    rewrite <- !app_assoc. reflexivity.
  - intros Heq. injection Heq as Hd Hi.
    rewrite Hd, Hi, !Z.eqb_refl in Hrun. split; [exact Hrun |].
    unfold runUsingChrootExecMain. rewrite Hp.
    erewrite bind_run by apply setHostname_run. fold w0.
    erewrite bind_run by exact Hrun. reflexivity.
  - intros Hne.
    assert (Z.eqb (Dev oldst) (Dev newst) && Z.eqb (Ino oldst) (Ino newst) = false)
      as Hb.
    { apply andb_false_iff.
      destruct (Z.eqb_spec (Dev oldst) (Dev newst)) as [Hd | Hd]; [| now left].
      destruct (Z.eqb_spec (Ino oldst) (Ino newst)) as [Hi | Hi]; [| now right].
      exfalso. apply Hne. congruence. }
    rewrite Hb in Hrun. eexists. split; [exact Hrun |].
    unfold runUsingChrootExecMain. rewrite Hp.
    erewrite bind_run by apply setHostname_run. fold w0.
    erewrite bind_run_fail by exact Hrun. reflexivity.
Qed.

End ChrootFacts.

(** The theorem on the toy kernel with a root that is swapped under the
    chroot call: the inode of "/" differs and the launch exits with 1. *)
Lemma chroot_identity_check_witness :
  exists message w',
    toyMain (Some toySpec) (mkWorld swappedRoot [])
    = (Fail {| exitCode := 1; exitMessage := message |}, w').
Proof.
  destruct (chroot_identity_check toyKernel id (fun _ => true) id asciiToUpper
              linuxKnownCaps linuxCapString asciiEqualFold toyCapOrder
              map_to_list ["/bin/sh"; "-c"; "true"] toySpec toyProcess
              (mkWorld swappedRoot []) (toyStat swappedRoot "/rootfs")
              {| Dev := 1; Ino := 8; Mode := 16877; Uid := 0; Gid := 0; Rdev := 0 |}
              eq_refl eq_refl eq_refl eq_refl eq_refl)
    as (_ & _ & H).
  destruct H as (message & _ & Hmain); [vm_compute; congruence |].
  exists message. eexists. exact Hmain.
Defined.

(** ** The generic mount loop *)

Lemma prefix_app p : forall s,
  String.prefix p s = true <-> exists rest, s = (p ++ rest)%string.
Proof.
  induction p as [| a p IH]; intros s.
  - split; [intros _; exists s; reflexivity | destruct s; reflexivity].
  - destruct s as [| b s]; cbn.
    + split; [discriminate | intros (rest & H); discriminate H].
    + destruct (ascii_dec a b) as [-> | Hne].
      * rewrite IH. split; intros (rest & H); exists rest.
        -- cbn. now rewrite H.
        -- cbn in H. now injection H.
      * split; [discriminate | intros (rest & H)].
        cbn in H. injection H as H _. symmetry in H. contradiction.
Qed.

Lemma alreadyMounted_spec d : alreadyMounted d = true <-> underFixedMount d.
Proof.
  unfold alreadyMounted, underFixedMount, HasPrefix.
  rewrite <- !prefix_app.
  destruct (String.eqb_spec d "/dev"), (String.eqb_spec d "/proc"),
    (String.eqb_spec d "/sys"), (String.prefix "/dev/" d),
    (String.prefix "/proc/" d), (String.prefix "/sys/" d);
    cbn; intuition congruence.
Qed.

Lemma otherType_spec t : otherType t = false <-> mountableType t.
Proof.
  unfold otherType, mountableType.
  destruct (String.eqb_spec t "bind"), (String.eqb_spec t "tmpfs"),
    (String.eqb_spec t "overlay"); cbn; intuition congruence.
Qed.

Section MountLoopFacts.

Context {OS : Type}.
Variable kernel : forall R, Call R -> OS -> R * OS.
Variable Join : string -> string -> string.
Variable Dir : string -> string.

Lemma mountOne_skips root m (w : World OS) :
  passesFilters m = false -> mountOne kernel Join Dir root m w = (Done tt, w).
Proof.
  unfold passesFilters, mountOne. intros H.
  destruct (alreadyMounted (Destination m)); [reflexivity |].
  destruct (otherType (Type_ m)); [reflexivity | discriminate H].
Qed.

Lemma mountAll_filter root mounts : forall w : World OS,
  mountAll kernel Join Dir root mounts w
  = mountAll kernel Join Dir root (List.filter passesFilters mounts) w.
Proof.
  unfold mountAll.
  induction mounts as [| m mounts IH]; intros w; [reflexivity |].
  cbn [forEach List.filter]. destruct (passesFilters m) eqn:Hp.
  - cbn [forEach]. unfold bind.
    destruct (mountOne kernel Join Dir root m w) as [[[] | e] w1];
      [apply IH | reflexivity].
  - erewrite bind_run by (apply mountOne_skips; exact Hp). apply IH.
Qed.

(** C6: an entry of the mount list whose destination is /dev, /proc or
    /sys or lies below one of them, and an entry whose type is not bind,
    tmpfs or overlay, makes the loop body return at once: no call
    reaches the kernel and the world is unchanged.  The loop over the
    whole list therefore does what the loop over the entries passing both
    filters does, so only those are mounted. *)
Theorem mount_loop_filters (root : string) :
  (forall (m : MountEntry) (w : World OS),
     underFixedMount (Destination m) \/ ~ mountableType (Type_ m) ->
     mountOne kernel Join Dir root m w = (Done tt, w))
  /\ (forall (mounts : list MountEntry) (w : World OS),
        mountAll kernel Join Dir root mounts w
        = mountAll kernel Join Dir root (List.filter passesFilters mounts) w)
  /\ (forall m : MountEntry,
        passesFilters m = true
        <-> ~ underFixedMount (Destination m) /\ mountableType (Type_ m)).
Proof.
  split; [| split].
  - intros m w H. apply mountOne_skips. unfold passesFilters.
    destruct H as [H | H].
    + apply alreadyMounted_spec in H. now rewrite H.
    + rewrite <- otherType_spec in H.
      destruct (otherType (Type_ m)); [apply andb_false_r | now exfalso].
  - intros mounts w. apply mountAll_filter.
  - intros m. unfold passesFilters.
    rewrite <- alreadyMounted_spec, <- otherType_spec.
    destruct (alreadyMounted (Destination m)), (otherType (Type_ m)); cbn;
      intuition congruence.
Qed.

End MountLoopFacts.

(** The theorem on the toy specification: the cgroup entry below /sys is
    skipped without a call. *)
Lemma mount_loop_filters_witness :
  mountOne toyKernel toyJoin id "/rootfs"
    {| Destination := "/sys/fs/cgroup"; Type_ := "cgroup"; Source := "cgroup";
       Options := [] |} (mkWorld toyState [])
  = (Done tt, mkWorld toyState []).
Proof.
  apply (proj1 (mount_loop_filters toyKernel toyJoin id "/rootfs")).
  left. unfold underFixedMount. cbn [Destination].
  right; right; right; right; right. exists "fs/cgroup". reflexivity.
Defined.

(** ** Read-only paths *)

Lemma isNotExist_ENOENT e : isNotExist e = true -> e = ENOENT.
Proof. destruct e; cbn; congruence. Qed.

Section ReadOnlyFacts.

Context {OS : Type}.
Variable kernel : forall R, Call R -> OS -> R * OS.
Variable Join : string -> string -> string.

Local Abbreviation settledIn := (settled kernel Join).

(** A settled path costs two queries and no mount. *)
Lemma readOnlyOne_settled root roPath (w : World OS) :
  settledIn root (os w) roPath ->
  exists (w' : World OS) (events : list Event),
    readOnlyOne kernel Join root roPath w = (Done tt, w')
    /\ trace w' = trace w ++ events
    /\ List.filter isMountEvent events = []
    /\ (quietQueries kernel -> os w' = os w).
Proof.
  unfold settled, readOnlyOne. intros H. rewrite bind_call.
  destruct (answer kernel (EvalSymlinks (Join root roPath)) (os w))
    as [e | target] eqn:E1.
  - rewrite H. eexists _, [Ev (EvalSymlinks (Join root roPath))].
    split; [reflexivity | split; [reflexivity | split; [reflexivity |]]].
    intros Hq. apply Hq.
  - rewrite bind_call. cbn [afterCall os].
    assert (quietQueries kernel ->
            after kernel (Statfs target)
              (after kernel (EvalSymlinks (Join root roPath)) (os w)) = os w)
      as Hquiet.
    { intros Hq. now rewrite (proj2 (Hq _ _)), (proj1 (Hq _ _)). }
    destruct (answer kernel (Statfs target) _) as [e | fs] eqn:E2.
    + rewrite H.
      eexists _, [Ev (EvalSymlinks (Join root roPath)); Ev (Statfs target)].
      split; [reflexivity | split; [| split; [reflexivity | exact Hquiet]]].
      cbn [afterCall trace]. now rewrite <- app_assoc.
    + apply Z.eqb_neq in H. rewrite H. cbn [negb].
      eexists _, [Ev (EvalSymlinks (Join root roPath)); Ev (Statfs target)].
      split; [reflexivity | split; [| split; [reflexivity | exact Hquiet]]].
      cbn [afterCall trace]. now rewrite <- app_assoc.
Qed.

(** A list of settled paths costs no mount when looking does not change
    the state. *)
Lemma readOnlyAll_settled root paths : forall w : World OS,
  quietQueries kernel ->
  Forall (settledIn root (os w)) paths ->
  exists (w' : World OS) (events : list Event),
    readOnlyAll kernel Join root paths w = (Done tt, w')
    /\ trace w' = trace w ++ events
    /\ List.filter isMountEvent events = []
    /\ os w' = os w.
Proof.
  unfold readOnlyAll.
  induction paths as [| p paths IH]; intros w Hq Hall.
  - exists w, []. cbn. rewrite app_nil_r. auto.
  - apply Forall_cons in Hall as [Hp Hall].
    destruct (readOnlyOne_settled root p w Hp)
      as (w1 & ev1 & Hrun1 & Ht1 & Hm1 & Hs1).
    specialize (Hs1 Hq).
    destruct (IH w1 Hq) as (w' & ev2 & Hrun2 & Ht2 & Hm2 & Hs2).
    { now rewrite Hs1. }
    exists w', (ev1 ++ ev2). cbn [forEach].
    erewrite bind_run by exact Hrun1. repeat split.
    + exact Hrun2.
    + now rewrite Ht2, Ht1, app_assoc.
    + now rewrite List.filter_app, Hm1, Hm2.
    + congruence.
Qed.

Section Steady.

Hypothesis Hquiet : quietQueries kernel.
Hypothesis Hsteady : steadyMounts kernel.

Local Abbreviation mounted := (mountedFrom kernel).

Lemma quiet_resolve path (s : OS) : after kernel (EvalSymlinks path) s = s.
Proof. apply Hquiet. Qed.

Lemma quiet_statfs path (s : OS) : after kernel (Statfs path) s = s.
Proof. apply Hquiet. Qed.

Tactic Notation "case_answer" "as" simple_intropattern(p) "eqn" ":" ident(E) :=
  match goal with
  | |- context [match answer ?k ?c ?s with _ => _ end] =>
      destruct (answer k c s) as p eqn:E
  end.

Ltac world :=
  unfold afterCall in *; cbn [os trace] in *;
  rewrite ?quiet_statfs, ?quiet_resolve in *.

Lemma mounted_trans (s1 s2 s3 : OS) :
  mounted s1 s2 -> mounted s2 s3 -> mounted s1 s3.
Proof.
  intros H12 H23. induction H23; [assumption | now constructor].
Qed.

Lemma mounted_once (s : OS) source target fstype flags data :
  mounted s (after kernel (Mount source target fstype flags data) s).
Proof. constructor. constructor. Qed.

Lemma resolve_mounted path (s s' : OS) :
  mounted s s' ->
  answer kernel (EvalSymlinks path) s' = answer kernel (EvalSymlinks path) s.
Proof.
  induction 1 as [| s' source target fstype flags data _ IH]; [reflexivity |].
  now rewrite (steady_resolve kernel Hsteady).
Qed.

Lemma settled_mounted root roPath (s s' : OS) :
  mounted s s' -> settledIn root s roPath -> settledIn root s' roPath.
Proof.
  induction 1 as [| s' source target fstype flags data _ IH]; [auto |].
  intros H. specialize (IH H). clear H. unfold settled in *.
  rewrite (steady_resolve kernel Hsteady).
  destruct (answer kernel (EvalSymlinks (Join root roPath)) s')
    as [e | tgt]; [assumption |].
  rewrite quiet_resolve in *.
  pose proof (steady_statfs kernel Hsteady source target fstype flags data
                tgt s') as Hst.
  destruct (answer kernel (Statfs tgt) s') as [e | fs].
  - now rewrite (Hst IH).
  - destruct (Hst IH) as (fs' & -> & Hro). exact Hro.
Qed.

(** The remount block: the state it leaves comes from mounts alone, and
    when it falls through, the last query saw the read-only flag. *)
Lemma remountReadOnly_inv target (w w' : World OS) out :
  remountReadOnly kernel target w = (out, w') ->
  mounted (os w) (os w')
  /\ (out = Done tt ->
      answer kernel
        (Mount target target EmptyString
           (Z.lor (Z.lor roPathFlags MS_BIND) MS_REC) EmptyString) (os w)
      = Some ENOENT
      \/ exists fs, answer kernel (Statfs target) (os w') = inr fs
                    /\ Z.land (Flags fs) ST_RDONLY <> 0).
Proof.
  unfold remountReadOnly. rewrite bind_call.
  case_answer as [e |] eqn:E1.
  - destruct (isNotExist e) eqn:Ee; intros H; injection H as <- <-;
      (split; [apply mounted_once |]).
    + intros _. left. f_equal. now apply isNotExist_ENOENT.
    + discriminate.
  - rewrite bind_call. world.
    case_answer as [e | fs] eqn:E2.
    + intros H. injection H as <- <-. world.
      split; [apply mounted_once | discriminate].
    + destruct (Z.eqb (Z.land (Flags fs) ST_RDONLY) 0) eqn:Ero.
      * rewrite bind_bind, bind_call. world.
        case_answer as [e |] eqn:E3.
        -- intros H. injection H as <- <-. world.
           split; [repeat constructor | discriminate].
        -- rewrite bind_ret, bind_call. world.
           case_answer as [e | fs3] eqn:E4.
           ++ intros H. injection H as <- <-. world.
              split; [repeat constructor | discriminate].
           ++ destruct (Z.eqb (Z.land (Flags fs3) ST_RDONLY) 0) eqn:Ero3;
                intros H; injection H as <- <-; world;
                (split; [repeat constructor |]).
              ** discriminate.
              ** intros _. right. exists fs3. split; [exact E4 |].
                 now apply Z.eqb_neq.
      * rewrite bind_ret, bind_call. world. rewrite E2, Ero.
        intros H. injection H as <- <-. world.
        split; [apply mounted_once |].
        intros _. right. exists fs. split; [exact E2 |]. now apply Z.eqb_neq.
Qed.

(** One iteration: the state it leaves comes from mounts alone, and when
    it falls through, its path is settled. *)
Lemma readOnlyOne_inv root roPath (w w' : World OS) out :
  readOnlyOne kernel Join root roPath w = (out, w') ->
  mounted (os w) (os w')
  /\ (out = Done tt -> settledIn root (os w') roPath).
Proof.
  unfold readOnlyOne. rewrite bind_call.
  case_answer as [e | target] eqn:E1.
  - destruct (isNotExist e) eqn:Ee; intros H; injection H as <- <-; world;
      (split; [constructor |]); [| discriminate].
    intros _. unfold settled. now rewrite E1.
  - rewrite bind_call. world.
    case_answer as [e | fs] eqn:E2.
    + destruct (isNotExist e) eqn:Ee; intros H; injection H as <- <-; world;
        (split; [constructor |]); [| discriminate].
      intros _. unfold settled. now rewrite E1, quiet_resolve, E2.
    + destruct (Z.eqb (Z.land (Flags fs) ST_RDONLY) 0) eqn:Ero; cbn [negb].
      * intros H. apply remountReadOnly_inv in H as [Hm Hdone]. world.
        split; [exact Hm |]. intros ->.
        destruct (Hdone eq_refl) as [Hmiss | (fs' & Hfs & Hro)].
        -- exfalso. eapply (steady_target kernel Hsteady); eassumption.
        -- unfold settled. rewrite (resolve_mounted _ _ _ Hm), E1.
           now rewrite quiet_resolve, Hfs.
      * intros H. injection H as <- <-. world. split; [constructor |].
        intros _. unfold settled. rewrite E1, quiet_resolve, E2.
        now apply Z.eqb_neq.
Qed.

(** The whole loop: when it completes, every path of the list is settled
    in the state it leaves. *)
Lemma readOnlyAll_inv root paths : forall (w w' : World OS) out,
  readOnlyAll kernel Join root paths w = (out, w') ->
  mounted (os w) (os w')
  /\ (out = Done tt -> Forall (settledIn root (os w')) paths).
Proof.
  unfold readOnlyAll.
  induction paths as [| p paths IH]; intros w w' out H.
  - injection H as <- <-. split; constructor.
  - cbn [forEach] in H. unfold bind in H.
    destruct (readOnlyOne kernel Join root p w) as [[[] | e] w1] eqn:E1.
    + apply readOnlyOne_inv in E1 as [Hm1 Hs1].
      apply IH in H as [Hm2 Hs2].
      split; [eapply mounted_trans; eassumption |].
      intros Hd. constructor; [| now apply Hs2].
      eapply settled_mounted; [exact Hm2 | now apply Hs1].
    + injection H as <- <-.
      apply readOnlyOne_inv in E1 as [Hm1 _]. split; [exact Hm1 | discriminate].
Qed.

(** A second pass after a completed first pass mounts nothing. *)
Lemma readOnlyAll_twice root paths (w w1 : World OS) :
  readOnlyAll kernel Join root paths w = (Done tt, w1) ->
  exists (w2 : World OS) (events : list Event),
    readOnlyAll kernel Join root paths w1 = (Done tt, w2)
    /\ trace w2 = trace w1 ++ events
    /\ List.filter isMountEvent events = []
    /\ os w2 = os w1.
Proof.
  intros H. apply readOnlyAll_inv in H as [_ Hs].
  apply readOnlyAll_settled; [exact Hquiet | now apply Hs].
Qed.

End Steady.


End ReadOnlyFacts.

Lemma toyKernel_quiet : quietQueries toyKernel.
Proof. intros path s. split; reflexivity. Qed.

Lemma toyKernel_steady : steadyMounts toyKernel.
Proof.
  constructor.
  - reflexivity.
  - intros source target fstype flags data path s.
    unfold answer, after. cbn [toyKernel fst snd Flags].
    intros Hro. eexists. split; [reflexivity |]. cbn [Flags].
    destruct (inList path (toy_readonly s)) eqn:Hin; [| now exfalso].
    destruct (negb (Z.eqb (Z.land flags MS_RDONLY) 0)); cbn [toy_readonly].
    + unfold inList in *. cbn [existsb]. rewrite Hin, orb_true_r. discriminate.
    + rewrite Hin. discriminate.
  - intros target flags fs s _. discriminate.
Qed.



(** ** Masked paths *)

Section MaskFacts.

Context {OS : Type}.
Variable kernel : forall R, Call R -> OS -> R * OS.
Variable Join : string -> string -> string.

Lemma isDevNull_run E targetinfo (w : World OS) :
  isDevNull kernel (E := E) targetinfo w
  = (Done (isNullDevice kernel targetinfo (os w)),
     if negb (Z.eqb (Z.land (fi_Mode targetinfo) ModeCharDevice) 0)
     then afterCall kernel (UnixStat os_DevNull) w else w).
Proof.
  unfold isDevNull, isNullDevice.
  destruct (negb (Z.eqb (Z.land (fi_Mode targetinfo) ModeCharDevice) 0));
    [| reflexivity].
  rewrite bind_call. cbn [andb].
  destruct (answer kernel (UnixStat os_DevNull) (os w)) as [e | nullStat];
    [reflexivity |].
  destruct (Z.eqb (Rdev (fi_Sys targetinfo)) (Rdev nullStat)); reflexivity.
Qed.

(** The overmount of a directory: nothing, or the bind of the empty
    directory, followed by a remount when the bind did not come out
    read-only. *)
Lemma maskDir_run roEmptyDir target isReadOnly hasContent accessible
    (w : World OS) :
  (isReadOnly = true -> hasContent && accessible = false ->
   maskDir kernel roEmptyDir target isReadOnly hasContent accessible w
   = (Done tt, w))
  /\ (isReadOnly = false \/ (hasContent = true /\ accessible = true) ->
      exists out (w' : World OS) (events : list Event),
        maskDir kernel roEmptyDir target isReadOnly hasContent accessible w
        = (out, w')
        /\ trace w' = trace w
                      ++ Ev (Mount roEmptyDir target "bind" maskDirFlags EmptyString)
                         :: events
        /\ (List.filter isMountEvent events = []
            \/ List.filter isMountEvent events
               = [Ev (Mount target target EmptyString (Z.lor maskDirFlags MS_REMOUNT) EmptyString)])).
Proof.
  unfold maskDir. split.
  - intros -> ->. reflexivity.
  - intros Hcase.
    assert (negb isReadOnly || hasContent && accessible = true) as ->.
    { destruct Hcase as [-> | [-> ->]]; [reflexivity | apply orb_true_r]. }
    rewrite bind_call.
    destruct (answer kernel (Mount roEmptyDir target "bind" maskDirFlags EmptyString) (os w))
      as [e |].
    + eexists _, _, []. split; [reflexivity |]. split; [reflexivity | now left].
    + rewrite bind_call. unfold afterCall. cbn [os trace].
      destruct (answer kernel (Statfs target) _) as [e | fs].
      * eexists _, _, [Ev (Statfs target)].
        split; [reflexivity |]. cbn [trace]. rewrite <- app_assoc.
        split; [reflexivity | now left].
      * destruct (Z.eqb (Z.land (Flags fs) ST_RDONLY) 0).
        -- rewrite bind_call. unfold afterCall. cbn [os trace].
           destruct (answer kernel (Mount target target EmptyString _ EmptyString) _);
             eexists _, _, [Ev (Statfs target);
                            Ev (Mount target target EmptyString
                                  (Z.lor maskDirFlags MS_REMOUNT) EmptyString)];
             (split; [reflexivity |]); cbn [trace]; rewrite <- !app_assoc;
             (split; [reflexivity | now right]).
        -- eexists _, _, [Ev (Statfs target)].
           split; [reflexivity |]. cbn [trace]. rewrite <- app_assoc.
           split; [reflexivity | now left].
Qed.

Lemma examineContent_queries target (w w' : World OS) out :
  examineContent kernel target w = (out, w') ->
  exists events, trace w' = trace w ++ events
                 /\ List.filter isMountEvent events = [].
Proof.
  unfold examineContent. rewrite bind_call.
  destruct (answer kernel (OpenDir target) (os w)) as [e |].
  - destruct (negb (isPermission e)); intros H; injection H as <- <-;
      exists [Ev (OpenDir target)]; split; reflexivity.
  - rewrite bind_call. unfold afterCall. cbn [os trace].
    destruct (answer kernel (Readdirnames target) _) as [e | names];
      intros H; injection H as <- <-;
      exists [Ev (OpenDir target); Ev (Readdirnames target)];
      cbn [trace]; rewrite <- app_assoc; split; reflexivity.
Qed.

(** The examination of a directory only looks. *)
Lemma examineDir_queries spec target (w w' : World OS) out :
  examineDir kernel spec target w = (out, w') ->
  exists events, trace w' = trace w ++ events
                 /\ List.filter isMountEvent events = [].
Proof.
  unfold examineDir. rewrite bind_call.
  destruct (answer kernel (Statfs target) (os w)) as [e | statfs].
  - intros H. injection H as <- <-. exists [Ev (Statfs target)].
    split; reflexivity.
  - rewrite bind_call. unfold afterCall at 1 2. cbn [os].
    destruct (answer kernel (UnixStat target) _) as [e | stat].
    + intros H. injection H as <- <-.
      exists [Ev (Statfs target); Ev (UnixStat target)].
      cbn [afterCall trace]. rewrite <- app_assoc. split; reflexivity.
    + unfold bind.
      destruct (examineContent kernel target _) as [[hasContent | e] w1] eqn:Ec;
        apply examineContent_queries in Ec as (events & Ht & Hm);
        intros H; injection H as <- <-;
        exists (Ev (Statfs target) :: Ev (UnixStat target) :: events);
        (split; [| exact Hm]); rewrite Ht; cbn [afterCall trace];
        now rewrite <- !app_assoc.
Qed.

(** The accessibility bit of the source is set for every directory. *)
Lemma accessible_bit Mode0 Uid0 Gid0 uidmap gidmap :
  isAccessible Mode0 Uid0 Gid0 uidmap gidmap = true.
Proof. unfold isAccessible. rewrite lor_S_IXOTH_nonzero. reflexivity. Qed.

Lemma examineContent_run target (w : World OS) hasContent :
  contentSeen kernel target (os w) = Some hasContent ->
  exists (w' : World OS) (looks : list Event),
    examineContent kernel target w = (Done hasContent, w')
    /\ trace w' = trace w ++ looks
    /\ List.filter isMountEvent looks = [].
Proof.
  unfold contentSeen, examineContent. rewrite bind_call.
  destruct (answer kernel (OpenDir target) (os w)) as [e |].
  - destruct (isPermission e); [| discriminate].
    intros H. injection H as <-. eexists _, [Ev (OpenDir target)].
    repeat split.
  - rewrite bind_call. unfold afterCall at 1 2. cbn [os].
    destruct (answer kernel (Readdirnames target) _) as [e | names];
      [discriminate |].
    intros H. injection H as <-.
    eexists _, [Ev (OpenDir target); Ev (Readdirnames target)].
    split; [reflexivity |]. cbn [afterCall trace]. rewrite <- app_assoc.
    split; reflexivity.
Qed.

(** The examination of a directory, by the answers of the kernel: the
    read-only bit is the one of [statfs], the content is what the
    directory shows, and the third fact is true whatever [stat] says. *)
Lemma examineDir_run spec target (w : World OS) statfs stat hasContent :
  answer kernel (Statfs target) (os w) = inr statfs ->
  answer kernel (UnixStat target) (after kernel (Statfs target) (os w))
  = inr stat ->
  contentSeen kernel target
    (after kernel (UnixStat target) (after kernel (Statfs target) (os w)))
  = Some hasContent ->
  exists (w' : World OS) (looks : list Event),
    examineDir kernel spec target w
    = (Done (negb (Z.eqb (Z.land (Flags statfs) MS_RDONLY) 0), hasContent, true),
       w')
    /\ trace w' = trace w ++ looks
    /\ List.filter isMountEvent looks = [].
Proof.
  intros Hstatfs Hstat Hcontent. unfold examineDir.
  rewrite bind_call, Hstatfs, bind_call. unfold afterCall at 1 2. cbn [os].
  rewrite Hstat, accessible_bit.
  destruct (examineContent_run target
              (afterCall kernel (UnixStat target)
                 (afterCall kernel (Statfs target) w)) hasContent Hcontent)
    as (w' & looks & Hrun & Ht & Hm).
  erewrite bind_run by exact Hrun.
  exists w', (Ev (Statfs target) :: Ev (UnixStat target) :: looks).
  split; [reflexivity |]. split; [| exact Hm].
  rewrite Ht. cbn [afterCall trace]. now rewrite <- !app_assoc.
Qed.

(** C5: for a masked path that exists, the mount the step performs, by
    what the kernel answers.  A directory whose file system reports the
    read-only flag and which shows no entry gets no mount call; a
    directory whose file system is writable, or which shows an entry,
    gets the empty directory bound over it with the read-only flag,
    followed at most by one remount of the target.  The permission
    bits, the owner and the group of the directory and the configured
    mappings play no part: the accessibility bit of the source is always
    set, so that a read-only directory with an entry is overmounted even
    when no mapped ID could read it, where the table of the claim has no
    mount.  Anything that is not a directory gets no mount call when it
    is the null device, and otherwise exactly the bind of /dev/null over
    it with the read-only flag. *)
Theorem masking_decision_table (spec : Spec) (roEmptyDir masked : string)
    (w : World OS) (targetinfo : FileInfo) :
  let t := Join (RootPath spec) masked in
  let target :=
    match answer kernel (EvalSymlinks t) (os w) with
    | inl _ => t
    | inr target => target
    end in
  let w1 := afterCall kernel (OsStat target)
              (afterCall kernel (EvalSymlinks t) w) in
  answer kernel (OsStat target) (after kernel (EvalSymlinks t) (os w))
  = inr targetinfo ->
  (IsDir targetinfo = true ->
   forall (statfs : Statfs_t) (stat : Stat_t) (hasContent : bool),
     answer kernel (Statfs target) (os w1) = inr statfs ->
     answer kernel (UnixStat target) (after kernel (Statfs target) (os w1))
     = inr stat ->
     contentSeen kernel target
       (after kernel (UnixStat target) (after kernel (Statfs target) (os w1)))
     = Some hasContent ->
     let isReadOnly := negb (Z.eqb (Z.land (Flags statfs) MS_RDONLY) 0) in
     exists (w2 : World OS) (looks : list Event),
       trace w2 = trace w ++ looks
       /\ List.filter isMountEvent looks = []
       /\ (isReadOnly = true -> hasContent = false ->
           maskOne kernel Join spec roEmptyDir masked w = (Done tt, w2))
       /\ (isReadOnly = false \/ hasContent = true ->
           exists out (w3 : World OS) (events : list Event),
             maskOne kernel Join spec roEmptyDir masked w = (out, w3)
             /\ trace w3 = trace w2
                           ++ Ev (Mount roEmptyDir target "bind" maskDirFlags
                                    EmptyString)
                              :: events
             /\ (List.filter isMountEvent events = []
                 \/ List.filter isMountEvent events
                    = [Ev (Mount target target EmptyString
                             (Z.lor maskDirFlags MS_REMOUNT) EmptyString)])))
  /\ (IsDir targetinfo = false ->
      let w2 :=
        if negb (Z.eqb (Z.land (fi_Mode targetinfo) ModeCharDevice) 0)
        then afterCall kernel (UnixStat os_DevNull) w1 else w1 in
      (isNullDevice kernel targetinfo (os w1) = true ->
       maskOne kernel Join spec roEmptyDir masked w = (Done tt, w2)
       /\ exists events, trace w2 = trace w ++ events
                         /\ List.filter isMountEvent events = [])
      /\ (isNullDevice kernel targetinfo (os w1) = false ->
          exists out,
            maskOne kernel Join spec roEmptyDir masked w
            = (out, afterCall kernel
                      (Mount os_DevNull target EmptyString maskFileFlags EmptyString) w2)))
  /\ MountFlags.hasFlag maskDirFlags MS_RDONLY = true
  /\ MountFlags.hasFlag maskFileFlags MS_RDONLY = true.
Proof.
  intros t target w1 Hstat.
  assert (maskOne kernel Join spec roEmptyDir masked w
            = (if IsDir targetinfo then
                 bind (examineDir kernel spec target)
                   (fun x => let '(isReadOnly, hasContent, accessible) := x in
                             maskDir kernel roEmptyDir target isReadOnly
                               hasContent accessible)
               else maskFile kernel targetinfo target) w1) as Hone.
  { unfold maskOne. rewrite bind_call. fold t. fold target.
    rewrite bind_call. unfold afterCall at 1 2. cbn [os].
    fold t. rewrite Hstat. reflexivity. }
  split; [| split; [| split; reflexivity]].
  - intros Hdir statfs stat hasContent Hstatfs Hmode Hcontent isReadOnly.
    rewrite Hdir in Hone.
    destruct (examineDir_run spec target w1 statfs stat hasContent
                Hstatfs Hmode Hcontent) as (w2 & looks & Hex & Ht & Hm).
    fold isReadOnly in Hex. erewrite bind_run in Hone by exact Hex.
    rewrite Hone.
    destruct (maskDir_run roEmptyDir target isReadOnly hasContent true w2)
      as [Hnone Hmount].
    exists w2, (Ev (EvalSymlinks t) :: Ev (OsStat target) :: looks).
    split.
    { rewrite Ht. unfold w1, afterCall. cbn [trace].
      now rewrite <- !app_assoc. }
    split; [exact Hm |]. split.
    + intros Hro Hc. apply Hnone; [exact Hro | now rewrite Hc].
    + intros Hcase. apply Hmount.
      destruct Hcase as [Hrw | Hc]; [now left | right; now split].
  - intros Hdir w2. rewrite Hdir in Hone. rewrite Hone.
    unfold maskFile. erewrite bind_run by apply isDevNull_run. fold w2.
    split.
    + intros ->. cbn [negb]. split; [reflexivity |].
      unfold w2, w1.
      destruct (negb (Z.eqb (Z.land (fi_Mode targetinfo) ModeCharDevice) 0)).
      * exists [Ev (EvalSymlinks t); Ev (OsStat target); Ev (UnixStat os_DevNull)].
        unfold afterCall. cbn [trace]. rewrite <- !app_assoc.
        split; reflexivity.
      * exists [Ev (EvalSymlinks t); Ev (OsStat target)].
        unfold afterCall. cbn [trace]. rewrite <- !app_assoc.
        split; reflexivity.
    + intros ->. cbn [negb]. rewrite bind_call.
      destruct (answer kernel (Mount os_DevNull target EmptyString maskFileFlags EmptyString)
                  (os w2)); eexists; reflexivity.
Qed.

End MaskFacts.

(** The theorem on a kernel where the masked path is a directory of mode
    0700 owned by root, on a read-only file system, with an entry: no
    mapping is configured, so no mapped ID could read it, and yet the
    empty directory is bound over it. *)
Lemma masking_decision_table_witness :
  accessibleBySpec 16832 0 0 (UIDMappings toySpec) (GIDMappings toySpec) = false
  /\ exists out (w' : World Toy) (looks events : list Event),
       maskOne privateDirs toyJoin toySpec "/bundle/empty" "/proc/kcore"
         (mkWorld readOnlyFull [])
       = (out, w')
       /\ trace w'
          = looks
            ++ Ev (Mount "/bundle/empty" "/rootfs/proc/kcore" "bind"
                     maskDirFlags EmptyString)
               :: events
       /\ List.filter isMountEvent looks = [].
Proof.
  split; [reflexivity |].
  destruct (masking_decision_table privateDirs toyJoin toySpec "/bundle/empty"
              "/proc/kcore" (mkWorld readOnlyFull [])
              (toyFileInfo readOnlyFull "/rootfs/proc/kcore") eq_refl)
    as (Hdir & _).
  destruct (Hdir eq_refl {| Flags := ST_RDONLY |}
              {| Dev := 1; Ino := 1; Mode := 16832; Uid := 0; Gid := 0;
                 Rdev := 0 |} true eq_refl eq_refl eq_refl)
    as (w2 & looks & Ht & Hlooks & _ & Hmount).
  destruct Hmount as (out & w3 & events & Hrun & Ht3 & _); [now right |].
  exists out, w3, looks, events. split; [exact Hrun |].
  split; [| exact Hlooks]. rewrite Ht3, Ht. reflexivity.
Defined.

(** ** Applying the resource limits *)

Lemma appliedLimits_app events events' :
  appliedLimits (events ++ events') = appliedLimits events ++ appliedLimits events'.
Proof.
  induction events as [| [R c] events IH]; [reflexivity |].
  destruct c; cbn; now rewrite ?IH.
Qed.

Section RlimitLaunchFacts.

Context {OS : Type}.
Variable kernel : forall R, Call R -> OS -> R * OS.
Variable ToUpper : string -> string.
Variable rangeRlimits : gmap Z Rlimit -> list (Z * Rlimit).

(** Names that agree after upper-casing parse alike. *)
Lemma parseLoop_upper limits : forall limits' parsed0 parsed,
  map (upperKey ToUpper) limits = map (upperKey ToUpper) limits' ->
  parseLoop ToUpper parsed0 limits = Ok parsed ->
  parseLoop ToUpper parsed0 limits' = Ok parsed.
Proof.
  induction limits as [| l limits IH]; intros [| l' limits'] parsed0 parsed Hk H;
    try discriminate Hk; [assumption |].
  cbn [map] in Hk. injection Hk as Hu Hs Hh Hk.
  cbn [parseLoop] in *. unfold parseStep in *. rewrite <- Hu, <- Hs, <- Hh.
  destruct (rlimitsMap !! ToUpper (rl_Type l)); [| discriminate H].
  now apply IH.
Qed.

(** One iteration of the loop of [setRlimits] without the two gates: the
    limit is read and then set. *)
Lemma setRlimit_applied entry (w w' : World OS) out :
  setRlimit kernel false false entry w = (out, w') ->
  exists events,
    trace w' = trace w ++ events
    /\ (forall x, In x (appliedLimits events) -> x = entry)
    /\ (out = Done tt -> appliedLimits events = [entry]).
Proof.
  destruct entry as [resource desired]. unfold setRlimit. rewrite bind_call.
  destruct (answer kernel (Getrlimit resource) (os w)) as [e | current].
  - intros H. injection H as <- <-. exists [Ev (Getrlimit resource)].
    split; [reflexivity |]. split; [intros x [] | discriminate].
  - rewrite !andb_false_r, bind_call. unfold afterCall. cbn [os trace].
    destruct (answer kernel (Setrlimit resource desired) _) as [e |];
      intros H; injection H as <- <-;
      exists [Ev (Getrlimit resource); Ev (Setrlimit resource desired)];
      cbn [trace]; rewrite <- app_assoc;
      (split; [reflexivity |]);
      (split; [intros x [<- | []]; reflexivity | ]);
      [discriminate | reflexivity].
Qed.

Lemma setRlimits_loop entries : forall (w w' : World OS) out,
  forEach (setRlimit kernel false false) entries w = (out, w') ->
  exists events,
    trace w' = trace w ++ events
    /\ (forall x, In x (appliedLimits events) -> In x entries)
    /\ (out = Done tt -> appliedLimits events = entries).
Proof.
  induction entries as [| entry entries IH]; intros w w' out H.
  - injection H as <- <-. exists []. rewrite app_nil_r.
    split; [reflexivity |]. split; [intros x [] | reflexivity].
  - cbn [forEach] in H. unfold bind in H.
    destruct (setRlimit kernel false false entry w) as [[[] | e] w1] eqn:E1;
      apply setRlimit_applied in E1 as (ev1 & Ht1 & Hin1 & Hd1).
    + apply IH in H as (ev2 & Ht2 & Hin2 & Hd2).
      exists (ev1 ++ ev2). rewrite Ht2, Ht1, app_assoc, appliedLimits_app.
      split; [reflexivity |]. split.
      * intros x Hx. apply in_app_or in Hx as [Hx | Hx].
        -- left. symmetry. now apply Hin1.
        -- right. now apply Hin2.
      * intros Hd. now rewrite (Hd1 eq_refl), (Hd2 Hd).
    + injection H as <- <-. exists ev1. split; [exact Ht1 |]. split.
      * intros x Hx. left. symmetry. now apply Hin1.
      * discriminate.
Qed.

(** The loop on a kernel that answers every query of a limit and
    accepts every new limit. *)
Lemma setRlimits_accepted entries : forall w : World OS,
  (forall s r, exists current, answer kernel (Getrlimit r) s = inr current) ->
  (forall s r d, answer kernel (Setrlimit r d) s = None) ->
  fst (forEach (setRlimit kernel false false) entries w) = Done tt.
Proof.
  induction entries as [| [r d] entries IH]; intros w Hget Hset;
    [reflexivity |].
  cbn [forEach]. unfold bind at 1. unfold setRlimit.
  rewrite bind_call. destruct (Hget (os w) r) as [current ->].
  rewrite !andb_false_r, bind_call, Hset. now apply IH.
Qed.

(** C10: the parser looks the upper-cased name up in the fixed table, so
    two lists that agree after upper-casing of the names parse to the
    same map; it fails exactly when some name is absent from the table
    after upper-casing; and when it succeeds, each resource holds the
    (soft, hard) pair of the last entry naming it, earlier ones being
    overwritten.  The launch, which runs with neither gate, sets only
    pairs of that map, that is, the last entry of each resource; when it
    returns without error it has set exactly the entries of the map, so
    the last pair of every resource named in the list has been applied;
    and it does return without error when every name is in the table and
    the kernel answers every query and accepts every limit. *)
Theorem rlimits_last_entry_wins (limits : list POSIXRlimit) :
  (forall (limits' : list POSIXRlimit) (parsed : gmap Z Rlimit),
     map (upperKey ToUpper) limits = map (upperKey ToUpper) limits' ->
     parseRlimits ToUpper (Some limits) = Ok parsed ->
     parseRlimits ToUpper (Some limits') = Ok parsed)
  /\ ((exists limit, limit ∈ limits
                     /\ rlimitsMap !! ToUpper (rl_Type limit) = None)
      <-> (exists e, parseRlimits ToUpper (Some limits) = Err e))
  /\ (forall parsed : gmap Z Rlimit,
        parseRlimits ToUpper (Some limits) = Ok parsed ->
        forall r : Z, parsed !! r = lastFor ToUpper r limits)
  /\ (forall (spec : Spec) (process : Process) (w w' : World OS) out,
        SpecProcess spec = Some process ->
        Rlimits process = limits ->
        (forall (m : gmap Z Rlimit) (r : Z) (d : Rlimit),
           In (r, d) (rangeRlimits m) -> m !! r = Some d) ->
        setRlimits kernel ToUpper rangeRlimits spec false false w = (out, w') ->
        exists events,
          trace w' = trace w ++ events
          /\ (forall (r : Z) (d : Rlimit),
                In (r, d) (appliedLimits events) ->
                lastFor ToUpper r limits = Some d)
          /\ (out = Done tt ->
              exists parsed : gmap Z Rlimit,
                parseRlimits ToUpper (Some limits) = Ok parsed
                /\ appliedLimits events = rangeRlimits parsed
                /\ ((forall (r : Z) (d : Rlimit),
                       parsed !! r = Some d -> In (r, d) (rangeRlimits parsed)) ->
                    forall (r : Z) (d : Rlimit),
                      lastFor ToUpper r limits = Some d ->
                      In (r, d) (appliedLimits events))))
  /\ (forall (spec : Spec) (process : Process) (w : World OS),
        SpecProcess spec = Some process ->
        Rlimits process = limits ->
        (forall limit, limit ∈ limits ->
                       rlimitsMap !! ToUpper (rl_Type limit) <> None) ->
        (forall s r, exists current,
                       answer kernel (Getrlimit r) s = inr current) ->
        (forall s r d, answer kernel (Setrlimit r d) s = None) ->
        fst (setRlimits kernel ToUpper rangeRlimits spec false false w)
        = Done tt).
Proof.
  split; [| split; [| split; [| split]]].
  - intros limits' parsed. apply parseLoop_upper.
  - apply (parseLoop_unknown ToUpper limits ∅).
  - intros parsed H r. cbn [parseRlimits] in H.
    rewrite (parseLoop_ok ToUpper limits ∅ parsed H r).
    destruct (lastFor ToUpper r limits); [reflexivity | apply lookup_empty].
  - intros spec process w w' out Hp Hl Hrange. unfold setRlimits.
    rewrite Hp. cbn [fmap option_fmap option_map]. rewrite Hl.
    destruct (parseRlimits ToUpper (Some limits)) as [parsed | e] eqn:Hparse.
    + intros H. apply setRlimits_loop in H as (events & Ht & Hin & Hall).
      assert (forall r, parsed !! r = lastFor ToUpper r limits) as Hlast.
      { intros r. cbn [parseRlimits] in Hparse.
        rewrite (parseLoop_ok ToUpper limits ∅ parsed Hparse r).
        destruct (lastFor ToUpper r limits); [reflexivity | apply lookup_empty]. }
      exists events. split; [exact Ht |]. split.
      * intros r d Hrd. apply Hin, Hrange in Hrd. now rewrite <- Hlast.
      * intros Hdone. exists parsed. split; [reflexivity |].
        split; [now apply Hall |].
        intros Henum r d Hrd. rewrite (Hall Hdone).
        apply Henum. now rewrite Hlast.
    + intros H. injection H as <- <-. exists []. rewrite app_nil_r.
      split; [reflexivity |]. split; [intros r d [] | discriminate].
  - intros spec process w Hp Hl Hknown Hget Hset. unfold setRlimits.
    rewrite Hp. cbn [fmap option_fmap option_map]. rewrite Hl.
    destruct (parseRlimits ToUpper (Some limits)) as [parsed | e] eqn:Hparse.
    + now apply setRlimits_accepted.
    + exfalso.
      destruct (proj2 (parseLoop_unknown ToUpper limits ∅))
        as (limit & Hin & Hnone); [now exists e |].
      exact (Hknown limit Hin Hnone).
Qed.

End RlimitLaunchFacts.

(** The theorem with ASCII upper-casing on the toy kernel: of two
    entries for the open-file limit, spelled in different case, the
    second is the one the launch sets. *)
Lemma rlimits_last_entry_wins_witness :
  let run := setRlimits toyKernel asciiToUpper map_to_list twoNofileSpec
               false false (mkWorld toyState []) in
  fst run = Done tt
  /\ In (RLIMIT_NOFILE, {| Cur := 4096; Max := 8192 |})
       (appliedLimits (trace (snd run)))
  /\ forall d : Rlimit,
       In (RLIMIT_NOFILE, d) (appliedLimits (trace (snd run))) ->
       d = {| Cur := 4096; Max := 8192 |}.
Proof.
  intros run.
  destruct (rlimits_last_entry_wins toyKernel asciiToUpper map_to_list twoNofile)
    as (_ & _ & _ & Hset & Hdone).
  assert (fst run = Done tt) as Hrun.
  { apply (Hdone twoNofileSpec _ (mkWorld toyState []) eq_refl eq_refl).
    - intros limit Hin.
      apply elem_of_cons in Hin as [-> | Hin]; [vm_compute; discriminate |].
      apply elem_of_cons in Hin as [-> | Hin]; [vm_compute; discriminate |].
      inversion Hin.
    - intros s r. eexists. reflexivity.
    - reflexivity. }
  destruct (Hset twoNofileSpec _ (mkWorld toyState []) (snd run) (fst run)
              eq_refl eq_refl)
    as (events & Ht & Hbound & Hall).
  { intros m r d Hin. apply elem_of_map_to_list. now apply list_elem_of_In. }
  { apply surjective_pairing. }
  cbn [trace app] in Ht. rewrite Ht.
  destruct (Hall Hrun) as (parsed & _ & _ & Hevery).
  split; [exact Hrun |]. split.
  - apply Hevery; [| reflexivity].
    intros r d Hrd. apply list_elem_of_In. now apply elem_of_map_to_list.
  - intros d Hd. apply Hbound in Hd. vm_compute in Hd. now injection Hd.
Defined.

(** ** Applying the capabilities *)

Section CapabilityLaunchFacts.

Context {OS : Type}.
Variable kernel : forall R, Call R -> OS -> R * OS.
Variable knownCaps : list Z.
Variable capString : Z -> string.
Variable EqualFold : string -> string -> bool.
Variable capOrder : list CapType.

Local Abbreviation resolvedTo := (resolved knownCaps capString EqualFold).

(** Whatever [setCapabilities] applies is the result of the loops, run
    from the empty object against the capabilities it loaded. *)
Lemma setCapabilities_applied process keepCaps (w w' : World OS) out :
  setCapabilities kernel knownCaps capString EqualFold capOrder process
    keepCaps w = (out, w') ->
  exists events,
    trace w' = trace w ++ events
    /\ forall caps, In caps (appliedCaps events) ->
       exists currentCaps,
         answer kernel CapLoad (after kernel CapNewPid2 (os w)) = inr currentCaps
         /\ capLoop knownCaps capString EqualFold capOrder currentCaps
              emptyCaps (ProcessCapabilities process) keepCaps = Ok caps.
Proof.
  unfold setCapabilities. rewrite bind_call.
  destruct (answer kernel CapNewPid2 (os w)) as [e |].
  { intros H. injection H as <- <-. exists [Ev CapNewPid2].
    split; [reflexivity | intros caps []]. }
  rewrite bind_call. unfold afterCall at 1 2. cbn [os].
  destruct (answer kernel CapLoad _) as [e | currentCaps] eqn:Eload.
  { intros H. injection H as <- <-. exists [Ev CapNewPid2; Ev CapLoad].
    cbn [afterCall trace]. rewrite <- app_assoc.
    split; [reflexivity | intros caps []]. }
  rewrite bind_call. unfold afterCall at 1 2. cbn [os].
  destruct (answer kernel CapNewPid2 _) as [e |].
  { intros H. injection H as <- <-.
    exists [Ev CapNewPid2; Ev CapLoad; Ev CapNewPid2].
    cbn [afterCall trace]. rewrite <- !app_assoc.
    split; [reflexivity | intros caps []]. }
  destruct (capLoop _ _ _ _ _ _ _ _) as [caps0 | e] eqn:Eloop.
  - rewrite bind_call. unfold afterCall. cbn [os trace].
    destruct (answer kernel (CapApply caps0) _) as [e |];
      intros H; injection H as <- <-;
      exists [Ev CapNewPid2; Ev CapLoad; Ev CapNewPid2; Ev (CapApply caps0)];
      cbn [trace]; rewrite <- !app_assoc;
      (split; [reflexivity |]);
      intros caps [<- | []]; exists currentCaps;
      (split; [reflexivity | assumption]).
  - intros H. injection H as <- <-.
    exists [Ev CapNewPid2; Ev CapLoad; Ev CapNewPid2].
    cbn [afterCall trace]. rewrite <- !app_assoc.
    split; [reflexivity | intros caps []].
Qed.

(** C1: whatever capability object [setCapabilities] applies, a
    capability is in one of its sets only if the specification lists it
    for that set or it is a keep capability that the loaded capabilities
    of the current process contain in that same set.  So a keep
    capability the current process lacks in a set is in the applied set
    only when the specification itself puts it there. *)
Theorem keep_needs_current_capability process keepCaps (w w' : World OS) out :
  setCapabilities kernel knownCaps capString EqualFold capOrder process
    keepCaps w = (out, w') ->
  exists events,
    trace w' = trace w ++ events
    /\ forall caps, In caps (appliedCaps events) ->
       exists currentCaps,
         answer kernel CapLoad (after kernel CapNewPid2 (os w)) = inr currentCaps
         /\ forall (capType : CapType) (x : Z),
              (x ∈ capsOf caps capType ->
               resolvedTo (capMap (ProcessCapabilities process) capType) x
               \/ (resolvedTo keepCaps x /\ x ∈ capsOf currentCaps capType))
              /\ (x ∉ capsOf currentCaps capType ->
                  x ∈ capsOf caps capType ->
                  resolvedTo (capMap (ProcessCapabilities process) capType) x).
Proof.
  intros H. apply setCapabilities_applied in H as (events & Ht & Happlied).
  exists events. split; [exact Ht |].
  intros caps Hin. destruct (Happlied caps Hin) as (currentCaps & Hload & Hloop).
  exists currentCaps. split; [exact Hload |].
  intros capType x.
  pose proof (capLoop_elem knownCaps capString EqualFold capOrder currentCaps
                (ProcessCapabilities process) keepCaps emptyCaps caps Hloop
                capType x) as Hx.
  assert (x ∉ capsOf emptyCaps capType) as Hempty
    by (destruct capType; apply not_elem_of_empty).
  split.
  - intros Hc. apply Hx in Hc as [Hc | [_ Hc]]; [contradiction | exact Hc].
  - intros Hnot Hc. apply Hx in Hc as [Hc | [_ [Hc | [_ Hc]]]];
      [contradiction | exact Hc | contradiction].
Qed.

(** C2, amended: no capability of the specification reaches the
    inheritable set that [setCapabilities] applies; the set holds exactly
    the keep capabilities that the current process has in its own
    inheritable set.  It is empty when the keep list is empty (target
    UID 0) or when the current process has an empty inheritable set. *)
Theorem inheritable_only_kept process keepCaps (w w' : World OS) out :
  setCapabilities kernel knownCaps capString EqualFold capOrder process
    keepCaps w = (out, w') ->
  exists events,
    trace w' = trace w ++ events
    /\ forall caps, In caps (appliedCaps events) ->
       exists currentCaps,
         answer kernel CapLoad (after kernel CapNewPid2 (os w)) = inr currentCaps
         /\ (forall x : Z,
               x ∈ inheritable caps ->
               resolvedTo keepCaps x /\ x ∈ inheritable currentCaps)
         /\ (INHERITABLE ∈ capOrder ->
             forall x : Z,
               resolvedTo keepCaps x -> x ∈ inheritable currentCaps ->
               x ∈ inheritable caps)
         /\ (keepCaps = [] -> inheritable caps = ∅)
         /\ (inheritable currentCaps = ∅ -> inheritable caps = ∅).
Proof.
  intros H. apply setCapabilities_applied in H as (events & Ht & Happlied).
  exists events. split; [exact Ht |].
  intros caps Hin. destruct (Happlied caps Hin) as (currentCaps & Hload & Hloop).
  exists currentCaps. split; [exact Hload |].
  pose proof (fun x =>
                capLoop_elem knownCaps capString EqualFold capOrder currentCaps
                  (ProcessCapabilities process) keepCaps emptyCaps caps Hloop
                  INHERITABLE x) as Hx.
  cbn [capsOf capMap emptyCaps inheritable] in Hx.
  assert (forall x : Z,
            x ∈ inheritable caps ->
            resolvedTo keepCaps x /\ x ∈ inheritable currentCaps) as Hsub.
  { intros x Hc. apply Hx in Hc as [Hc | [_ [Hc | Hc]]].
    - now apply not_elem_of_empty in Hc.
    - now apply resolved_nil in Hc.
    - exact Hc. }
  split; [exact Hsub |]. split; [| split].
  - intros Hord x Hk Hc. apply Hx. right. split; [exact Hord |]. right. now split.
  - intros ->. apply set_eq. intros x. split.
    + intros Hc. apply Hsub in Hc as [Hc _]. now apply resolved_nil in Hc.
    + intros Hc. now apply not_elem_of_empty in Hc.
  - intros Hcur. apply set_eq. intros x. split.
    + intros Hc. apply Hsub in Hc as [_ Hc]. now rewrite Hcur in Hc.
    + intros Hc. now apply not_elem_of_empty in Hc.
Qed.

End CapabilityLaunchFacts.

(** C1 on the toy kernel, whose process holds no capability. *)
Lemma keep_needs_current_capability_witness :
  exists events,
    trace (snd (setCapabilities toyKernel linuxKnownCaps linuxCapString
                  asciiEqualFold toyCapOrder toyProcess ["CAP_SETUID"]
                  (mkWorld toyState [])))
    = [] ++ events
    /\ forall caps, In caps (appliedCaps events) ->
       exists currentCaps,
         answer toyKernel CapLoad (after toyKernel CapNewPid2 toyState)
         = inr currentCaps
         /\ forall (capType : CapType) (x : Z),
              (x ∈ capsOf caps capType ->
               resolved linuxKnownCaps linuxCapString asciiEqualFold
                 (capMap (ProcessCapabilities toyProcess) capType) x
               \/ (resolved linuxKnownCaps linuxCapString asciiEqualFold
                     ["CAP_SETUID"] x
                   /\ x ∈ capsOf currentCaps capType))
              /\ (x ∉ capsOf currentCaps capType ->
                  x ∈ capsOf caps capType ->
                  resolved linuxKnownCaps linuxCapString asciiEqualFold
                    (capMap (ProcessCapabilities toyProcess) capType) x).
Proof.
  apply (keep_needs_current_capability toyKernel linuxKnownCaps linuxCapString
           asciiEqualFold toyCapOrder toyProcess ["CAP_SETUID"]
           (mkWorld toyState [])
           (snd (setCapabilities toyKernel linuxKnownCaps linuxCapString
                   asciiEqualFold toyCapOrder toyProcess ["CAP_SETUID"]
                   (mkWorld toyState [])))
           (Done tt)).
  vm_compute. reflexivity.
Defined.

(** C2 on the toy kernel with target UID 0: the keep list is empty and
    the inheritable set applied is empty. *)
Lemma inheritable_only_kept_witness :
  exists events,
    trace (snd (setCapabilities toyKernel linuxKnownCaps linuxCapString
                  asciiEqualFold toyCapOrder toyProcess (keepCapsFor 0)
                  (mkWorld withSetuid [])))
    = [] ++ events
    /\ forall caps, In caps (appliedCaps events) -> inheritable caps = ∅.
Proof.
  destruct (inheritable_only_kept toyKernel linuxKnownCaps linuxCapString
              asciiEqualFold toyCapOrder toyProcess (keepCapsFor 0)
              (mkWorld withSetuid [])
              (snd (setCapabilities toyKernel linuxKnownCaps linuxCapString
                      asciiEqualFold toyCapOrder toyProcess (keepCapsFor 0)
                      (mkWorld withSetuid [])))
              (Done tt))
    as (events & Ht & Happlied).
  - vm_compute. reflexivity.
  - exists events. split; [exact Ht |].
    intros caps Hin. destruct (Happlied caps Hin) as (cur & _ & _ & _ & Hnil & _).
    now apply Hnil.
Defined.

(** C2 as stated fails: for a target UID other than 0 the keep list is
    CAP_SETUID, and when the current process holds CAP_SETUID in its
    inheritable set, the object applied has it in the inheritable set. *)
Lemma inheritable_not_always_empty :
  let run := setCapabilities toyKernel linuxKnownCaps linuxCapString
               asciiEqualFold toyCapOrder toyProcess
               (keepCapsFor (UID (ProcessUser toyProcess)))
               (mkWorld withSetuid []) in
  fst run = Done tt
  /\ map (fun caps => bool_decide (CAP_SETUID ∈ inheritable caps))
         (appliedCaps (trace (snd run))) = [true]
  /\ map (fun caps => bool_decide (inheritable caps = ∅))
         (appliedCaps (trace (snd run))) = [false].
Proof.
  vm_compute. repeat split.
Qed.

(** * Further properties of the source *)

(** ** What a program emits and how it fails *)

Section Emits.

Context {OS : Type}.
Variable kernel : forall R, Call R -> OS -> R * OS.

Lemma emitsOnly_ret E A allowed (a : A) :
  emitsOnly allowed (ret a : M OS E A).
Proof. intros w. exists []. cbn. rewrite app_nil_r. auto. Qed.

Lemma emitsOnly_fail E A allowed (e : E) :
  emitsOnly allowed (fail e : M OS E A).
Proof. intros w. exists []. cbn. rewrite app_nil_r. auto. Qed.

Lemma emitsOnly_call E R allowed (c : Call R) :
  allowed (Ev c) = true -> emitsOnly allowed (call kernel (E := E) c).
Proof.
  intros H w. exists [Ev c]. rewrite call_run. cbn. auto.
Qed.

Lemma emitsOnly_bind E A B allowed (c : M OS E A) (k : A -> M OS E B) :
  emitsOnly allowed c -> (forall a, emitsOnly allowed (k a)) ->
  emitsOnly allowed (bind c k).
Proof.
  intros Hc Hk w. unfold bind. destruct (Hc w) as (ev1 & Ht1 & Ha1).
  destruct (c w) as [[a | e] w1]; cbn [snd] in *.
  - destruct (Hk a w1) as (ev2 & Ht2 & Ha2). exists (ev1 ++ ev2).
    rewrite Ht2, Ht1, app_assoc. split; [reflexivity |].
    apply Forall_app. now split.
  - exists ev1. now split.
Qed.

Lemma emitsOnly_forEach E A allowed (body : A -> M OS E unit) l :
  (forall x, emitsOnly allowed (body x)) -> emitsOnly allowed (forEach body l).
Proof.
  intros H. induction l as [| x l IH]; cbn [forEach].
  - apply emitsOnly_ret.
  - apply emitsOnly_bind; [apply H | intros _; exact IH].
Qed.

Lemma emitsOnly_withHandle A allowed (c : M OS error A) :
  emitsOnly allowed c -> emitsOnly allowed (withHandle c).
Proof.
  intros H w. destruct (H w) as (events & Ht & Ha). exists events.
  unfold withHandle. destruct (c w) as [[a | e] w1]; now split.
Qed.

Lemma emitsOnly_attempt E E' A allowed (c : M OS E A) :
  emitsOnly allowed c -> emitsOnly allowed (attempt c : M OS E' _).
Proof.
  intros H w. destruct (H w) as (events & Ht & Ha). exists events.
  unfold attempt. destruct (c w) as [o w1]. now split.
Qed.

Lemma emitsOnly_weaken E A (allowed allowed' : Event -> bool) (c : M OS E A) :
  (forall e, allowed e = true -> allowed' e = true) ->
  emitsOnly allowed c -> emitsOnly allowed' c.
Proof.
  intros Himp H w. destruct (H w) as (events & Ht & Ha). exists events.
  split; [exact Ht |]. eapply Forall_impl; [exact Ha | exact Himp].
Qed.

(** The events a run adds, given what the program emits. *)
Lemma emitsOnly_run E A allowed (c : M OS E A) (w w' : World OS) out :
  emitsOnly allowed c -> c w = (out, w') ->
  exists events,
    trace w' = trace w ++ events /\ Forall (fun e => allowed e = true) events.
Proof.
  intros H Hrun. destruct (H w) as (events & Ht & Ha).
  rewrite Hrun in Ht. now exists events.
Qed.

Lemma failsOnly_ret E A Q (a : A) : failsOnly Q (ret a : M OS E A).
Proof. intros w e w' H. discriminate H. Qed.

Lemma failsOnly_call E R Q (c : Call R) :
  failsOnly Q (call kernel (E := E) c).
Proof. intros w e w' H. rewrite call_run in H. discriminate H. Qed.

Lemma failsOnly_bind E A B Q (c : M OS E A) (k : A -> M OS E B) :
  failsOnly Q c -> (forall a, failsOnly Q (k a)) -> failsOnly Q (bind c k).
Proof.
  intros Hc Hk w e w' H. unfold bind in H.
  destruct (c w) as [[a | e1] w1] eqn:Ec.
  - now apply (Hk a w1).
  - injection H as <- <-. now apply (Hc w).
Qed.

Lemma failsOnly_forEach E A Q (body : A -> M OS E unit) l :
  (forall x, In x l -> failsOnly Q (body x)) -> failsOnly Q (forEach body l).
Proof.
  induction l as [| x l IH]; intros H; cbn [forEach].
  - apply failsOnly_ret.
  - apply failsOnly_bind; [apply H; now left |].
    intros _. apply IH. intros y Hy. apply H. now right.
Qed.

(** A program that ends as [Done] after a bind ran both of its parts. *)
Lemma bind_cases E A B (c : M OS E A) (k : A -> M OS E B)
    (w w' : World OS) out :
  bind c k w = (out, w') ->
  (exists e, c w = (Fail e, w') /\ out = Fail e)
  \/ (exists a w1, c w = (Done a, w1) /\ k a w1 = (out, w')).
Proof.
  unfold bind. destruct (c w) as [[a | e] w1]; intros H.
  - right. now exists a, w1.
  - left. injection H as <- <-. now exists e.
Qed.

Lemma bind_done E A B (c : M OS E A) (k : A -> M OS E B)
    (w w' : World OS) b :
  bind c k w = (Done b, w') ->
  exists a w1, c w = (Done a, w1) /\ k a w1 = (Done b, w').
Proof.
  unfold bind. destruct (c w) as [[a | e] w1]; [eauto | discriminate].
Qed.

End Emits.

(** ** The calls of the mount construction *)

Lemma encodeAxes_keeps_common f :
  Z.land (encodeAxes commonFlags f) commonFlags = commonFlags
  /\ Z.land (Z.lor (encodeAxes commonFlags f) MS_REMOUNT) commonFlags
     = commonFlags.
Proof.
  unfold encodeAxes.
  destruct (f MountFlags.AxRo), (f MountFlags.AxSuid), (f MountFlags.AxDev),
    (f MountFlags.AxExec); split; reflexivity.
Qed.

Section SetupFacts.

Context {OS : Type}.
Variable kernel : forall R, Call R -> OS -> R * OS.
Variable Join : string -> string -> string.
Variable Dir : string -> string.

Ltac emits_by tac :=
  repeat first
    [ apply emitsOnly_ret
    | apply emitsOnly_fail
    | apply emitsOnly_call; tac
    | apply emitsOnly_withHandle
    | apply emitsOnly_bind; [| intros ?]
    | apply emitsOnly_forEach; intros ?
    | match goal with
      | |- emitsOnly _ (match ?x with _ => _ end) => destruct x
      | |- emitsOnly _ (if ?b then _ else _) => destruct b
      end ].

Ltac emits := emits_by ltac:(reflexivity).

Ltac emits_seq n :=
  match n with
  | O => idtac
  | S ?k => apply emitsOnly_bind; [| intros ?; cbv beta; emits_seq k]
  end.

Lemma makeReadOnly_sys_emits allowed mntpoint :
  allowed (Ev (Statfs mntpoint)) = true ->
  allowed (Ev (Mount mntpoint mntpoint "bind" (Z.lor sysFlags MS_REMOUNT)
                 EmptyString)) = true ->
  emitsOnly allowed (makeReadOnly kernel mntpoint sysFlags).
Proof. intros H1 H2. unfold makeReadOnly. emits_by ltac:(assumption). Qed.

Lemma bindDev_emits root :
  emitsOnly (fun e => isSetupCall e && isReadOnlyBind e)
    (bindDev kernel Join root).
Proof. unfold bindDev, bindHostDir. emits. Qed.

Lemma bindProc_emits root :
  emitsOnly (fun e => isSetupCall e && isReadOnlyBind e)
    (bindProc kernel Join root).
Proof. unfold bindProc, bindHostDir. emits. Qed.

Lemma bindSys_emits root :
  emitsOnly (fun e => isSetupCall e && isReadOnlyBind e)
    (bindSys kernel Join root).
Proof.
  unfold bindSys, bindHostDir.
  emits; apply makeReadOnly_sys_emits; reflexivity.
Qed.

Lemma bindSysMounts_emits root :
  emitsOnly (fun e => isSetupCall e && isReadOnlyBind e)
    (bindSysMounts kernel Join root).
Proof.
  unfold bindSysMounts, bindSysMount.
  emits; apply makeReadOnly_sys_emits; reflexivity.
Qed.

Lemma readOnlyAll_emits root paths :
  emitsOnly (fun e => isSetupCall e && isReadOnlyBind e)
    (readOnlyAll kernel Join root paths).
Proof.
  unfold readOnlyAll, readOnlyOne, remountReadOnly. emits.
Qed.

Lemma isDevNull_emits E allowed targetinfo :
  allowed (Ev (UnixStat os_DevNull)) = true ->
  emitsOnly allowed (isDevNull kernel (E := E) targetinfo).
Proof. intros H. unfold isDevNull. emits_by ltac:(assumption). Qed.

Lemma maskAll_emits spec bundlePath :
  emitsOnly (fun e => isSetupCall e && isReadOnlyBind e)
    (maskAll kernel Join spec bundlePath).
Proof.
  unfold maskAll, maskOne, examineDir, examineContent, maskDir, maskFile.
  emits; try (apply isDevNull_emits; reflexivity).
  all: destruct p as [[? ?] ?]; emits.
Qed.

Lemma mountOne_emits root m :
  emitsOnly (fun e => isSetupCall e && keepsCommonFlags e)
    (mountOne kernel Join Dir root m).
Proof.
  unfold mountOne.
  destruct (alreadyMounted (Destination m)); [apply emitsOnly_ret |].
  destruct (otherType (Type_ m)); [apply emitsOnly_ret |].
  apply emitsOnly_bind; [unfold examineSource; emits | intros srcinfo].
  apply emitsOnly_bind; [unfold resolveTarget; emits | intros [target err]].
  apply emitsOnly_bind; [unfold ensureTarget; emits | intros _].
  rewrite mountFlags_encoded.
  apply emitsOnly_bind; [unfold doMount | intros _; unfold checkFlags];
    emits_by ltac:(cbn [isSetupCall keepsCommonFlags andb];
                   rewrite ?(proj1 (encodeAxes_keeps_common _)),
                     ?(proj2 (encodeAxes_keeps_common _));
                   reflexivity).
Qed.

Lemma mountAll_emits root mounts :
  emitsOnly (fun e => isSetupCall e && keepsCommonFlags e)
    (mountAll kernel Join Dir root mounts).
Proof.
  unfold mountAll. apply emitsOnly_forEach. intros m. apply mountOne_emits.
Qed.

Lemma setup_emits spec bundlePath :
  emitsOnly isSetupCall (setupChrootBindMounts kernel Join Dir spec bundlePath).
Proof.
  unfold setupChrootBindMounts.
  emits_seq 6%nat;
    (eapply emitsOnly_weaken;
     [| first [ apply bindDev_emits | apply bindProc_emits | apply bindSys_emits
              | apply bindSysMounts_emits | apply mountAll_emits
              | apply readOnlyAll_emits | apply maskAll_emits ]]);
    cbv beta; intros e He; now apply andb_true_iff in He.
Qed.

(** X1: whatever the specification and the kernel, the mount construction
    only mounts, queries the file system and creates mount points: it
    never unmounts, never changes the root, the identity, the
    capabilities or the resource limits of the process, and never
    launches anything. *)
Theorem setup_only_mounts_and_looks spec bundlePath :
  emitsOnly
    (fun e => isSetupCall e && negb (isUnmountEvent e) && negb (isKeyCall e)
              && negb (isRlimitCall e))
    (setupChrootBindMounts kernel Join Dir spec bundlePath).
Proof.
  eapply emitsOnly_weaken; [| apply setup_emits].
  intros [R c] H. destruct c; cbn in H |- *; congruence.
Qed.

(** X2: every mount call of the fixed-purpose steps (the binds of /dev,
    /proc and /sys, the binds of the host mounts below /sys, the
    read-only paths and the masked paths) is a direct mount whose flags
    carry both MS_BIND and MS_RDONLY; none goes through the mount
    helper. *)
Theorem fixed_mounts_are_read_only_binds spec bundlePath :
  emitsOnly isReadOnlyBind (bindDev kernel Join (RootPath spec))
  /\ emitsOnly isReadOnlyBind (bindProc kernel Join (RootPath spec))
  /\ emitsOnly isReadOnlyBind (bindSys kernel Join (RootPath spec))
  /\ emitsOnly isReadOnlyBind (bindSysMounts kernel Join (RootPath spec))
  /\ emitsOnly isReadOnlyBind
       (readOnlyAll kernel Join (RootPath spec) (ReadonlyPaths spec))
  /\ emitsOnly isReadOnlyBind (maskAll kernel Join spec bundlePath).
Proof.
  repeat split;
    (eapply emitsOnly_weaken;
     [| first [ apply bindDev_emits | apply bindProc_emits | apply bindSys_emits
              | apply bindSysMounts_emits | apply readOnlyAll_emits
              | apply maskAll_emits ]]);
    cbv beta; intros e He; now apply andb_true_iff in He.
Qed.

(** X3: whatever option tokens an entry carries, every direct mount call
    of the generic loop, the bind itself and the remount that follows,
    is requested with MS_BIND, MS_REC and MS_PRIVATE: the options cannot
    clear them. *)
Theorem generic_mounts_stay_private_binds root mounts :
  emitsOnly keepsCommonFlags (mountAll kernel Join Dir root mounts).
Proof.
  eapply emitsOnly_weaken; [| apply mountAll_emits].
  cbv beta. intros e He. now apply andb_true_iff in He.
Qed.

End SetupFacts.

(** ** How the mount construction fails *)

Section SetupFailureFacts.

Context {OS : Type}.
Variable kernel : forall R, Call R -> OS -> R * OS.
Variable Join : string -> string -> string.
Variable Dir : string -> string.
Variable root : string.
Variable mounts : list MountEntry.

Local Abbreviation Q := (@handleOrSymlink OS root mounts).

Lemma failsOnly_failSetup A (e : error) :
  failsOnly Q (failSetup e : M OS SetupFailure A).
Proof. intros w f w' H. injection H as <- <-. now left. Qed.

Lemma failsOnly_handle A (c : M OS error A) : failsOnly Q (withHandle c).
Proof.
  intros w f w' H. unfold withHandle in H.
  destruct (c w) as [[a | e] w1]; [discriminate H |].
  injection H as <- <-. now left.
Qed.

Ltac fails :=
  repeat first
    [ apply failsOnly_ret
    | apply failsOnly_call
    | apply failsOnly_failSetup
    | apply failsOnly_handle
    | apply failsOnly_bind; [| intros ?]
    | match goal with
      | |- failsOnly _ (match ?x with _ => _ end) => destruct x
      | |- failsOnly _ (if ?b then _ else _) => destruct b
      end ].

(** The one failure without the closure: right after the evaluation of
    the symlink. *)
Lemma resolveTarget_fails m (w w' : World OS) f :
  resolveTarget kernel Join root m w = (Fail f, w') ->
  withUndoBinds f = false
  /\ exists events,
       trace w' = events ++ [Ev (CopierEval root (Destination m))].
Proof.
  unfold resolveTarget. rewrite bind_call.
  destruct (answer kernel (OsLstat _) (os w)) as [e | stat];
    [intros H; discriminate H |].
  destruct (negb (Z.eqb (Z.land (fi_Mode stat) ModeSymlink) 0));
    [| intros H; discriminate H].
  rewrite bind_call.
  destruct (answer kernel (CopierEval root (Destination m)) _) as [e | target'].
  - intros H. injection H as <- <-. split; [reflexivity |].
    eexists. reflexivity.
  - rewrite bind_call.
    destruct (answer kernel (OsStat target') _); intros H; discriminate H.
Qed.

Lemma mountOne_fails m : In m mounts -> failsOnly Q (mountOne kernel Join Dir root m).
Proof.
  intros Hin. unfold mountOne.
  destruct (alreadyMounted (Destination m)) eqn:Ha; [apply failsOnly_ret |].
  destruct (otherType (Type_ m)) eqn:Ht; [apply failsOnly_ret |].
  apply failsOnly_bind; [unfold examineSource; fails | intros srcinfo].
  apply failsOnly_bind.
  - intros w f w' H. apply resolveTarget_fails in H as [_ (events & Htr)].
    right. exists m, events. split; [exact Hin |]. split; [| exact Htr].
    unfold passesFilters. now rewrite Ha, Ht.
  - intros [target err].
    apply failsOnly_bind; [unfold ensureTarget; fails | intros _].
    destruct (MountFlags.mountFlags (Options m)) as [requestFlags expectedFlags].
    apply failsOnly_bind; [unfold doMount; fails | intros _].
    unfold checkFlags. fails.
Qed.

Lemma fixed_and_paths_fail spec bundlePath :
  failsOnly Q (bindDev kernel Join root)
  /\ failsOnly Q (bindProc kernel Join root)
  /\ failsOnly Q (bindSys kernel Join root)
  /\ failsOnly Q (bindSysMounts kernel Join root)
  /\ (forall paths, failsOnly Q (readOnlyAll kernel Join root paths))
  /\ failsOnly Q (maskAll kernel Join spec bundlePath).
Proof.
  repeat split.
  - unfold bindDev, bindHostDir. fails.
  - unfold bindProc, bindHostDir. fails.
  - unfold bindSys, bindHostDir. fails.
  - unfold bindSysMounts, bindSysMount. fails.
    apply failsOnly_forEach. intros x _. fails.
  - intros paths. unfold readOnlyAll. apply failsOnly_forEach. intros x _.
    unfold readOnlyOne, remountReadOnly. fails.
  - unfold maskAll. fails. apply failsOnly_forEach. intros x _.
    unfold maskOne, examineDir, examineContent, maskDir, maskFile. fails.
    intros w fl w' H. rewrite isDevNull_run in H. discriminate H.
Qed.

End SetupFailureFacts.

(** X4: a failure of the mount construction hands the cleanup closure
    back with the error, except when the evaluation of a symlinked mount
    point fails: the closure is missing only when the last call made was
    the evaluation of the symlink at the destination of a mount entry
    that passes the filters of the generic loop. *)
Theorem setup_failure_keeps_handle {OS : Type}
    (kernel : forall R, Call R -> OS -> R * OS)
    (Join : string -> string -> string) (Dir : string -> string)
    (spec : Spec) (bundlePath : string) (w w' : World OS) (f : SetupFailure) :
  setupChrootBindMounts kernel Join Dir spec bundlePath w = (Fail f, w') ->
  withUndoBinds f = true
  \/ exists (m : MountEntry) (events : list Event),
       In m (Mounts spec) /\ passesFilters m = true
       /\ trace w' = events ++ [Ev (CopierEval (RootPath spec) (Destination m))].
Proof.
  revert w f w'.
  change (failsOnly (handleOrSymlink (RootPath spec) (Mounts spec))
            (setupChrootBindMounts kernel Join Dir spec bundlePath)).
  destruct (fixed_and_paths_fail kernel Join (RootPath spec) (Mounts spec)
              spec bundlePath) as (H1 & H2 & H3 & H4 & H5 & H6).
  unfold setupChrootBindMounts.
  repeat (apply failsOnly_bind; [assumption || apply H5 | intros _]);
    try assumption.
  apply failsOnly_bind; [| intros _].
  - unfold mountAll. apply failsOnly_forEach. intros m Hm.
    now apply mountOne_fails.
  - apply failsOnly_bind; [apply H5 | intros _; assumption].
Qed.

(** The theorem on a kernel where every mount point is a symlink that
    cannot be evaluated: the construction fails at the first entry of
    the generic loop and comes without the closure. *)
Lemma setup_failure_keeps_handle_witness :
  exists (m : MountEntry) (events : list Event),
    In m (Mounts toySpec) /\ passesFilters m = true
    /\ trace (snd (setupChrootBindMounts brokenLinks toyJoin id toySpec
                     "/bundle" (mkWorld toyState [])))
       = events ++ [Ev (CopierEval (RootPath toySpec) (Destination m))].
Proof.
  destruct (setup_failure_keeps_handle brokenLinks toyJoin id toySpec "/bundle"
              (mkWorld toyState [])
              (snd (setupChrootBindMounts brokenLinks toyJoin id toySpec
                      "/bundle" (mkWorld toyState [])))
              {| withUndoBinds := false;
                 setupError := wrapErrno "evaluating symlink" EINVAL |})
    as [H | H].
  - vm_compute. reflexivity.
  - discriminate H.
  - exact H.
Defined.

(** ** Programs as sequences of calls *)

Section Follows.

Context {OS : Type}.
Variable kernel : forall R, Call R -> OS -> R * OS.

Lemma replay_app events events' (s : OS) :
  replay kernel (events ++ events') s
  = replay kernel events' (replay kernel events s).
Proof.
  revert s. induction events as [| [R c] events IH]; intros s;
    [reflexivity | apply IH].
Qed.

Lemma segment_refl (w : World OS) : segment kernel w w [].
Proof. split; [now rewrite app_nil_r | reflexivity]. Qed.

Lemma segment_trans (w w1 w2 : World OS) e1 e2 :
  segment kernel w w1 e1 -> segment kernel w1 w2 e2 ->
  segment kernel w w2 (e1 ++ e2).
Proof.
  intros [Ht1 Hs1] [Ht2 Hs2]. split.
  - now rewrite Ht2, Ht1, app_assoc.
  - now rewrite Hs2, Hs1, replay_app.
Qed.

Lemma segment_call {R} (c : Call R) (w : World OS) :
  segment kernel w (afterCall kernel c w) [Ev c].
Proof. split; reflexivity. Qed.

Lemma follows_ret E A allowed (a : A) :
  follows kernel allowed (ret a : M OS E A).
Proof. intros w. exists []. split; [apply segment_refl | constructor]. Qed.

Lemma follows_fail E A allowed (e : E) :
  follows kernel allowed (fail e : M OS E A).
Proof. intros w. exists []. split; [apply segment_refl | constructor]. Qed.

Lemma follows_call E R allowed (c : Call R) :
  allowed (Ev c) = true -> follows kernel allowed (call kernel (E := E) c).
Proof.
  intros H w. exists [Ev c]. rewrite call_run.
  split; [apply segment_call | auto].
Qed.

Lemma follows_bind E A B allowed (c : M OS E A) (k : A -> M OS E B) :
  follows kernel allowed c -> (forall a, follows kernel allowed (k a)) ->
  follows kernel allowed (bind c k).
Proof.
  intros Hc Hk w. unfold bind. destruct (Hc w) as (ev1 & Hs1 & Ha1).
  destruct (c w) as [[a | e] w1]; cbn [snd] in *.
  - destruct (Hk a w1) as (ev2 & Hs2 & Ha2). exists (ev1 ++ ev2).
    split; [eapply segment_trans; eassumption |].
    apply Forall_app. now split.
  - exists ev1. now split.
Qed.

Lemma follows_forEach E A allowed (body : A -> M OS E unit) l :
  (forall x, follows kernel allowed (body x)) ->
  follows kernel allowed (forEach body l).
Proof.
  intros H. induction l as [| x l IH]; cbn [forEach].
  - apply follows_ret.
  - apply follows_bind; [apply H | intros _; exact IH].
Qed.

Lemma follows_attempt E E' A allowed (c : M OS E A) :
  follows kernel allowed c -> follows kernel allowed (attempt c : M OS E' _).
Proof.
  intros H w. destruct (H w) as (events & Hs & Ha). exists events.
  unfold attempt. destruct (c w) as [o w1]. now split.
Qed.

Lemma follows_withHandle A allowed (c : M OS error A) :
  follows kernel allowed c -> follows kernel allowed (withHandle c).
Proof.
  intros H w. destruct (H w) as (events & Hs & Ha). exists events.
  unfold withHandle. destruct (c w) as [[a | e] w1]; now split.
Qed.

Lemma follows_weaken E A (allowed allowed' : Event -> bool) (c : M OS E A) :
  (forall e, allowed e = true -> allowed' e = true) ->
  follows kernel allowed c -> follows kernel allowed' c.
Proof.
  intros Himp H w. destruct (H w) as (events & Hs & Ha). exists events.
  split; [exact Hs |]. eapply Forall_impl; [exact Ha | exact Himp].
Qed.

Lemma follows_run E A allowed (c : M OS E A) (w w' : World OS) out :
  follows kernel allowed c -> c w = (out, w') ->
  exists events,
    segment kernel w w' events /\ Forall (fun e => allowed e = true) events.
Proof.
  intros H Hrun. destruct (H w) as (events & Hs & Ha).
  rewrite Hrun in Hs. now exists events.
Qed.

End Follows.

Ltac follow_calls :=
  repeat match goal with
         | |- follows _ _ (ret _) => apply follows_ret
         | |- follows _ _ (fail _) => apply follows_fail
         | |- follows _ _ (call _ _) => apply follows_call; reflexivity
         | |- follows _ _ (attempt _) => apply follows_attempt
         | |- follows _ _ (withHandle _) => apply follows_withHandle
         | |- follows _ _ (bind _ _) => apply follows_bind; [| intros ?]
         | |- follows _ _ (forEach _ _) => apply follows_forEach; intros ?
         | |- follows _ _ (match ?x with _ => _ end) => destruct x
         | |- follows _ _ (if ?b then _ else _) => destruct b
         | |- follows _ _ (let '(_, _) := ?x in _) => destruct x
         end.

(** ** The launch as a whole *)

Section MainFacts.

Context {OS : Type}.
Variable kernel : forall R, Call R -> OS -> R * OS.
Variable Clean : string -> string.
Variable IsAbs : string -> bool.
Variable TrimNewlines : string -> string.
Variable ToUpper : string -> string.
Variable knownCaps : list Z.
Variable capString : Z -> string.
Variable EqualFold : string -> string -> bool.
Variable capOrder : list CapType.
Variable rangeRlimits : gmap Z Rlimit -> list (Z * Rlimit).

Local Abbreviation main :=
  (runUsingChrootExecMain kernel Clean IsAbs TrimNewlines ToUpper knownCaps
     capString EqualFold capOrder rangeRlimits).
Local Abbreviation rest :=
  (afterChroot kernel Clean IsAbs TrimNewlines ToUpper knownCaps
     capString EqualFold capOrder rangeRlimits).
Local Abbreviation quiet := (fun e : Event => negb (isKeyCall e) = true).
Local Abbreviation noCommand := (fun e : Event => isRunChild e = false).
Local Abbreviation statusOne :=
  (fun (ex : Exit) (_ : World OS) => exitCode ex = 1).

(** *** Every fatal path before the command exits with status 1 *)

Lemma failsOnly_die A message :
  failsOnly statusOne (die message : M OS Exit A).
Proof. intros w ex w' H. now injection H as <- <-. Qed.

Lemma failsOnly_must c message : failsOnly statusOne (must kernel c message).
Proof.
  unfold must. apply failsOnly_bind; [apply failsOnly_call |].
  intros [e |]; [apply failsOnly_die | apply failsOnly_ret].
Qed.

Lemma failsOnly_mustRun (c : M OS error unit) message :
  failsOnly statusOne (mustRun c message).
Proof.
  unfold mustRun. apply failsOnly_bind.
  - intros w ex w' H. unfold attempt in H. destruct (c w). discriminate H.
  - intros [a | e]; [apply failsOnly_ret | apply failsOnly_die].
Qed.

Ltac fatal_steps :=
  repeat first
    [ apply failsOnly_ret | apply failsOnly_call | apply failsOnly_die
    | apply failsOnly_must | apply failsOnly_mustRun
    | apply failsOnly_bind; [| intros ?]
    | match goal with
      | |- failsOnly _ (match ?x with _ => _ end) => destruct x
      | |- failsOnly _ (if ?b then _ else _) => destruct b
      end ].

Lemma failsOnly_steps spec process :
  failsOnly statusOne
    (setHostname kernel spec ;;; enterChroot kernel (RootPath spec) ;;;
     rest spec process).
Proof. unfold setHostname, enterChroot, afterChroot, dropGroups. fatal_steps. Qed.

(** *** The launch is the steps up to the change of UID, then the command *)

Lemma main_split args spec process (w : World OS) :
  SpecProcess spec = Some process ->
  main args (Some spec) w
  = bind (setHostname kernel spec ;;; enterChroot kernel (RootPath spec) ;;;
          rest spec process)
      (runCommand kernel args process) w.
Proof.
  intros Hp. unfold runUsingChrootExecMain. rewrite Hp. unfold bind.
  destruct (setHostname kernel spec w) as [[[] | e] w0]; [| reflexivity].
  destruct (enterChroot kernel (RootPath spec) w0) as [[[] | e] w1];
    [| reflexivity].
  destruct (rest spec process w1) as [[cwd | e] w2]; reflexivity.
Qed.

(** None of these steps starts the command. *)
Lemma steps_start_nothing spec process :
  follows kernel (fun e => negb (isRunChild e))
    (setHostname kernel spec ;;; enterChroot kernel (RootPath spec) ;;;
     rest spec process).
Proof.
  unfold setHostname, enterChroot, afterChroot, dropGroups, mustRun, must, die,
    setApparmorProfile, setRlimits, setRlimit, setCapabilities.
  follow_calls.
Qed.

Lemma steps_run spec process (w w' : World OS) out :
  (setHostname kernel spec ;;; enterChroot kernel (RootPath spec) ;;;
   rest spec process) w = (out, w') ->
  exists events, segment kernel w w' events /\ Forall noCommand events.
Proof.
  intros Hrun.
  destruct (follows_run _ _ _ _ _ _ _ _ (steps_start_nothing spec process) Hrun)
    as (events & Hs & Ha).
  exists events. split; [exact Hs |].
  eapply Forall_impl; [exact Ha |]. intros e He. now apply negb_true_iff in He.
Qed.

(** The command itself: the panic on an empty argument list, or the
    start of [args[0]] and the wait for it. *)
Lemma runCommand_run args process cwd (w w' : World OS) out :
  runCommand kernel args process cwd w = (out, w') ->
  (args = [] /\ w' = w /\ exists ex, out = Fail ex /\ exitCode ex = 2)
  \/ exists name arg,
       args = name :: arg
       /\ w' = afterCall kernel (RunChild name arg (Env process) cwd) w
       /\ match out with
          | Done _ => True
          | Fail ex =>
              exitCode ex = 1
              \/ answer kernel (RunChild name arg (Env process) cwd) (os w)
                 = WaitExited (exitCode ex)
          end.
Proof.
  unfold runCommand, panic, die. destruct args as [| name arg]; intros H.
  - left. injection H as <- <-. repeat split. eexists. split; reflexivity.
  - right. exists name, arg. rewrite bind_call in H. split; [reflexivity |].
    destruct (answer kernel (RunChild name arg (Env process) cwd) (os w))
      eqn:Ea; injection H as <- <-; (split; [reflexivity |]); cbn; auto.
Qed.


(** *** The steps, call by call *)

Lemma quiet_filter events :
  Forall quiet events -> List.filter isKeyCall events = [].
Proof.
  induction 1 as [| e events He _ IH]; [reflexivity |].
  apply negb_true_iff in He. cbn [List.filter]. now rewrite He.
Qed.

Lemma quiet_noCommand events : Forall quiet events -> Forall noCommand events.
Proof.
  intros H. eapply Forall_impl; [exact H |].
  intros [R c] He; destruct c; cbn in He |- *; congruence.
Qed.

Lemma must_done c message (w w' : World OS) :
  must kernel c message w = (Done tt, w') -> segment kernel w w' [Ev c].
Proof.
  rewrite must_run. destruct (answer kernel c (os w)); [discriminate |].
  intros H. injection H as <-. apply segment_call.
Qed.

Lemma mustRun_done (c : M OS error unit) message (w w' : World OS) :
  mustRun c message w = (Done tt, w') -> c w = (Done tt, w').
Proof.
  unfold mustRun, bind, attempt. destruct (c w) as [[[] | e] w1]; cbn.
  - intros H. now injection H as <-.
  - discriminate.
Qed.

Lemma setHostname_quiet spec :
  follows kernel (fun e => negb (isKeyCall e)) (setHostname kernel spec).
Proof. unfold setHostname. follow_calls. Qed.

Lemma setApparmorProfile_quiet process :
  follows kernel (fun e => negb (isKeyCall e))
    (setApparmorProfile kernel process).
Proof. unfold setApparmorProfile. follow_calls. Qed.

Lemma setRlimits_quiet spec onlyLower onlyRaise :
  follows kernel (fun e => negb (isKeyCall e))
    (setRlimits kernel ToUpper rangeRlimits spec onlyLower onlyRaise).
Proof. unfold setRlimits, setRlimit. follow_calls. Qed.

Lemma enterChroot_done root (w w' : World OS) :
  enterChroot kernel root w = (Done tt, w') ->
  segment kernel w w'
    [Ev (UnixStat root); Ev (Chdir root); Ev (Chroot root); Ev (UnixStat "/")].
Proof.
  unfold enterChroot. rewrite bind_call.
  destruct (answer kernel (UnixStat root) (os w)) as [e | oldst];
    [discriminate |].
  intros H. apply bind_done in H as ([] & w1 & H1 & H).
  apply bind_done in H as ([] & w2 & H2 & H).
  apply must_done in H1, H2. rewrite bind_call in H.
  destruct (answer kernel (UnixStat "/") (os w2)) as [e | newst];
    [discriminate |].
  destruct (negb _ || negb _); [discriminate |]. injection H as <-.
  change [Ev (UnixStat root); Ev (Chdir root); Ev (Chroot root);
          Ev (UnixStat "/")]
    with ([Ev (UnixStat root)] ++ [Ev (Chdir root)] ++ [Ev (Chroot root)]
          ++ [Ev (UnixStat "/")]).
  eapply segment_trans; [apply segment_call |].
  eapply segment_trans; [exact H1 |].
  eapply segment_trans; [exact H2 | apply segment_call].
Qed.

Lemma setCapabilities_done process keepCaps (w w' : World OS) :
  setCapabilities kernel knownCaps capString EqualFold capOrder process
    keepCaps w = (Done tt, w') ->
  exists caps,
    segment kernel w w'
      [Ev CapNewPid2; Ev CapLoad; Ev CapNewPid2; Ev (CapApply caps)].
Proof.
  unfold setCapabilities. rewrite bind_call.
  destruct (answer kernel CapNewPid2 (os w)); [discriminate |].
  rewrite bind_call. destruct (answer kernel CapLoad _); [discriminate |].
  rewrite bind_call. destruct (answer kernel CapNewPid2 _); [discriminate |].
  destruct (capLoop _ _ _ _ _ _ _ _) as [caps |]; [| discriminate].
  rewrite bind_call. destruct (answer kernel (CapApply caps) _); [discriminate |].
  intros H. injection H as <-. exists caps. split; [| reflexivity].
  unfold afterCall. cbn [trace]. now rewrite <- !app_assoc.
Qed.

(** The supplementary groups: the configured list; or, after reading
    /proc/self/setgroups, the empty list unless the file says deny. *)
Lemma dropGroups_done user (w w' : World OS) :
  dropGroups kernel TrimNewlines user w = (Done tt, w') ->
  segment kernel w w'
    (if (0 <? Z.of_nat (List.length (AdditionalGids user)))%Z
     then [Ev (Setgroups (AdditionalGids user))]
     else Ev (ReadFile "/proc/self/setgroups")
          :: (if String.eqb
                   (TrimNewlines
                      (answer kernel (ReadFile "/proc/self/setgroups") (os w)))
                   "deny"
              then [] else [Ev (Setgroups [])])).
Proof.
  unfold dropGroups.
  destruct (0 <? Z.of_nat (List.length (AdditionalGids user)))%Z.
  - apply must_done.
  - rewrite bind_call.
    destruct (String.eqb (TrimNewlines _) "deny"); cbn [negb].
    + intros H. injection H as <-. apply segment_call.
    + intros H. apply must_done in H.
      change [Ev (ReadFile "/proc/self/setgroups"); Ev (Setgroups [])]
        with ([Ev (ReadFile "/proc/self/setgroups")] ++ [Ev (Setgroups [])]).
      eapply segment_trans; [apply segment_call | exact H].
Qed.

(** The steps between the chroot check and the command, when all of
    them succeed. *)
Lemma afterChroot_done spec process (w w' : World OS) cwd :
  rest spec process w = (Done cwd, w') ->
  let user := ProcessUser process in
  let dir := Clean (if negb (IsAbs (Cwd process))
                    then ("/" ++ Cwd process)%string else Cwd process) in
  exists (ev1 ev2 : list Event) (caps : Capabilities),
    let pre := ev1 ++ [Ev SetSelinuxLabel] ++ ev2
               ++ [Ev (Chdir "/"); Ev (Chdir dir)] in
    cwd = dir /\ Forall quiet ev1 /\ Forall quiet ev2
    /\ segment kernel w w'
         (pre
          ++ (if (0 <? Z.of_nat (List.length (AdditionalGids user)))%Z
              then [Ev (Setgroups (AdditionalGids user))]
              else Ev (ReadFile "/proc/self/setgroups")
                   :: (if String.eqb
                            (TrimNewlines
                               (answer kernel (ReadFile "/proc/self/setgroups")
                                  (replay kernel pre (os w))))
                            "deny"
                       then [] else [Ev (Setgroups [])]))
          ++ [Ev (Setresgid (GID user) (GID user) (GID user)); Ev SetSeccomp;
              Ev CapNewPid2; Ev CapLoad; Ev CapNewPid2; Ev (CapApply caps);
              Ev (Setresuid (UID user) (UID user) (UID user))]).
Proof.
  intros H2 user dir. unfold afterChroot in H2. fold user dir in H2.
  apply bind_done in H2 as ([] & wa & Ha & H2).
  apply mustRun_done in Ha.
  apply (follows_run _ _ _ _ _ _ _ _ (setApparmorProfile_quiet process)) in Ha
    as (ev1 & Ha & Hq1).
  apply bind_done in H2 as ([] & wb & Hb & H2). apply must_done in Hb.
  apply bind_done in H2 as ([] & wc & Hc & H2).
  apply mustRun_done in Hc.
  apply (follows_run _ _ _ _ _ _ _ _ (setRlimits_quiet spec false false)) in Hc
    as (ev2 & Hc & Hq2).
  apply bind_done in H2 as ([] & wd & Hd & H2). apply must_done in Hd.
  apply bind_done in H2 as ([] & we & He & H2). apply must_done in He.
  apply bind_done in H2 as ([] & wf & Hf & H2).
  apply dropGroups_done in Hf.
  apply bind_done in H2 as ([] & wg & Hg & H2). apply must_done in Hg.
  apply bind_done in H2 as ([] & wh & Hh & H2). apply must_done in Hh.
  apply bind_done in H2 as ([] & wi & Hi & H2).
  apply mustRun_done, setCapabilities_done in Hi as (caps & Hi).
  apply bind_done in H2 as ([] & wj & Hj & H2). apply must_done in Hj.
  injection H2 as <- <-.
  exists ev1, ev2, caps. cbv zeta.
  split; [reflexivity |]. split; [exact Hq1 |]. split; [exact Hq2 |].
  pose proof (segment_trans _ _ _ _ _ _ Ha
               (segment_trans _ _ _ _ _ _ Hb
               (segment_trans _ _ _ _ _ _ Hc
               (segment_trans _ _ _ _ _ _ Hd He)))) as Hpre.
  replace (os we) with
    (replay kernel (ev1 ++ [Ev SetSelinuxLabel] ++ ev2
                    ++ [Ev (Chdir "/")] ++ [Ev (Chdir dir)]) (os w)) in Hf
    by (symmetry; exact (proj2 Hpre)).
  pose proof (segment_trans _ _ _ _ _ _ Hpre
               (segment_trans _ _ _ _ _ _ Hf
               (segment_trans _ _ _ _ _ _ Hg
               (segment_trans _ _ _ _ _ _ Hh
               (segment_trans _ _ _ _ _ _ Hi Hj))))) as Hall.
  cbn [app] in Hall |- *. exact Hall.
Qed.


End MainFacts.



(** ** The remount after a generic mount *)

Lemma land_low_nibble flags E :
  0 <= E < 16 -> Z.land flags E = Z.land (flags mod 16) E.
Proof.
  intros HE. change 16 with (2 ^ 4). rewrite <- Z.land_ones by lia.
  rewrite <- Z.land_assoc. f_equal.
  change (Z.ones 4) with 15.
  assert (E = 0 \/ E = 1 \/ E = 2 \/ E = 3 \/ E = 4 \/ E = 5 \/ E = 6 \/ E = 7
          \/ E = 8 \/ E = 9 \/ E = 10 \/ E = 11 \/ E = 12 \/ E = 13 \/ E = 14
          \/ E = 15) as Hcases by lia.
  repeat (destruct Hcases as [-> | Hcases]; [reflexivity |]). now subst.
Qed.

Lemma encodeAxes_low f : 0 <= encodeAxes 0 f < 16.
Proof.
  unfold encodeAxes.
  destruct (f MountFlags.AxRo), (f MountFlags.AxSuid), (f MountFlags.AxDev),
    (f MountFlags.AxExec); lia.
Qed.

(** The reported flags cover an encoded expectation exactly when they
    have the bit of every axis the expectation sets. *)
Lemma covers_encoded flags f :
  Z.eqb (Z.land flags (encodeAxes 0 f)) (encodeAxes 0 f)
  = forallb (fun a => implb (f a) (MountFlags.hasFlag flags (MountFlags.stBit a)))
      [MountFlags.AxRo; MountFlags.AxSuid; MountFlags.AxDev; MountFlags.AxExec].
Proof.
  rewrite (land_low_nibble flags (encodeAxes 0 f)) by apply encodeAxes_low.
  unfold MountFlags.hasFlag. cbn [forallb MountFlags.stBit].
  rewrite (land_low_nibble flags ST_RDONLY), (land_low_nibble flags ST_NOSUID),
    (land_low_nibble flags ST_NODEV), (land_low_nibble flags ST_NOEXEC)
    by (unfold ST_RDONLY, ST_NOSUID, ST_NODEV, ST_NOEXEC; lia).
  pose proof (Z.mod_pos_bound flags 16 ltac:(lia)) as Hr.
  set (r := flags mod 16) in *.
  assert (r = 0 \/ r = 1 \/ r = 2 \/ r = 3 \/ r = 4 \/ r = 5 \/ r = 6 \/ r = 7
          \/ r = 8 \/ r = 9 \/ r = 10 \/ r = 11 \/ r = 12 \/ r = 13 \/ r = 14
          \/ r = 15) as Hcases by lia.
  clearbody r. unfold encodeAxes.
  destruct (f MountFlags.AxRo), (f MountFlags.AxSuid), (f MountFlags.AxDev),
    (f MountFlags.AxExec);
    repeat (destruct Hcases as [-> | Hcases]; [reflexivity |]);
    subst r; reflexivity.
Qed.

Section RemountFacts.

Context {OS : Type}.
Variable kernel : forall R, Call R -> OS -> R * OS.
Variable Join : string -> string -> string.
Variable Dir : string -> string.

Import MountFlags.

Local Abbreviation noStatfs := (fun e : Event => isStatfs e = false).
Local Abbreviation looksElsewhere := (fun e : Event => negb (isStatfs e)).

(** The check after a mount, by the answer of the kernel. *)
Lemma checkFlags_run options target (w w' : World OS) out :
  checkFlags kernel target (fst (mountFlags options)) (snd (mountFlags options))
    w = (out, w') ->
  let w1 := afterCall kernel (Statfs target) w in
  let remount :=
    Mount target target "bind" (Z.lor (fst (mountFlags options)) MS_REMOUNT)
      EmptyString in
  match answer kernel (Statfs target) (os w) with
  | inl _ => w' = w1 /\ out <> Done tt
  | inr fs =>
      ((forall a : Axis, lastToken a options = Some true ->
                         hasFlag (Flags fs) (stBit a) = true) ->
       w' = w1 /\ out = Done tt)
      /\ (forall a : Axis,
            lastToken a options = Some true ->
            hasFlag (Flags fs) (stBit a) = false ->
            w' = afterCall kernel remount w1
            /\ (out = Done tt <-> answer kernel remount (os w1) = None))
  end.
Proof.
  rewrite mountFlags_encoded. cbn [fst snd]. unfold checkFlags.
  rewrite bind_call. cbv zeta.
  destruct (answer kernel (Statfs target) (os w)) as [e | fs].
  { intros H. injection H as <- <-. split; [reflexivity | discriminate]. }
  rewrite covers_encoded.
  assert (forall a, finalAxes noAxes options a = true
                    <-> lastToken a options = Some true) as Hfinal.
  { intros a. unfold finalAxes, noAxes.
    destruct (lastToken a options) as [[] |]; intuition congruence. }
  intros H. split.
  - intros Hcover.
    assert (forall a, implb (finalAxes noAxes options a)
                        (hasFlag (Flags fs) (stBit a)) = true) as Himp.
    { intros a. destruct (finalAxes noAxes options a) eqn:Ea; [| reflexivity].
      apply Hfinal in Ea. now rewrite (Hcover a Ea). }
    cbn [forallb] in H. rewrite !Himp in H. now injection H as <- <-.
  - intros a Hlast Hmiss. apply Hfinal in Hlast.
    assert (implb (finalAxes noAxes options a) (hasFlag (Flags fs) (stBit a))
            = false) as Himp by now rewrite Hlast, Hmiss.
    assert (forallb (fun a => implb (finalAxes noAxes options a)
                                (hasFlag (Flags fs) (stBit a)))
              [AxRo; AxSuid; AxDev; AxExec] = false) as Hall.
    { cbn [forallb]. destruct a; rewrite Himp;
        rewrite ?andb_false_r; reflexivity. }
    rewrite Hall in H. cbn [negb] in H. rewrite bind_call in H.
    destruct (answer kernel (Mount target target "bind" _ EmptyString) _)
      as [e |]; injection H as <- <-; (split; [reflexivity |]);
      split; congruence.
Qed.

(** The steps before the check do not query the flags. *)
Lemma mount_steps_follow root m :
  follows kernel looksElsewhere (examineSource kernel m)
  /\ follows kernel looksElsewhere (resolveTarget kernel Join root m)
  /\ (forall srcinfo target err,
        follows kernel looksElsewhere
          (ensureTarget kernel Dir srcinfo target err))
  /\ (forall target requestFlags,
        follows kernel looksElsewhere (doMount kernel m target requestFlags)).
Proof.
  repeat split; intros;
    unfold examineSource, resolveTarget, ensureTarget, doMount, failSetup;
    follow_calls.
Qed.

(** An entry of a type the loop mounts is mounted by exactly one call. *)
Lemma doMount_done m target requestFlags (w w' : World OS) :
  otherType (Type_ m) = false ->
  doMount kernel m target requestFlags w = (Done tt, w') ->
  exists e, segment kernel w w' [e] /\ isMountEvent e = true.
Proof.
  unfold otherType, doMount. intros Hty.
  destruct (String.eqb (Type_ m) "bind").
  { rewrite bind_call. destruct (answer kernel _ (os w)); [discriminate |].
    intros H. injection H as <-. eexists.
    split; [apply segment_call | reflexivity]. }
  destruct (String.eqb (Type_ m) "tmpfs").
  { rewrite bind_call. destruct (answer kernel _ (os w)); [discriminate |].
    intros H. injection H as <-. eexists.
    split; [apply segment_call | reflexivity]. }
  destruct (String.eqb (Type_ m) "overlay"); [| discriminate Hty].
  rewrite bind_call. destruct (answer kernel _ (os w)); [discriminate |].
  intros H. injection H as <-. eexists.
  split; [apply segment_call | reflexivity].
Qed.

(** One step further in a run that has not queried the flags so far. *)
Lemma step_on E A B (c : M OS E A) (k : A -> M OS E B)
    (w w0 w' : World OS) evs out :
  follows kernel looksElsewhere c ->
  segment kernel w w0 evs -> Forall noStatfs evs ->
  bind c k w0 = (out, w') ->
  (exists events f,
     segment kernel w w' events /\ Forall noStatfs events /\ out = Fail f)
  \/ (exists a w1 events,
        segment kernel w w1 events /\ Forall noStatfs events
        /\ k a w1 = (out, w')).
Proof.
  intros Hc Hs Hq H.
  apply bind_cases in H as [(f & Hrun & ->) | (a & w1 & Hrun & H)];
    destruct (follows_run _ _ _ _ _ _ _ _ Hc Hrun) as (ev & Hs1 & Hq1);
    assert (Forall noStatfs (evs ++ ev)) as Hboth
      by (apply Forall_app; split; [exact Hq |];
          eapply Forall_impl; [exact Hq1 |];
          intros e He; now apply negb_true_iff in He).
  - left. exists (evs ++ ev), f.
    split; [eapply segment_trans; eassumption | now split].
  - right. exists a, w1, (evs ++ ev).
    split; [eapply segment_trans; eassumption | now split].
Qed.


End RemountFacts.


(** ** The host mounts below /sys *)

Section SysMountFacts.

Context {OS : Type}.
Variable kernel : forall R, Call R -> OS -> R * OS.
Variable Join : string -> string -> string.

Lemma bindSysMount_skips root Mountpoint (w : World OS) :
  underSys Mountpoint = false ->
  bindSysMount kernel Join root Mountpoint w = (Done tt, w).
Proof.
  unfold underSys, bindSysMount. intros H.
  apply orb_false_iff in H as [-> ->]. reflexivity.
Qed.

(** X8: of the mounts of the host only /sys and the mount points below
    it are bound under the root; any other is passed without a call.  A
    bind that the kernel refuses is skipped as well: the loop goes on
    without an error, and only a failure to make a bound mount
    read-only ends it. *)
Theorem sys_mounts_are_best_effort (root : string) :
  (forall (mnts : list string) (w : World OS),
     forEach (bindSysMount kernel Join root) mnts w
     = forEach (bindSysMount kernel Join root) (List.filter underSys mnts) w)
  /\ (forall (Mountpoint : string) (w : World OS) (e : Errno),
        underSys Mountpoint = true ->
        answer kernel (Mount Mountpoint (Join root Mountpoint) "bind" sysFlags
                         EmptyString) (os w) = Some e ->
        bindSysMount kernel Join root Mountpoint w
        = (Done tt,
           afterCall kernel (Mount Mountpoint (Join root Mountpoint) "bind"
                               sysFlags EmptyString) w))
  /\ (forall (Mountpoint : string) (w w' : World OS) (f : SetupFailure),
        bindSysMount kernel Join root Mountpoint w = (Fail f, w') ->
        answer kernel (Mount Mountpoint (Join root Mountpoint) "bind" sysFlags
                         EmptyString) (os w) = None
        /\ withUndoBinds f = true).
Proof.
  split; [| split].
  - induction mnts as [| m mnts IH]; intros w; [reflexivity |].
    cbn [forEach List.filter]. destruct (underSys m) eqn:Hm.
    + cbn [forEach]. unfold bind.
      destruct (bindSysMount kernel Join root m w) as [[[] | f] w1];
        [apply IH | reflexivity].
    + erewrite bind_run by (apply bindSysMount_skips; exact Hm). apply IH.
  - intros Mountpoint w e Hsys Hmount. unfold bindSysMount, underSys in *.
    apply orb_true_iff in Hsys.
    assert (negb (HasPrefix Mountpoint "/sys/")
            && negb (String.eqb Mountpoint "/sys") = false) as ->.
    { destruct Hsys as [-> | ->]; [reflexivity | apply andb_false_r]. }
    rewrite bind_call, Hmount. reflexivity.
  - intros Mountpoint w w' f. unfold bindSysMount.
    destruct (negb _ && negb _); [discriminate |].
    rewrite bind_call.
    destruct (answer kernel (Mount _ _ _ _ _) (os w)); [discriminate |].
    intros H. split; [reflexivity |].
    unfold withHandle in H.
    destruct (makeReadOnly kernel _ _ _) as [[[] | e] w1]; [discriminate |].
    now injection H as <- _.
Qed.

End SysMountFacts.

(** The theorem on the toy kernel: the root mount of the host is passed
    without a call. *)
Lemma sys_mounts_are_best_effort_witness :
  forEach (bindSysMount toyKernel toyJoin "/rootfs") ["/"; "/sys"]
    (mkWorld toyState [])
  = forEach (bindSysMount toyKernel toyJoin "/rootfs") ["/sys"]
      (mkWorld toyState []).
Proof.
  apply (proj1 (sys_mounts_are_best_effort toyKernel toyJoin "/rootfs")
           ["/"; "/sys"] (mkWorld toyState [])).
Defined.

(** ** The cleanup closure, called again *)

Section UndoBindsAgain.

Context {OS : Type}.
Variable kernel : forall R, Call R -> OS -> R * OS.

Lemma undoBinds_total E root err (w : World OS) :
  exists (a : option Errno) (w' : World OS),
    undoBinds kernel (E := E) root err w = (Done (undoResult err a), w').
Proof.
  destruct (retryAnswers_stop kernel root 50
              (answer kernel (Unmount root MNT_DETACH) (os w))
              (after kernel (Unmount root MNT_DETACH) (os w)))
    as (n & busy & a & Hn & Hans & Hbusy & Hlast).
  destruct (undoBinds_run kernel E root err w n busy a Hn Hans Hbusy Hlast)
    as (w' & Hrun & _).
  now exists a, w'.
Qed.

(** X9: the closure keeps the first error.  Once the captured variable
    holds an error, every call returns that same error, whatever the
    unmount attempts answer; and a call returns nil only when the
    variable was nil before it. *)
Theorem undoBinds_first_error_wins (E : Type) (root : string)
    (err : option error) (w : World OS) :
  exists (r : option error) (w' : World OS),
    undoBinds kernel (E := E) root err w = (Done r, w')
    /\ (forall e : error, err = Some e -> r = Some e)
    /\ (r = None -> err = None)
    /\ (forall (e : error) (w2 : World OS),
          r = Some e ->
          fst (undoBinds kernel (E := E) root r w2) = Done (Some e)).
Proof.
  destruct (undoBinds_total E root err w) as (a & w' & Hrun).
  exists (undoResult err a), w'. split; [exact Hrun |].
  split; [| split].
  - intros e ->. destruct a; reflexivity.
  - destruct a, err; cbn; congruence.
  - intros e w2 Hr. rewrite Hr.
    destruct (undoBinds_total E root (Some e) w2) as (a2 & w3 & Hrun2).
    rewrite Hrun2. destruct a2; reflexivity.
Qed.

End UndoBindsAgain.

(** The theorem on the toy kernel, whose unmount is busy three times:
    the call made with a captured error returns that error. *)
Lemma undoBinds_first_error_wins_witness :
  exists (r : option error) (w' : World Toy),
    undoBinds toyKernel (E := error) "/rootfs" (Some (FromErrno EPERM))
      (mkWorld busyThrice []) = (Done r, w')
    /\ r = Some (FromErrno EPERM).
Proof.
  destruct (undoBinds_first_error_wins toyKernel error "/rootfs"
              (Some (FromErrno EPERM)) (mkWorld busyThrice []))
    as (r & w' & Hrun & Hkeep & _).
  exists r, w'. split; [exact Hrun | now apply Hkeep].
Defined.

(** ** Resource limits: the two gates, and the parse before the loop *)

Section RlimitGateFacts.

Context {OS : Type}.
Variable kernel : forall R, Call R -> OS -> R * OS.
Variable ToUpper : string -> string.
Variable rangeRlimits : gmap Z Rlimit -> list (Z * Rlimit).

(** X10: the gates compare hard limits only.  An entry that would raise
    the hard limit the kernel reports is passed under [onlyLower], one
    that would lower it under [onlyRaise], and the loop goes on with the
    next entry; in every other case the entry is set as it stands, soft
    limit included, and the loop stops on the kernel's refusal. *)
Theorem hard_limit_gates (onlyLower onlyRaise : bool) (resource : Z)
    (desired current : Rlimit) (rest : list (Z * Rlimit)) (w : World OS) :
  answer kernel (Getrlimit resource) (os w) = inr current ->
  let w1 := afterCall kernel (Getrlimit resource) w in
  ((onlyLower = true /\ (Max current < Max desired)%Z)
   \/ (onlyRaise = true /\ (Max desired < Max current)%Z) ->
   forEach (setRlimit kernel onlyLower onlyRaise) ((resource, desired) :: rest) w
   = forEach (setRlimit kernel onlyLower onlyRaise) rest w1)
  /\ ((onlyLower = false \/ (Max desired <= Max current)%Z) ->
      (onlyRaise = false \/ (Max current <= Max desired)%Z) ->
      setRlimit kernel onlyLower onlyRaise (resource, desired) w
      = (match answer kernel (Setrlimit resource desired) (os w1) with
         | Some e => Fail (wrapErrno "error setting limit" e)
         | None => Done tt
         end,
         afterCall kernel (Setrlimit resource desired) w1)).
Proof.
  intros Hget w1. subst w1. split.
  - intros Hgate. cbn [forEach]. unfold bind at 1.
    unfold setRlimit. rewrite bind_call, Hget.
    destruct Hgate as [[-> Hlt] | [-> Hlt]].
    + apply Z.ltb_lt in Hlt. rewrite Hlt. reflexivity.
    + apply Z.ltb_lt in Hlt. rewrite Hlt, andb_true_r.
      destruct (_ && onlyLower); reflexivity.
  - intros Hlower Hraise. unfold setRlimit. rewrite bind_call, Hget.
    assert ((Max current <? Max desired)%Z && onlyLower = false) as ->.
    { destruct Hlower as [-> | Hle]; [apply andb_false_r |].
      apply Z.ltb_ge in Hle. now rewrite Hle. }
    assert ((Max desired <? Max current)%Z && onlyRaise = false) as ->.
    { destruct Hraise as [-> | Hle]; [apply andb_false_r |].
      apply Z.ltb_ge in Hle. now rewrite Hle. }
    rewrite bind_call.
    destruct (answer kernel (Setrlimit resource desired) _); reflexivity.
Qed.

(** X11: the limits are parsed before the first is read.  One entry
    whose name the table lacks, wherever it stands in the list, makes
    [setRlimits] fail without a single call, so that the valid entries
    before it are not applied either; and a specification without a
    process applies nothing and succeeds. *)
Theorem rlimits_all_or_nothing (spec : Spec) (onlyLower onlyRaise : bool)
    (w : World OS) :
  (forall (process : Process) (limit : POSIXRlimit),
     SpecProcess spec = Some process ->
     limit ∈ Rlimits process ->
     rlimitsMap !! ToUpper (rl_Type limit) = None ->
     exists e : error,
       setRlimits kernel ToUpper rangeRlimits spec onlyLower onlyRaise w
       = (Fail e, w))
  /\ (SpecProcess spec = None ->
      rangeRlimits ∅ = [] ->
      setRlimits kernel ToUpper rangeRlimits spec onlyLower onlyRaise w
      = (Done tt, w)).
Proof.
  split.
  - intros process limit Hp Hin Hunknown. unfold setRlimits.
    rewrite Hp. cbn [fmap option_fmap option_map parseRlimits].
    destruct (proj1 (parseLoop_unknown ToUpper (Rlimits process) ∅)) as [e He].
    { exists limit. split; [exact Hin | exact Hunknown]. }
    rewrite He. now exists e.
  - intros Hp Hrange. unfold setRlimits.
    rewrite Hp. cbn [fmap option_fmap option_map parseRlimits].
    rewrite Hrange. reflexivity.
Qed.

End RlimitGateFacts.

(** The gate theorem on the toy kernel, which reports a hard limit of
    4096: a limit of 8192 is passed when limits may only be lowered. *)
Lemma hard_limit_gates_witness :
  forEach (setRlimit toyKernel true false)
    [(RLIMIT_NOFILE, {| Cur := 4096; Max := 8192 |})] (mkWorld toyState [])
  = (Done tt, mkWorld toyState [Ev (Getrlimit RLIMIT_NOFILE)]).
Proof.
  apply (proj1 (hard_limit_gates toyKernel true false RLIMIT_NOFILE
                  {| Cur := 4096; Max := 8192 |} {| Cur := 1024; Max := 4096 |}
                  [] (mkWorld toyState []) eq_refl)).
  left. split; [reflexivity | cbn; lia].
Defined.

(** The parse theorem on a specification whose second limit is unknown:
    the first, valid one is not applied. *)
Lemma rlimits_all_or_nothing_witness :
  exists e : error,
    setRlimits toyKernel asciiToUpper map_to_list unknownLimit false false
      (mkWorld toyState [])
    = (Fail e, mkWorld toyState []).
Proof.
  eapply (proj1 (rlimits_all_or_nothing toyKernel asciiToUpper map_to_list
                   unknownLimit false false (mkWorld toyState []))).
  - reflexivity.
  - cbn. apply elem_of_cons. right. apply elem_of_cons. left. reflexivity.
  - vm_compute. reflexivity.
Defined.

(** ** Capability names: resolution, visiting order, unknown names *)

Section CapabilityNameFacts.

Variable knownCaps : list Z.
Variable capString : Z -> string.
Variable EqualFold : string -> string -> bool.

Local Abbreviation findCap := (lookupCap knownCaps capString EqualFold).
Local Abbreviation known := (fun name : string => findCap name <> None).

Lemma lookupCap_sound name c :
  findCap name = Some c ->
  In c knownCaps /\ c <> noCap
  /\ EqualFold ("CAP_" ++ capString c) name = true.
Proof.
  unfold lookupCap.
  destruct (find _ knownCaps) as [c' |] eqn:Efind; cbn [from_option id].
  - destruct (Z.eqb c' noCap) eqn:Eno; [discriminate |].
    intros [= <-]. apply List.find_some in Efind as [Hin Heq].
    apply Z.eqb_neq in Eno. now repeat split.
  - rewrite Z.eqb_refl. discriminate.
Qed.

Lemma setListed_ok capType capList : forall caps,
  (exists caps', setListed knownCaps capString EqualFold caps capType capList
                 = Ok caps')
  <-> Forall known capList.
Proof.
  induction capList as [| name rest IH]; intros caps; cbn [setListed].
  - split; [constructor | intros _; now exists caps].
  - destruct (findCap name) as [cap |] eqn:E.
    + rewrite IH. split.
      * intros H. constructor; [congruence | exact H].
      * intros H. now inversion H.
    + split.
      * intros [caps' H]. discriminate H.
      * intros H. inversion H. congruence.
Qed.

Lemma setKept_ok currentCaps capType keepCaps : forall caps,
  (exists caps', setKept knownCaps capString EqualFold currentCaps caps capType
                   keepCaps = Ok caps')
  <-> Forall known keepCaps.
Proof.
  induction keepCaps as [| name rest IH]; intros caps; cbn [setKept].
  - split; [constructor | intros _; now exists caps].
  - destruct (findCap name) as [cap |] eqn:E.
    + rewrite IH. split.
      * intros H. constructor; [congruence | exact H].
      * intros H. now inversion H.
    + split.
      * intros [caps' H]. discriminate H.
      * intros H. inversion H. congruence.
Qed.

(** The loop succeeds exactly when every name it meets resolves: the
    names the specification lists for the types visited and, once a type
    is visited at all, the keep names. *)
Lemma capLoop_ok order currentCaps spec keepCaps : forall caps,
  (exists caps', capLoop knownCaps capString EqualFold order currentCaps caps
                   spec keepCaps = Ok caps')
  <-> (forall capType, capType ∈ order ->
         Forall known (capMap spec capType) /\ Forall known keepCaps).
Proof.
  induction order as [| capType rest IH]; intros caps; cbn [capLoop].
  - split; [intros _ T HT; inversion HT | intros _; now exists caps].
  - destruct (setListed _ _ _ caps capType (capMap spec capType))
      as [caps1 | e] eqn:E1.
    + destruct (setKept _ _ _ currentCaps caps1 capType keepCaps)
        as [caps2 | e] eqn:E2.
      * rewrite IH. split.
        -- intros H T HT. apply elem_of_cons in HT as [-> | HT]; [| now apply H].
           split; [apply (setListed_ok capType _ caps); eauto
                  | apply (setKept_ok currentCaps capType _ caps1); eauto].
        -- intros H T HT. apply H, elem_of_cons. now right.
      * split; [intros [caps' H]; discriminate H |].
        intros H. destruct (H capType) as [_ Hk]; [apply elem_of_cons; now left |].
        apply (setKept_ok currentCaps capType _ caps1) in Hk as [caps' Hk].
        congruence.
    + split; [intros [caps' H]; discriminate H |].
      intros H. destruct (H capType) as [Hl _]; [apply elem_of_cons; now left |].
      apply (setListed_ok capType _ caps) in Hl as [caps' Hl]. congruence.
Qed.

(** The loop reads the specification through [capMap] only. *)
Lemma capLoop_capMap order currentCaps spec spec' keepCaps :
  (forall capType, capMap spec capType = capMap spec' capType) ->
  forall caps,
    capLoop knownCaps capString EqualFold order currentCaps caps spec keepCaps
    = capLoop knownCaps capString EqualFold order currentCaps caps spec'
        keepCaps.
Proof.
  intros Hmap. induction order as [| capType rest IH]; intros caps;
    cbn [capLoop]; [reflexivity |].
  rewrite Hmap. destruct (setListed _ _ _ _ _ _); [| reflexivity].
  destruct (setKept _ _ _ _ _ _ _); [apply IH | reflexivity].
Qed.

Lemma capabilities_ext (c1 c2 : Capabilities) :
  (forall which x, x ∈ capsOf c1 which <-> x ∈ capsOf c2 which) -> c1 = c2.
Proof.
  intros H. destruct c1 as [e1 p1 i1 b1 a1], c2 as [e2 p2 i2 b2 a2].
  pose proof (H EFFECTIVE) as He. pose proof (H PERMITTED) as Hp.
  pose proof (H INHERITABLE) as Hi. pose proof (H BOUNDING) as Hb.
  pose proof (H AMBIENT) as Ha. cbn [capsOf effective permitted inheritable
                                     bounding ambient] in *.
  apply set_eq in He, Hp, Hi, Hb, Ha. congruence.
Qed.

(** X12: the order in which the range statement visits the five keys of
    [capMap], which Go leaves open, changes neither whether the loop
    succeeds nor the capability object it builds; at most the name
    reported in the error differs. *)
Theorem capability_order_irrelevant (order1 order2 : list CapType)
    (currentCaps caps : Capabilities) (spec : LinuxCapabilities)
    (keepCaps : list string) :
  (forall capType, capType ∈ order1 <-> capType ∈ order2) ->
  match capLoop knownCaps capString EqualFold order1 currentCaps caps spec
          keepCaps,
        capLoop knownCaps capString EqualFold order2 currentCaps caps spec
          keepCaps with
  | Ok caps1, Ok caps2 => caps1 = caps2
  | Err _, Err _ => True
  | _, _ => False
  end.
Proof.
  intros Hsame.
  pose proof (capLoop_ok order1 currentCaps spec keepCaps caps) as H1.
  pose proof (capLoop_ok order2 currentCaps spec keepCaps caps) as H2.
  destruct (capLoop _ _ _ order1 _ _ _ _) as [caps1 | e1] eqn:E1,
           (capLoop _ _ _ order2 _ _ _ _) as [caps2 | e2] eqn:E2.
  - apply capabilities_ext. intros which x.
    rewrite (capLoop_elem _ _ _ _ _ _ _ _ _ E1 which x),
      (capLoop_elem _ _ _ _ _ _ _ _ _ E2 which x), Hsame. reflexivity.
  - destruct (proj2 H2) as [caps' H]; [| discriminate H].
    intros T HT. apply (proj1 H1); [now exists caps1 | now apply Hsame].
  - destruct (proj2 H1) as [caps' H]; [| discriminate H].
    intros T HT. apply (proj1 H2); [now exists caps2 | now apply Hsame].
  - exact I.
Qed.

End CapabilityNameFacts.

(** The theorem on the table of Linux: the five keys visited forwards
    and backwards. *)
Lemma capability_order_irrelevant_witness :
  match capLoop linuxKnownCaps linuxCapString asciiEqualFold toyCapOrder
          (toy_caps withSetuid) emptyCaps (ProcessCapabilities toyProcess)
          ["CAP_SETUID"],
        capLoop linuxKnownCaps linuxCapString asciiEqualFold (rev toyCapOrder)
          (toy_caps withSetuid) emptyCaps (ProcessCapabilities toyProcess)
          ["CAP_SETUID"] with
  | Ok caps1, Ok caps2 => caps1 = caps2
  | Err _, Err _ => True
  | _, _ => False
  end.
Proof.
  apply (capability_order_irrelevant linuxKnownCaps linuxCapString
           asciiEqualFold toyCapOrder (rev toyCapOrder)).
  intros capType. cbn [toyCapOrder rev app].
  destruct capType; split; intros _; repeat constructor.
Defined.

Section CapabilityApplyFacts.

Context {OS : Type}.
Variable kernel : forall R, Call R -> OS -> R * OS.
Variable knownCaps : list Z.
Variable capString : Z -> string.
Variable EqualFold : string -> string -> bool.
Variable capOrder : list CapType.

Local Abbreviation findCap := (lookupCap knownCaps capString EqualFold).

(** X13: every capability in a set of the object [setCapabilities]
    applies is a member of [capability.List()], is not the sentinel, and
    carries a name that [strings.EqualFold] matches, with the prefix
    CAP_, against a name the specification lists for that set or a keep
    name. *)
Theorem applied_capabilities_are_known process keepCaps (w w' : World OS) out :
  setCapabilities kernel knownCaps capString EqualFold capOrder process
    keepCaps w = (out, w') ->
  exists events,
    trace w' = trace w ++ events
    /\ forall (caps : Capabilities) (capType : CapType) (x : Z),
         In caps (appliedCaps events) ->
         x ∈ capsOf caps capType ->
         In x knownCaps /\ x <> noCap
         /\ exists name : string,
              (name ∈ capMap (ProcessCapabilities process) capType
               \/ name ∈ keepCaps)
              /\ EqualFold ("CAP_" ++ capString x) name = true.
Proof.
  intros H. apply setCapabilities_applied in H as (events & Ht & Happlied).
  exists events. split; [exact Ht |].
  intros caps capType x Hin Hx.
  destruct (Happlied caps Hin) as (currentCaps & _ & Hloop).
  pose proof (proj1 (capLoop_elem _ _ _ _ _ _ _ _ _ Hloop capType x) Hx) as Hy.
  clear Hx. destruct Hy
    as [Hx | [_ [(name & Hname & Hfind) | [(name & Hname & Hfind) _]]]].
  - destruct capType; now apply not_elem_of_empty in Hx.
  - apply lookupCap_sound in Hfind as (Hk & Hno & Heq).
    repeat split; [exact Hk | exact Hno |]. exists name. auto.
  - apply lookupCap_sound in Hfind as (Hk & Hno & Heq).
    repeat split; [exact Hk | exact Hno |]. exists name. auto.
Qed.

(** X14: one name that resolves to no capability, in a list of the
    specification for a type the loop visits or among the keep names,
    makes [setCapabilities] fail before anything is applied.  The
    inheritable list of the specification is not among these lists: its
    names are never resolved, so that, whatever the other lists hold,
    replacing the inheritable list by any other, unknown names included,
    changes neither the result nor the calls made. *)
Theorem unknown_capability_is_fatal process keepCaps (w : World OS) :
  (forall (capType : CapType) (name : string),
     capType ∈ capOrder ->
     name ∈ capMap (ProcessCapabilities process) capType \/ name ∈ keepCaps ->
     findCap name = None ->
     exists (e : error) (w' : World OS) (events : list Event),
       setCapabilities kernel knownCaps capString EqualFold capOrder process
         keepCaps w = (Fail e, w')
       /\ trace w' = trace w ++ events
       /\ appliedCaps events = [])
  /\ forall names : list string,
       let caps := ProcessCapabilities process in
       setCapabilities kernel knownCaps capString EqualFold capOrder
         {| ProcessUser := ProcessUser process; Cwd := Cwd process;
            Env := Env process;
            ProcessCapabilities :=
              {| Bounding := Bounding caps; Effective := Effective caps;
                 Inheritable := names; Permitted := Permitted caps;
                 Ambient := Ambient caps |};
            Rlimits := Rlimits process;
            ApparmorProfile := ApparmorProfile process |} keepCaps w
       = setCapabilities kernel knownCaps capString EqualFold capOrder process
           keepCaps w.
Proof.
  split.
  - intros capType name Horder Hname Hfind.
    assert (forall currentCaps,
              exists e, capLoop knownCaps capString EqualFold capOrder
                          currentCaps emptyCaps (ProcessCapabilities process)
                          keepCaps = Err e) as Hloop.
    { intros currentCaps.
      destruct (capLoop _ _ _ _ _ _ _ _) as [caps' | e] eqn:E; [| now exists e].
      exfalso.
      destruct (proj1 (capLoop_ok knownCaps capString EqualFold capOrder
                         currentCaps (ProcessCapabilities process) keepCaps
                         emptyCaps) (ex_intro _ caps' E) capType Horder)
        as [Hl Hk].
      rewrite Forall_forall in Hl, Hk.
      destruct Hname as [Hn | Hn]; [apply (Hl name Hn) | apply (Hk name Hn)];
        exact Hfind. }
    unfold setCapabilities. rewrite bind_call.
    destruct (answer kernel CapNewPid2 (os w)) as [e |].
    { eexists _, _, [Ev CapNewPid2]. repeat split. }
    rewrite bind_call. unfold afterCall at 1 2. cbn [os].
    destruct (answer kernel CapLoad _) as [e | currentCaps].
    { eexists _, _, [Ev CapNewPid2; Ev CapLoad].
      split; [reflexivity |]. cbn [afterCall trace].
      rewrite <- app_assoc. split; reflexivity. }
    rewrite bind_call. unfold afterCall at 1 2. cbn [os].
    destruct (answer kernel CapNewPid2 _) as [e |].
    { eexists _, _, [Ev CapNewPid2; Ev CapLoad; Ev CapNewPid2].
      split; [reflexivity |]. cbn [afterCall trace].
      rewrite <- !app_assoc. split; reflexivity. }
    destruct (Hloop currentCaps) as [e ->].
    eexists _, _, [Ev CapNewPid2; Ev CapLoad; Ev CapNewPid2].
    split; [reflexivity |]. cbn [afterCall trace].
    rewrite <- !app_assoc. split; reflexivity.
  - intros names caps. unfold setCapabilities. rewrite !bind_call.
    destruct (answer kernel CapNewPid2 (os w)); [reflexivity |].
    rewrite !bind_call. destruct (answer kernel CapLoad _); [reflexivity |].
    rewrite !bind_call. destruct (answer kernel CapNewPid2 _); [reflexivity |].
    cbn [ProcessCapabilities].
    rewrite (capLoop_capMap knownCaps capString EqualFold capOrder _ _ caps);
      [reflexivity | intros []; reflexivity].
Qed.

End CapabilityApplyFacts.

(** The theorem on the table of Linux: the second bounding name is
    unknown, and nothing is applied. *)
Lemma unknown_capability_is_fatal_witness :
  exists (e : error) (w' : World Toy) (events : list Event),
    setCapabilities toyKernel linuxKnownCaps linuxCapString asciiEqualFold
      toyCapOrder bogusCapability [] (mkWorld toyState []) = (Fail e, w')
    /\ trace w' = trace (mkWorld toyState []) ++ events
    /\ appliedCaps events = [].
Proof.
  apply (proj1 (unknown_capability_is_fatal toyKernel linuxKnownCaps
                  linuxCapString asciiEqualFold toyCapOrder bogusCapability []
                  (mkWorld toyState []))
           BOUNDING "CAP_BOGUS").
  - repeat constructor.
  - left. cbn. repeat constructor.
  - vm_compute. reflexivity.
Defined.

(** The theorem of X13 on the toy kernel. *)
Lemma applied_capabilities_are_known_witness :
  exists events,
    trace (snd (setCapabilities toyKernel linuxKnownCaps linuxCapString
                  asciiEqualFold toyCapOrder toyProcess ["CAP_SETUID"]
                  (mkWorld withSetuid [])))
    = [] ++ events
    /\ forall (caps : Capabilities) (capType : CapType) (x : Z),
         In caps (appliedCaps events) ->
         x ∈ capsOf caps capType ->
         In x linuxKnownCaps /\ x <> noCap
         /\ exists name : string,
              (name ∈ capMap (ProcessCapabilities toyProcess) capType
               \/ name ∈ ["CAP_SETUID"])
              /\ asciiEqualFold ("CAP_" ++ linuxCapString x) name = true.
Proof.
  apply (applied_capabilities_are_known toyKernel linuxKnownCaps linuxCapString
           asciiEqualFold toyCapOrder toyProcess ["CAP_SETUID"]
           (mkWorld withSetuid [])
           (snd (setCapabilities toyKernel linuxKnownCaps linuxCapString
                   asciiEqualFold toyCapOrder toyProcess ["CAP_SETUID"]
                   (mkWorld withSetuid [])))
           (fst (setCapabilities toyKernel linuxKnownCaps linuxCapString
                   asciiEqualFold toyCapOrder toyProcess ["CAP_SETUID"]
                   (mkWorld withSetuid [])))).
  apply surjective_pairing.
Defined.

(** ** The namespaces of the child *)

Lemma requestedUserNS_exists namespaces :
  requestedUserNS namespaces = listsNamespace UserNamespace namespaces.
Proof.
  unfold requestedUserNS, listsNamespace.
  enough (forall requested,
            fold_left (fun requested ns =>
                         if String.eqb (ns_Type ns) UserNamespace then true
                         else requested) namespaces requested
            = requested
              || existsb (fun ns => String.eqb (ns_Type ns) UserNamespace)
                   namespaces) as H by apply (H false).
  induction namespaces as [| ns rest IH]; intros requested; cbn [fold_left existsb].
  - now rewrite orb_false_r.
  - rewrite IH. destruct (String.eqb (ns_Type ns) UserNamespace); cbn [orb].
    + now rewrite orb_true_r.
    + reflexivity.
Qed.

Lemma wantsUserNS_test spec namespaces :
  wantsUserNS spec namespaces
  <-> (0 <? Z.of_nat (List.length (UIDMappings spec)))%Z
      || (0 <? Z.of_nat (List.length (GIDMappings spec)))%Z
      || requestedUserNS namespaces = true.
Proof.
  rewrite requestedUserNS_exists. unfold wantsUserNS, listsNamespace.
  rewrite !orb_true_iff, existsb_exists, !Z.ltb_lt.
  assert (forall l : list LinuxIDMapping,
            l <> [] <-> (0 < Z.of_nat (List.length l))%Z) as Hlen.
  { intros [| m l]; cbn [List.length]; split; try congruence; lia. }
  rewrite <- !Hlen. split.
  - intros [H | [H | (ns & Hin & Hty)]]; auto.
    right. exists ns. split; [exact Hin | now apply String.eqb_eq].
  - intros [[H | H] | (ns & Hin & Hty)]; auto.
    right. right. exists ns. split; [exact Hin | now apply String.eqb_eq].
Qed.

Lemma orBorrowed_test configured host :
  (if Z.eqb (Z.of_nat (List.length configured)) 0 then borrowMappings host
   else configured)
  = orBorrowed configured host.
Proof. destruct configured; reflexivity. Qed.

Lemma borrowMappings_identity (host : list LinuxIDMapping) :
  Forall (fun m => HostID m = ContainerID m) (borrowMappings host)
  /\ map ContainerID (borrowMappings host) = map ContainerID host
  /\ map Size (borrowMappings host) = map Size host.
Proof.
  unfold borrowMappings. rewrite !map_map. cbn [ContainerID Size].
  split; [| split; reflexivity].
  induction host as [| m host IH]; constructor; [reflexivity | exact IH].
Qed.

(** X15: the child always gets a new UTS and a new mount namespace,
    whatever flags the command held before.  It gets a user namespace
    exactly when the specification has a UID or a GID mapping or lists a
    user namespace; then it is handed the mappings of the
    specification, those of the parent with each host ID replaced by the
    container ID where the specification has none, and may call
    setgroups.  Otherwise the mappings of the command are left as they
    were. *)
Theorem user_namespace_when_mapped (hostUidmap hostGidmap : list LinuxIDMapping)
    (spec : Spec) (namespaces : list LinuxNamespace) (adj : option Z)
    (cmd : UnshareCmd) :
  exists cmd' : UnshareCmd,
    setPlatformUnshareOptions (inr (hostUidmap, hostGidmap)) spec namespaces
      (Some adj) cmd = UnshareDone cmd'
    /\ OOMScoreAdj cmd' = adj
    /\ (wantsUserNS spec namespaces ->
        UnshareFlags cmd'
        = Z.lor (Z.lor CLONE_NEWUTS CLONE_NEWNS) CLONE_NEWUSER
        /\ UidMappings cmd' = orBorrowed (UIDMappings spec) hostUidmap
        /\ GidMappings cmd' = orBorrowed (GIDMappings spec) hostGidmap
        /\ GidMappingsEnableSetgroups cmd' = true)
    /\ (~ wantsUserNS spec namespaces ->
        UnshareFlags cmd' = Z.lor CLONE_NEWUTS CLONE_NEWNS
        /\ UidMappings cmd' = UidMappings cmd
        /\ GidMappings cmd' = GidMappings cmd
        /\ GidMappingsEnableSetgroups cmd' = GidMappingsEnableSetgroups cmd)
    /\ (forall host : list LinuxIDMapping,
          Forall (fun m => HostID m = ContainerID m) (borrowMappings host)
          /\ map ContainerID (borrowMappings host) = map ContainerID host
          /\ map Size (borrowMappings host) = map Size host).
Proof.
  unfold setPlatformUnshareOptions. cbv zeta.
  rewrite !orBorrowed_test.
  pose proof (wantsUserNS_test spec namespaces) as Htest.
  destruct ((0 <? Z.of_nat (List.length (UIDMappings spec)))%Z
            || (0 <? Z.of_nat (List.length (GIDMappings spec)))%Z
            || requestedUserNS namespaces) eqn:Ewant;
    eexists; (split; [reflexivity |]); cbn [UnshareFlags UidMappings GidMappings
      GidMappingsEnableSetgroups OOMScoreAdj];
    (split; [reflexivity |]); (split; [| split]).
  - intros _. repeat split.
  - intros Hnot. exfalso. apply Hnot, Htest. reflexivity.
  - apply borrowMappings_identity.
  - intros Hwant. apply Htest in Hwant. discriminate Hwant.
  - intros _. repeat split.
  - apply borrowMappings_identity.
Qed.

(** The theorem on a specification without mappings whose namespace list
    names a user namespace: the mapping of the parent is borrowed with
    the host ID overwritten. *)
Lemma user_namespace_when_mapped_witness :
  setPlatformUnshareOptions
    (inr ([{| ContainerID := 0; HostID := 100000; Size := 65536 |}], []))
    toySpec pidAndUser (Some (Some 5)) staleCmd
  = UnshareDone
      {| UnshareFlags := Z.lor (Z.lor CLONE_NEWUTS CLONE_NEWNS) CLONE_NEWUSER;
         UidMappings := [{| ContainerID := 0; HostID := 0; Size := 65536 |}];
         GidMappings := [];
         GidMappingsEnableSetgroups := true;
         OOMScoreAdj := Some 5 |}.
Proof.
  destruct (user_namespace_when_mapped
              [{| ContainerID := 0; HostID := 100000; Size := 65536 |}] []
              toySpec pidAndUser (Some 5) staleCmd)
    as (cmd' & Hrun & Hadj & Hwant & _).
  rewrite Hrun. destruct cmd' as [flags uids gids setgroups score].
  cbn [UnshareFlags UidMappings GidMappings GidMappingsEnableSetgroups
       OOMScoreAdj] in *.
  destruct Hwant as (-> & -> & -> & ->).
  - right. right. eexists. split; [right; left; reflexivity | reflexivity].
  - rewrite Hadj. reflexivity.
Defined.

(** ** The debug messages about namespaces *)

Section DiagnosticsFacts.

Variable Quote : string -> string.

Local Abbreviation unable := (fun message : string => isUnable message = true).

(** One namespace entry logs at most one message, which starts with
    the words "unable to", and raises the flag of its own type only. *)
Lemma diagnose_step (d : Diagnostics) (ns : LinuxNamespace) :
  exists body : list string,
    messages (diagnose Quote d ns) = messages d ++ body
    /\ Forall unable body
    /\ (List.length body <= 1)%nat
    /\ sawMountNS (diagnose Quote d ns)
       = sawMountNS d || String.eqb (ns_Type ns) MountNamespace
    /\ sawUTSNS (diagnose Quote d ns)
       = sawUTSNS d || String.eqb (ns_Type ns) UTSNamespace.
Proof.
  destruct ns as [kind path]. unfold diagnose, logged, sorry.
  cbn [ns_Type ns_Path].
  repeat match goal with
         | |- context [String.eqb kind ?k] =>
             let E := fresh "E" in
             destruct (String.eqb kind k) eqn:E;
             [apply String.eqb_eq in E; subst kind |]
         end;
    destruct (String.eqb path EmptyString);
    cbn [negb messages sawMountNS sawUTSNS];
    (first [ exists []; split; [now rewrite app_nil_r |]
           | eexists [_]; split; [reflexivity |] ]);
    (split; [repeat constructor |]);
    (split; [cbn [List.length]; lia |]);
    rewrite ?orb_false_r, ?orb_true_r; split; reflexivity.
Qed.

Lemma diagnose_fold (namespaces : list LinuxNamespace) : forall d : Diagnostics,
  exists body : list string,
    messages (fold_left (diagnose Quote) namespaces d) = messages d ++ body
    /\ Forall unable body
    /\ (List.length body <= List.length namespaces)%nat
    /\ sawMountNS (fold_left (diagnose Quote) namespaces d)
       = sawMountNS d || listsNamespace MountNamespace namespaces
    /\ sawUTSNS (fold_left (diagnose Quote) namespaces d)
       = sawUTSNS d || listsNamespace UTSNamespace namespaces.
Proof.
  unfold listsNamespace.
  induction namespaces as [| ns rest IH]; intros d; cbn [fold_left existsb].
  - exists []. rewrite app_nil_r, !orb_false_r.
    repeat split; [constructor | cbn [List.length]; lia].
  - destruct (diagnose_step d ns) as (b1 & Hm1 & Hu1 & Hl1 & Hmount1 & Huts1).
    destruct (IH (diagnose Quote d ns)) as (b2 & Hm2 & Hu2 & Hl2 & Hmount2 & Huts2).
    exists (b1 ++ b2). rewrite Hm2, Hm1, Hmount2, Hmount1, Huts2, Huts1.
    rewrite <- app_assoc, !orb_assoc, length_app. cbn [List.length].
    repeat split; [now apply Forall_app | lia].
Qed.

(** X16: the log ends with the remark that a mount namespace was not
    requested exactly when the list has no entry of type mount, and
    likewise for the UTS namespace; every message before these starts
    with the words "unable to", and there is at most one per entry of
    the list. *)
Theorem diagnostics_name_missing_namespaces (namespaces : list LinuxNamespace) :
  (exists body : list string,
     logNamespaceDiagnostics Quote namespaces
     = body
       ++ (if listsNamespace MountNamespace namespaces then []
           else [mountNotRequested])
       ++ (if listsNamespace UTSNamespace namespaces then []
           else [utsNotRequested])
     /\ Forall unable body
     /\ (List.length body <= List.length namespaces)%nat)
  /\ (In mountNotRequested (logNamespaceDiagnostics Quote namespaces)
      <-> listsNamespace MountNamespace namespaces = false)
  /\ (In utsNotRequested (logNamespaceDiagnostics Quote namespaces)
      <-> listsNamespace UTSNamespace namespaces = false).
Proof.
  assert (exists body : list string,
            logNamespaceDiagnostics Quote namespaces
            = body
              ++ (if listsNamespace MountNamespace namespaces then []
                  else [mountNotRequested])
              ++ (if listsNamespace UTSNamespace namespaces then []
                  else [utsNotRequested])
            /\ Forall unable body
            /\ (List.length body <= List.length namespaces)%nat) as Hlog.
  { unfold logNamespaceDiagnostics.
    destruct (diagnose_fold namespaces
                {| messages := []; sawMountNS := false; sawUTSNS := false |})
      as (body & Hm & Hu & Hl & Hmount & Huts).
    cbn [messages sawMountNS sawUTSNS orb app] in Hm, Hmount, Huts.
    exists body. split; [| split; assumption].
    destruct (fold_left (diagnose Quote) namespaces _) as [msgs sawM sawU].
    cbn [messages sawMountNS sawUTSNS] in *. subst msgs sawM sawU.
    destruct (listsNamespace MountNamespace namespaces),
             (listsNamespace UTSNamespace namespaces);
      cbn [negb logged messages sawMountNS sawUTSNS app];
      rewrite <- ?app_assoc, ?app_nil_r; reflexivity. }
  split; [exact Hlog |].
  destruct Hlog as (body & -> & Hu & _).
  assert (forall m, isUnable m = false -> ~ In m body) as Hbody.
  { intros m Hm Hin. rewrite List.Forall_forall in Hu.
    apply Hu in Hin. congruence. }
  split; rewrite !in_app_iff.
  - destruct (listsNamespace MountNamespace namespaces),
             (listsNamespace UTSNamespace namespaces); cbn [In]; split;
      try discriminate; try (intros _; auto; fail);
      intros [H | [H | H]]; try (now apply Hbody in H); try discriminate H;
      try destruct H as [H | H]; try discriminate H; try contradiction.
  - destruct (listsNamespace MountNamespace namespaces),
             (listsNamespace UTSNamespace namespaces); cbn [In]; split;
      try discriminate; try (intros _; auto; fail);
      intros [H | [H | H]]; try (now apply Hbody in H); try discriminate H;
      try destruct H as [H | H]; try discriminate H; try contradiction.
Qed.

End DiagnosticsFacts.

(** ** The bind of a host directory *)

Section HostBindFacts.

Context {OS : Type}.
Variable kernel : forall R, Call R -> OS -> R * OS.
Variable Join : string -> string -> string.

(** X17: the bind of /dev, /proc or /sys under the root is tried at
    most twice.  The mount point is created exactly when the kernel
    answered the first attempt with an error that means the path does
    not exist; the second attempt is made exactly when that creation
    succeeded; and the step succeeds exactly when its last call was the
    bind and the kernel accepted it.  Every failure comes with the
    cleanup closure.  Each of the three steps of the mount construction
    begins with this bind. *)
Theorem host_bind_retries_once (root host sub : string) (flags : Z)
    (w w' : World OS) (out : Outcome SetupFailure unit) :
  bindHostDir kernel host sub flags w = (out, w') ->
  let mount := Mount host sub "bind" flags EmptyString in
  let create := Mkdir sub 493 in
  (exists events : list Event,
     segment kernel w w' events
     /\ (events = [Ev mount] \/ events = [Ev mount; Ev create]
         \/ events = [Ev mount; Ev create; Ev mount])
     /\ (In (Ev create) events
         <-> exists e, answer kernel mount (os w) = Some e
                       /\ isNotExist e = true)
     /\ (events = [Ev mount; Ev create; Ev mount]
         <-> In (Ev create) events
             /\ answer kernel create (replay kernel [Ev mount] (os w)) = None)
     /\ (out = Done tt
         <-> exists pre, events = pre ++ [Ev mount]
                         /\ answer kernel mount (replay kernel pre (os w))
                            = None)
     /\ (forall f, out = Fail f -> withUndoBinds f = true))
  /\ (exists k, forall w0 : World OS,
        bindDev kernel Join root w0
        = bind (bindHostDir kernel "/dev" (Join root "/dev") devFlags) k w0)
  /\ (exists k, forall w0 : World OS,
        bindProc kernel Join root w0
        = bind (bindHostDir kernel "/proc" (Join root "/proc") procFlags) k w0)
  /\ (exists k, forall w0 : World OS,
        bindSys kernel Join root w0
        = bind (bindHostDir kernel "/sys" (Join root "/sys") sysFlags) k w0).
Proof.
  intros H mount create. subst mount create.
  split; [| split; [| split]].
  2: { eexists. intros w0. unfold bindDev. reflexivity. }
  2: { exists ret. intros w0. unfold bindProc, bind.
       destruct (bindHostDir kernel _ _ _ w0) as [[[] | f] w1]; reflexivity. }
  2: { eexists. intros w0. unfold bindSys. reflexivity. }
  unfold bindHostDir in H. rewrite bind_call in H.
  destruct (answer kernel (Mount host sub "bind" flags EmptyString) (os w))
    as [e |] eqn:E1.
  - destruct (isNotExist e) eqn:Ee.
    + rewrite bind_bind, bind_call in H.
      destruct (answer kernel (Mkdir sub 493) _) as [e2 |] eqn:E2.
      * (* the mount point cannot be created: no second attempt *)
        injection H as <- <-.
        exists [Ev (Mount host sub "bind" flags EmptyString); Ev (Mkdir sub 493)].
        split; [split; [| reflexivity];
                unfold afterCall; cbn [trace]; now rewrite <- app_assoc |].
        split; [auto |].
        split; [split; [intros _; now exists e | intros _; cbn; auto] |].
        split; [split; [discriminate |];
                intros [_ Hmk]; cbn [replay] in Hmk;
                unfold afterCall in E2; cbn [os] in E2; congruence |].
        split; [| now intros f [= <-]].
        split; [discriminate |].
        intros (pre & Hpre & _).
        change [Ev (Mount host sub "bind" flags EmptyString); Ev (Mkdir sub 493)]
          with ([Ev (Mount host sub "bind" flags EmptyString)]
                ++ [Ev (Mkdir sub 493)]) in Hpre.
        apply List.app_inj_tail in Hpre as [_ Hpre]. discriminate Hpre.
      * (* created: the bind is tried again *)
        rewrite bind_call in H.
        destruct (answer kernel (Mount host sub "bind" flags EmptyString)
                    (os (afterCall kernel (Mkdir sub 493) _)))
          as [e3 |] eqn:E3; injection H as <- <-;
          exists [Ev (Mount host sub "bind" flags EmptyString);
                  Ev (Mkdir sub 493);
                  Ev (Mount host sub "bind" flags EmptyString)];
          (split; [split; [| reflexivity];
                   unfold afterCall; cbn [trace]; now rewrite <- !app_assoc |]);
          (split; [auto |]);
          (split; [split; [intros _; now exists e | intros _; cbn; auto] |]);
          (split; [split; [intros _; split; [cbn; auto |];
                           cbn [replay];
                           first [ reflexivity
                                 | unfold afterCall in E2; cbn [os] in E2;
                                   exact E2 ]
                          | reflexivity] |]);
          (split; [| first [discriminate | now intros f [= <-]]]).
        -- split; [discriminate |]. intros (pre & Hpre & Hans).
           change [Ev (Mount host sub "bind" flags EmptyString);
                   Ev (Mkdir sub 493);
                   Ev (Mount host sub "bind" flags EmptyString)]
             with ([Ev (Mount host sub "bind" flags EmptyString);
                    Ev (Mkdir sub 493)]
                   ++ [Ev (Mount host sub "bind" flags EmptyString)]) in Hpre.
           apply List.app_inj_tail in Hpre as [<- _].
           cbn [replay] in Hans. unfold afterCall in E3. cbn [os] in E3.
           congruence.
        -- split; [| reflexivity]. intros _.
           exists [Ev (Mount host sub "bind" flags EmptyString);
                   Ev (Mkdir sub 493)].
           split; [reflexivity |]. cbn [replay].
           unfold afterCall in E3. cbn [os] in E3. exact E3.
    + (* another error: the mount point is not created *)
      injection H as <- <-.
      exists [Ev (Mount host sub "bind" flags EmptyString)].
      split; [apply segment_call |]. split; [auto |].
      split; [split; [intros [Hin | []]; discriminate Hin
                     | intros (e' & He' & Hne); congruence] |].
      split; [split; [discriminate |];
              intros [[Hin | []] _]; discriminate Hin |].
      split; [| now intros f [= <-]].
      split; [discriminate |]. intros (pre & Hpre & Hans).
      apply (List.app_inj_tail []) in Hpre as [<- _]. cbn [replay] in Hans.
      congruence.
  - injection H as <- <-.
    exists [Ev (Mount host sub "bind" flags EmptyString)].
    split; [apply segment_call |]. split; [auto |].
    split; [split; [intros [Hin | []]; discriminate Hin
                   | intros (e' & He' & _); discriminate He'] |].
    split; [split; [discriminate |];
            intros [[Hin | []] _]; discriminate Hin |].
    split; [| discriminate].
    split; [| reflexivity]. intros _. exists []. split; [reflexivity | exact E1].
Qed.

End HostBindFacts.

(** The theorem on the toy kernel, which accepts the first attempt: one
    call, and the step succeeds. *)
Lemma host_bind_retries_once_witness :
  let run := bindHostDir toyKernel "/proc" "/rootfs/proc" procFlags
               (mkWorld toyState []) in
  trace (snd run)
  = [Ev (Mount "/proc" "/rootfs/proc" "bind" procFlags EmptyString)]
  /\ fst run = Done tt.
Proof.
  intros run.
  destruct (host_bind_retries_once toyKernel toyJoin "/rootfs" "/proc"
              "/rootfs/proc" procFlags (mkWorld toyState []) (snd run)
              (fst run) (surjective_pairing run))
    as ((events & [Ht _] & Hshape & Hcreate & _ & Hdone & _) & _).
  cbn [trace app] in Ht. rewrite Ht.
  assert (events
          = [Ev (Mount "/proc" "/rootfs/proc" "bind" procFlags EmptyString)])
    as ->.
  { destruct Hshape as [-> | [-> | ->]]; [reflexivity | |];
      (destruct (proj1 Hcreate) as (e & He & _); [cbn; auto | discriminate He]). }
  split; [reflexivity |]. apply Hdone. exists []. split; reflexivity.
Defined.
